(** * Pub/sub client and broker, and the echo/ack variant: model and properties

    The development embeds the functions of
    - [MultiThreading Project/client.cpp] (modules [Client], [Stream] and
      [Subscriber]),
    - [MultiThreading Project/server.cpp] (module [Broker]),
    - [Assign 5/client.c] and [Assign 5/server.c] (modules [Echo] and [Wire]),
    and states the properties of the specification about them.

    Bytes are [ascii] characters, strings and buffers are lists of them,
    machine integers are [Z] with the conversions of the C code written out. *)

From Stdlib Require Import ZArith Ascii String List Lia Bool.
Import ListNotations.
Local Open Scope Z_scope.

(** ** Bytes and machine integers *)

Definition bytes := list ascii.

(** [(unsigned char)c] promoted to [int]. *)
Definition uchar (c : ascii) : Z := Z.of_N (N_of_ascii c).

(** [(char)z]: the low eight bits of [z]. *)
Definition to_char (z : Z) : ascii := ascii_of_N (Z.to_N (z mod 256)).

Definition NUL : ascii := zero.
Definition PAD : ascii := "="%char.

(** Conversions of C between integer types of 32 and 64 bits. *)
Definition to_uint32 (z : Z) : Z := z mod 2 ^ 32.
Definition to_int32 (z : Z) : Z :=
  let u := z mod 2 ^ 32 in if u <? 2 ^ 31 then u else u - 2 ^ 32.
Definition to_size_t (z : Z) : Z := z mod 2 ^ 64.

(** An [int] as its four bytes in memory, the least significant first, as
    on the x86 machines that server.cpp (Winsock) and the echo variant run
    on. *)
Definition int_bytes (x : Z) : bytes :=
  let u := to_uint32 x in
  [to_char u; to_char (u / 2 ^ 8); to_char (u / 2 ^ 16); to_char (u / 2 ^ 24)].

(** A literal of the source as a list of bytes. *)
Definition lit (s : string) : bytes := list_ascii_of_string s.

(** ** client.cpp *)

Module Client.

(** *** Protocol *)

Definition SUBSCRIBE : Z := 1.
Definition PUBLISH : Z := 2.
Definition MSG : Z := 3.
Definition ACK : Z := 4.
Definition TERM : Z := 5.

(** [sizeof(Header)]: three [int] fields. *)
Definition sizeof_Header : Z := 12.

(** The four bytes that [htonl(x)] leaves in memory: the 32-bit value,
    most significant byte first. *)
Definition htonl (x : Z) : bytes :=
  let u := to_uint32 x in
  [to_char (u / 2 ^ 24); to_char (u / 2 ^ 16); to_char (u / 2 ^ 8); to_char u].

(** [ntohl] of a field whose four bytes in memory are [b0 b1 b2 b3]. *)
Definition ntohl (b0 b1 b2 b3 : ascii) : Z :=
  uchar b0 * 2 ^ 24 + uchar b1 * 2 ^ 16 + uchar b2 * 2 ^ 8 + uchar b3.

(** The header that [send_packet_tcp] and [send_packet_udp] fill:
    [htonl(type)], [htonl((int)topic.size())], [htonl((int)payload.size())]. *)
Definition make_header (type : Z) (topic payload : bytes) : bytes :=
  htonl type
  ++ htonl (to_int32 (Z.of_nat (length topic)))
  ++ htonl (to_int32 (Z.of_nat (length payload))).

(** [send_packet_tcp]: the bytes handed to [send_all], in order, when every
    [send_all] succeeds; topic and payload are sent only when not empty. *)
Definition send_packet_tcp (type : Z) (topic payload : bytes) : bytes :=
  make_header type topic payload
  ++ (match topic with [] => [] | _ => topic end)
  ++ (match payload with [] => [] | _ => payload end).

(** [send_packet_udp]: the datagram [Header || topic || payload]. *)
Definition send_packet_udp (type : Z) (topic payload : bytes) : bytes :=
  let buf := [] in
  let buf := buf ++ make_header type topic payload in
  let buf := buf ++ topic in
  buf ++ payload.

(** The outcome of [parse_datagram]. *)
Inductive parsed : Type :=
| Malformed                                   (* [return false] *)
| Parsed (type : Z) (topic payload : bytes)   (* [return true] *)
| OverRead.  (* an [assign] was asked for bytes that the datagram does not
                hold: a read past the received bytes or [std::length_error] *)

(** [s.assign(data + off, count)] on a buffer that holds the received
    bytes [data]: the bytes when they all lie inside, [None] otherwise. *)
Definition assign (data : bytes) (off count : Z) : option bytes :=
  if (0 <=? off) && (off + count <=? Z.of_nat (length data))
  then Some (firstn (Z.to_nat count) (skipn (Z.to_nat off) data))
  else None.

(** [parse_datagram(data, n, type, topic, payload)], with [size_t] of 64
    bits; [data] holds the [n] received bytes. *)
Definition parse_datagram (data : bytes) : parsed :=
  let n := Z.of_nat (length data) in
  if n <? sizeof_Header then Malformed
  else
    match data with
    | t0 :: t1 :: t2 :: t3 :: l0 :: l1 :: l2 :: l3 :: p0 :: p1 :: p2 :: p3 :: _ =>
        let type := to_int32 (ntohl t0 t1 t2 t3) in
        let tlen := to_int32 (ntohl l0 l1 l2 l3) in
        let plen := to_int32 (ntohl p0 p1 p2 p3) in
        let need := to_size_t (sizeof_Header + to_size_t tlen + to_size_t plen) in
        if n <? need then Malformed
        else
          match assign data sizeof_Header (to_size_t tlen) with
          | None => OverRead
          | Some topic =>
              match assign data (sizeof_Header + tlen) (to_size_t plen) with
              | None => OverRead
              | Some payload => Parsed type topic payload
              end
          end
    | _ => Malformed
    end.

(** *** Base64 *)

Definition B64 : bytes :=
  lit "ABCDEFGHIJKLMNOPQRSTUVWXYZabcdefghijklmnopqrstuvwxyz0123456789+/".

(** [B64[i]]; every use in the source has [0 <= i < 64]. *)
Definition B64_at (i : Z) : ascii := nth (Z.to_nat i) B64 NUL.

(** [t[k] = v] on a table of integers. *)
Fixpoint store (t : list Z) (k : nat) (v : Z) : list Z :=
  match t, k with
  | [], _ => []
  | _ :: t', O => v :: t'
  | x :: t', S k' => x :: store t' k' v
  end.

(** [init_rev]: the three loops and assignments that fill [REV]. *)
Definition init_rev : list Z :=
  let REV := repeat 255 256 in
  let REV :=
    fold_left
      (fun REV i => store REV (Z.to_nat (uchar (B64_at (Z.of_nat i)))) (Z.of_nat i))
      (seq 0 64) REV in
  store REV (Z.to_nat (uchar PAD)) 254.

(** [REV[(unsigned char)c]] once [init_rev] has run; [b64_decode] runs it
    before its first lookup. *)
Definition REV (c : ascii) : Z := nth (Z.to_nat (uchar c)) init_rev 255.

(** The body of the loop of [b64_encode] for the group that starts at [i]:
    [d1] is [d[i+1]] when [i+1<n], [d2] is [d[i+2]] when [i+2<n].  The
    value [v] stays below [2^24], so the [unsigned int] never wraps. *)
Definition encode_group (d0 : ascii) (d1 d2 : option ascii) : bytes :=
  let v := Z.shiftl (uchar d0) 16 in
  let v := match d1 with Some d => Z.lor v (Z.shiftl (uchar d) 8) | None => v end in
  let v := match d2 with Some d => Z.lor v (uchar d) | None => v end in
  [ B64_at (Z.land (Z.shiftr v 18) 63);
    B64_at (Z.land (Z.shiftr v 12) 63);
    match d1 with Some _ => B64_at (Z.land (Z.shiftr v 6) 63) | None => PAD end;
    match d2 with Some _ => B64_at (Z.land v 63) | None => PAD end ].

(** [b64_encode]: the loop [for(i=0;i<n;i+=3)] takes the input three bytes
    at a time. *)
Fixpoint b64_encode (d : bytes) : bytes :=
  match d with
  | [] => []
  | [d0] => encode_group d0 None None
  | [d0; d1] => encode_group d0 (Some d1) None
  | d0 :: d1 :: d2 :: rest => encode_group d0 (Some d1) (Some d2) ++ b64_encode rest
  end.

(** The body of the loop of [b64_decode] on the four characters of one
    group: [None] is [return false], [Some l] the bytes pushed to [out].
    The lookups are at most 254, so [v] stays below [2^26]. *)
Definition decode_group (i0 i1 i2 i3 : ascii) : option bytes :=
  let c0 := REV i0 in
  let c1 := REV i1 in
  let c2 := REV i2 in
  let c3 := REV i3 in
  if (c0 =? 255) || (c1 =? 255) || (c2 =? 255) || (c3 =? 255) then None
  else
    let v := Z.lor (Z.shiftl c0 18) (Z.shiftl c1 12) in
    let out := [to_char (Z.land (Z.shiftr v 16) 255)] in
    if negb (c2 =? 254) then
      let v := Z.lor v (Z.shiftl c2 6) in
      let out := out ++ [to_char (Z.land (Z.shiftr v 8) 255)] in
      if negb (c3 =? 254) then
        let v := Z.lor v c3 in
        Some (out ++ [to_char (Z.land v 255)])
      else Some out
    else Some out.

(** The loop [for(i=0;i<in.size();i+=4)] of [b64_decode]; it is entered
    only with a length that is a multiple of 4, so the last case is never
    reached from [b64_decode]. *)
Fixpoint decode_loop (inp : bytes) : option bytes :=
  match inp with
  | [] => Some []
  | i0 :: i1 :: i2 :: i3 :: rest =>
      match decode_group i0 i1 i2 i3 with
      | None => None
      | Some g =>
          match decode_loop rest with
          | None => None
          | Some out => Some (g ++ out)
          end
      end
  | _ => None
  end.

(** [b64_decode(in, out)]: [None] when it returns [false], [Some out] when
    it returns [true] with [out] filled. *)
Definition b64_decode (inp : bytes) : option bytes :=
  if negb (Z.of_nat (length inp) mod 4 =? 0) then None
  else decode_loop inp.

End Client.

(** ** server.cpp *)

Module Broker.

Definition TOPIC_LEN : nat := 64.
Definition MSG_LEN : nat := 1024.

(** Message types *)
Definition TYPE_SUBSCRIBE : Z := 10.
Definition TYPE_PUBLISH : Z := 11.
Definition TYPE_MSG : Z := 12.
Definition TYPE_ACK : Z := 2.
Definition TYPE_TERM : Z := 3.

(** [struct Message]; [msg_topic] and [content] are the arrays
    [char topic[TOPIC_LEN]] and [char content[MSG_LEN]]. *)
Record Message : Type := {
  msg_type : Z;
  msg_topic : bytes;
  payload_len : Z;
  content : bytes
}.

(** [sizeof(Message)]: every [send] of the broker transmits this many
    bytes, whatever the topic and the payload. *)
Definition sizeof_Message : Z := 4 + Z.of_nat TOPIC_LEN + 4 + Z.of_nat MSG_LEN.

Definition SOCKET := Z.

(** [struct ClientInfo]; [topic] is a [std::string]. *)
Record ClientInfo : Type := {
  sock : SOCKET;
  topic : bytes;
  subscribed : bool
}.

(** The characters of a stretch of memory before its first NUL. *)
Fixpoint c_str (a : bytes) : bytes :=
  match a with
  | [] => []
  | c :: rest => if Ascii.eqb c NUL then [] else c :: c_str rest
  end.

(** The memory of the structure [msg] from [msg.topic] on: the array
    [topic], then the four bytes of [payload_len], then the array
    [content]; there is no padding between them. *)
Definition from_topic (msg : Message) : bytes :=
  msg_topic msg ++ int_bytes (payload_len msg) ++ content msg.

(** [msg.topic] read as a C string, as the conversion to [std::string] in
    [c.topic = msg.topic] and the comparison [c.topic == msg.topic] read
    it: the characters before the first NUL, which is looked for beyond the
    64 characters of [topic], in [payload_len] and in [content], when
    [topic] holds none.  A structure without any NUL from [topic] on is
    read beyond its end, into the stack of the handler; the model stops at
    the end of the structure, and the statements about the string leave
    such structures out. *)
Definition topic_string (msg : Message) : bytes := c_str (from_topic msg).

(** [strncpy(dst, src, n)] into a zeroed [dst], for an array [src] of [n]
    characters: the string in [src], cut at [n] characters and filled up
    with NUL; nothing beyond [src] is read. *)
Definition strncpy (n : nat) (src : bytes) : bytes :=
  firstn n (c_str src ++ repeat NUL n).

(** [s == t] on strings. *)
Fixpoint bytes_eqb (s t : bytes) : bool :=
  match s, t with
  | [], [] => true
  | x :: s', y :: t' => Ascii.eqb x y && bytes_eqb s' t'
  | _, _ => false
  end.

(** What a handler does that other parties can observe, in order. *)
Inductive event : Type :=
| Lock                            (* [lock_guard] on [clients_mtx] built *)
| Unlock                          (* the [lock_guard] leaves its scope *)
| Send (to : SOCKET) (m : Message)
| Close (s : SOCKET).

(** [Message ack{}; ack.type = TYPE_ACK; strncpy(ack.topic, msg.topic, TOPIC_LEN);] *)
Definition make_ack (msg : Message) : Message :=
  {| msg_type := TYPE_ACK;
     msg_topic := strncpy TOPIC_LEN (msg_topic msg);
     payload_len := 0;
     content := repeat NUL MSG_LEN |}.

(** The loop over [clients] of the SUBSCRIBE branch. *)
Definition subscribe_loop (clientSock : SOCKET) (msg : Message)
    (clients : list ClientInfo) : list ClientInfo :=
  map (fun c =>
         if sock c =? clientSock
         then {| sock := sock c; topic := topic_string msg; subscribed := true |}
         else c)
      clients.

(** The loop over [clients] of the PUBLISH branch: the sends it makes. *)
Definition publish_loop (msg : Message) (clients : list ClientInfo) : list event :=
  flat_map (fun c =>
              if subscribed c && bytes_eqb (topic c) (topic_string msg)
              then [Send (sock c) msg]
              else [])
           clients.

Inductive status : Type :=
| Running      (* the handler goes back to [recv] *)
| Returned.    (* the handler has returned *)

(** The body of the loop of [handle_client] after a [recv] that filled
    [msg]: the new vector [clients], the events, and whether the handler
    goes on. *)
Definition dispatch (clientSock : SOCKET) (msg : Message)
    (clients : list ClientInfo) : list ClientInfo * list event * status :=
  if msg_type msg =? TYPE_SUBSCRIBE then
    (subscribe_loop clientSock msg clients,
     [Lock; Send clientSock (make_ack msg); Unlock],
     Running)
  else if msg_type msg =? TYPE_PUBLISH then
    (clients,
     [Lock] ++ publish_loop msg clients ++ [Send clientSock (make_ack msg); Unlock],
     Running)
  else if msg_type msg =? TYPE_TERM then
    (clients, [Close clientSock], Returned)
  else
    (clients, [], Running).

(** What one call of [recv] gives the handler. *)
Inductive received : Type :=
| Data (msg : Message)   (* [n > 0]; [msg] is the structure after the call *)
| NoData.                (* [n <= 0]: closed or failed *)

(** The outcome of a handler on a sequence of [recv] results: the vector
    [clients], the events, whether it still runs (then it is blocked in
    [recv]), and the results it never read. *)
Record outcome : Type := {
  registry : list ClientInfo;
  trace : list event;
  state : status;
  unread : list received
}.

(** [handle_client(clientSock)] against the results of its [recv] calls,
    with no other handler running in between. *)
Fixpoint handle_client (clientSock : SOCKET) (inputs : list received)
    (clients : list ClientInfo) : outcome :=
  match inputs with
  | [] => {| registry := clients; trace := []; state := Running; unread := [] |}
  | NoData :: rest =>
      {| registry := clients; trace := [Close clientSock];
         state := Returned; unread := rest |}
  | Data msg :: rest =>
      match dispatch clientSock msg clients with
      | (clients', ev, Returned) =>
          {| registry := clients'; trace := ev; state := Returned; unread := rest |}
      | (clients', ev, Running) =>
          let o := handle_client clientSock rest clients' in
          {| registry := registry o; trace := ev ++ trace o;
             state := state o; unread := unread o |}
      end
  end.

(** The body of the accept loop of [main] for one connection: the entry
    pushed on [clients] before the handler thread starts. *)
Definition accept_client (clientSock : SOCKET) (clients : list ClientInfo)
    : list ClientInfo :=
  clients ++ [{| sock := clientSock; topic := []; subscribed := false |}].

End Broker.

(** ** Assign 5: client.c and server.c *)

Module Echo.

(** A block of memory seen from a [char*]: the bytes from the pointer to the
    end of the block; [None] is a byte that [malloc] left indeterminate. *)
Definition block := list (option ascii).

(** An operation of the C code whose behaviour is undefined (a read or a
    write outside the block, a read of an indeterminate byte, arithmetic on
    a null pointer) yields [None]. *)
Definition bind {A B : Type} (x : option A) (f : A -> option B) : option B :=
  match x with
  | Some a => f a
  | None => None
  end.

Notation "x <- e ;; k" := (bind e (fun x => k))
  (at level 61, e at next level, right associativity).

(** [malloc(n)], which the model lets succeed. *)
Definition malloc (n : Z) : block := repeat None (Z.to_nat n).

(** [p[i]] read; [i] is the offset from [p], negative when the index wrapped
    around below zero. *)
Definition load (p : block) (i : Z) : option ascii :=
  if i <? 0 then None
  else match nth_error p (Z.to_nat i) with
       | Some (Some c) => Some c
       | _ => None
       end.

Fixpoint store_nat (p : block) (k : nat) (c : ascii) : option block :=
  match p, k with
  | [], _ => None
  | _ :: p', O => Some (Some c :: p')
  | x :: p', S k' =>
      match store_nat p' k' c with
      | Some q => Some (x :: q)
      | None => None
      end
  end.

(** [p[i] = c]. *)
Definition store (p : block) (i : Z) (c : ascii) : option block :=
  if i <? 0 then None else store_nat p (Z.to_nat i) c.

Fixpoint strlen_from (p : block) (k : Z) : option Z :=
  match p with
  | [] => None
  | None :: _ => None
  | Some c :: p' => if Ascii.eqb c NUL then Some k else strlen_from p' (k + 1)
  end.

(** [strlen(p)]. *)
Definition strlen (p : block) : option Z := strlen_from p 0.

(** The string [s] in memory: its characters and the terminating NUL. *)
Definition c_string (s : bytes) : block := map Some s ++ [Some NUL].

(** [base64_chars], the same array in client.c and server.c (the
    terminating NUL of the array is added where [strchr] searches it). *)
Definition base64_chars : bytes :=
  lit "ABCDEFGHIJKLMNOPQRSTUVWXYZabcdefghijklmnopqrstuvwxyz0123456789+/".

(** [base64_chars[i]] for an index below 64. *)
Definition base64_at (i : Z) : ascii := nth (Z.to_nat i) base64_chars NUL.

(** *** client.c *)

(** [i < input_len ? (unsigned char)input[i++] : 0]: the octet and the new [i]. *)
Definition next_octet (input : block) (input_len i : Z) : option (Z * Z) :=
  if i <? input_len then
    c <- load input i ;; Some (uchar c, to_size_t (i + 1))
  else Some (0, i).

(** The first loop of [base64_encode]; it runs at most [input_len] times,
    which is the [fuel] it is given. *)
Fixpoint encode_loop (fuel : nat) (input : block) (input_len i j : Z)
    (encoded : block) : option block :=
  match fuel with
  | O => Some encoded
  | S fuel' =>
      if i <? input_len then
        a <- next_octet input input_len i ;;
        b <- next_octet input input_len (snd a) ;;
        c <- next_octet input input_len (snd b) ;;
        let octet_a := fst a in
        let octet_b := fst b in
        let octet_c := fst c in
        let i := snd c in
        let triple :=
          to_uint32 (Z.shiftl octet_a 16 + Z.shiftl octet_b 8 + octet_c) in
        encoded <- store encoded j
                     (base64_at (Z.land (Z.shiftr triple (3 * 6)) 63)) ;;
        encoded <- store encoded (to_size_t (j + 1))
                     (base64_at (Z.land (Z.shiftr triple (2 * 6)) 63)) ;;
        encoded <- store encoded (to_size_t (j + 2))
                     (base64_at (Z.land (Z.shiftr triple (1 * 6)) 63)) ;;
        encoded <- store encoded (to_size_t (j + 3))
                     (base64_at (Z.land (Z.shiftr triple (0 * 6)) 63)) ;;
        encode_loop fuel' input input_len i (to_size_t (j + 4)) encoded
      else Some encoded
  end.

(** The second loop of [base64_encode]:
    [for (i = 0; i < (3 - input_len % 3) % 3; i++) encoded[output_len - 1 - i] = '=';] *)
Definition pad_loop (input_len output_len : Z) (encoded : block) : option block :=
  fold_left
    (fun acc i =>
       encoded <- acc ;;
       store encoded (to_size_t (output_len - 1 - Z.of_nat i)) PAD)
    (seq 0 (Z.to_nat ((3 - input_len mod 3) mod 3)))
    (Some encoded).

(** [base64_encode(input)]: the block it returns. *)
Definition base64_encode (input : block) : option block :=
  input_len <- strlen input ;;
  let output_len := to_size_t (4 * (to_size_t (input_len + 2) / 3)) in
  let encoded := malloc (to_size_t (output_len + 1)) in
  encoded <- encode_loop (Z.to_nat input_len) input input_len 0 0 encoded ;;
  encoded <- pad_loop input_len output_len encoded ;;
  store encoded output_len NUL.

(** *** server.c *)

Fixpoint index_of (c : ascii) (l : bytes) (k : Z) : option Z :=
  match l with
  | [] => None
  | x :: l' => if Ascii.eqb x c then Some k else index_of c l' (k + 1)
  end.

(** [strchr(base64_chars, c) - base64_chars] converted to [unsigned char];
    [strchr] finds the terminating NUL too, and gives a null pointer, whose
    difference with [base64_chars] is undefined, for a character that is not
    in the array. *)
Definition strchr_offset (c : ascii) : option Z :=
  k <- index_of c (base64_chars ++ [NUL]) 0 ;; Some (k mod 256).

(** [(input[k] == '=') ? 0 : strchr(base64_chars, input[k]) - base64_chars]. *)
Definition padded_offset (c : ascii) : option Z :=
  if Ascii.eqb c PAD then Some 0 else strchr_offset c.

(** [for (j = 0; j < 3 && (i*3/4+j) < output_len; j++) output[i*3/4+j] = triple[j];] *)
Definition write_triple (i output_len : Z) (t0 t1 t2 : Z) (output : block)
    : option block :=
  let at_j := fun j => to_size_t (to_size_t (i * 3) / 4 + j) in
  if at_j 0 <? output_len then
    output <- store output (at_j 0) (to_char t0) ;;
    if at_j 1 <? output_len then
      output <- store output (at_j 1) (to_char t1) ;;
      if at_j 2 <? output_len then store output (at_j 2) (to_char t2)
      else Some output
    else Some output
  else Some output.

(** The loop [for (i = 0; i < input_len; i += 4)] of [base64_decode]; it
    runs at most [input_len] times, which is the [fuel] it is given. *)
Fixpoint decode_loop (fuel : nat) (input : block) (input_len output_len i : Z)
    (output : block) : option block :=
  match fuel with
  | O => Some output
  | S fuel' =>
      if i <? input_len then
        c0 <- load input i ;;
        a <- strchr_offset c0 ;;
        c1 <- load input (i + 1) ;;
        b <- strchr_offset c1 ;;
        c2 <- load input (i + 2) ;;
        c <- padded_offset c2 ;;
        c3 <- load input (i + 3) ;;
        d <- padded_offset c3 ;;
        let t0 := Z.lor (Z.shiftl a 2) (Z.shiftr b 4) mod 256 in
        let t1 := Z.lor (Z.shiftl b 4) (Z.shiftr c 2) mod 256 in
        let t2 := Z.lor (Z.shiftl c 6) d mod 256 in
        output <- write_triple i output_len t0 t1 t2 output ;;
        decode_loop fuel' input input_len output_len (to_size_t (i + 4)) output
      else Some output
  end.

(** [base64_decode(input)]: the block it returns.  [input[input_len - 1]]
    and [input[input_len - 2]] are read before anything else. *)
Definition base64_decode (input : block) : option block :=
  input_len <- strlen input ;;
  let output_len := to_size_t (input_len / 4 * 3) in
  last <- load input (input_len - 1) ;;
  let output_len :=
    if Ascii.eqb last PAD then to_size_t (output_len - 1) else output_len in
  before_last <- load input (input_len - 2) ;;
  let output_len :=
    if Ascii.eqb before_last PAD then to_size_t (output_len - 1) else output_len in
  let output := malloc (to_size_t (output_len + 1)) in
  output <- decode_loop (Z.to_nat input_len) input input_len output_len 0 output ;;
  store output output_len NUL.

End Echo.

(** ** client.cpp: the helpers that read and write a TCP connection *)

Module Stream.

(** What one call of [send(fd, p, len, 0)] does. *)
Inductive send_outcome : Type :=
| Accepted (k : nat)     (* [n >= 0]: the kernel takes [min k len] bytes *)
| SendInterrupted        (* [n < 0] with [errno == EINTR] *)
| SendFailed.            (* [n < 0] with another [errno] *)

(** [send_all(fd, buf, len)] against the outcomes of its calls of [send], one
    per call; once the list is used up the kernel takes all that is left.
    The result is what [send_all] returns, the bytes that went out, in
    order, and the outcomes not used. *)
Fixpoint send_all (calls : list send_outcome) (buf : bytes)
    : bool * bytes * list send_outcome :=
  match buf with
  | [] => (true, [], calls)
  | _ :: _ =>
      match calls with
      | [] => (true, buf, [])
      | Accepted k :: calls' =>
          let n := Nat.min k (length buf) in
          match send_all calls' (skipn n buf) with
          | (ok, sent, rest) => (ok, firstn n buf ++ sent, rest)
          end
      | SendInterrupted :: calls' => send_all calls' buf
      | SendFailed :: calls' => (false, [], calls')
      end
  end.

(** What one call of [recv(fd, p, len, 0)] does when bytes are still to
    come. *)
Inductive recv_outcome : Type :=
| Chunk (k : nat)        (* [n > 0]: at most [k + 1] of the bytes to come *)
| RecvInterrupted        (* [n < 0] with [errno == EINTR] *)
| RecvFailed.            (* [n < 0] with another [errno] *)

(** A connection as its reader sees it: the outcomes of the next calls of
    [recv], and the bytes that arrive before the peer closes.  A call finds
    the connection closed ([n == 0]) when no byte is left; once the
    outcomes are used up a call returns all the bytes it asks for, as far
    as they are left. *)
Record conn : Type := {
  schedule : list recv_outcome;
  incoming : bytes
}.

(** [recv_all(fd, buf, len)]: what it returns, the bytes it put into [buf],
    and the connection afterwards. *)
Fixpoint recv_loop (schedule : list recv_outcome) (incoming : bytes) (len : nat)
    : bool * bytes * conn :=
  match len with
  | O => (true, [], {| schedule := schedule; incoming := incoming |})
  | S _ =>
      match schedule with
      | [] =>
          if (len <=? length incoming)%nat
          then (true, firstn len incoming,
                {| schedule := []; incoming := skipn len incoming |})
          else (false, incoming, {| schedule := []; incoming := [] |})
      | Chunk k :: schedule' =>
          match incoming with
          | [] => (false, [], {| schedule := schedule'; incoming := [] |})
          | _ :: _ =>
              let n := Nat.min (Nat.min len (S k)) (length incoming) in
              match recv_loop schedule' (skipn n incoming) (len - n) with
              | (ok, got, c) => (ok, firstn n incoming ++ got, c)
              end
          end
      | RecvInterrupted :: schedule' => recv_loop schedule' incoming len
      | RecvFailed :: schedule' =>
          (false, [], {| schedule := schedule'; incoming := incoming |})
      end
  end.

Definition recv_all (c : conn) (len : nat) : bool * bytes * conn :=
  recv_loop (schedule c) (incoming c) len.

(** The outcome of [recv_packet_tcp]. *)
Inductive packet : Type :=
| NoPacket                                    (* [return false] *)
| Packet (type : Z) (topic payload : bytes)   (* [return true] *)
| LengthError.  (* [assign(count, ch)] with a negative length, which is a
                   count above [max_size()]: [std::length_error] *)

(** [recv_packet_tcp(fd, type, topic, payload)]. *)
Definition recv_packet_tcp (c : conn) : packet * conn :=
  match recv_all c (Z.to_nat Client.sizeof_Header) with
  | (false, _, c) => (NoPacket, c)
  | (true, h, c) =>
      match h with
      | [t0; t1; t2; t3; l0; l1; l2; l3; p0; p1; p2; p3] =>
          let type := to_int32 (Client.ntohl t0 t1 t2 t3) in
          let tlen := to_int32 (Client.ntohl l0 l1 l2 l3) in
          let plen := to_int32 (Client.ntohl p0 p1 p2 p3) in
          if (tlen <? 0) || (plen <? 0) then (LengthError, c)
          else
            match (if tlen =? 0 then (true, [], c)
                   else recv_all c (Z.to_nat tlen)) with
            | (false, _, c) => (NoPacket, c)
            | (true, topic, c) =>
                match (if plen =? 0 then (true, [], c)
                       else recv_all c (Z.to_nat plen)) with
                | (false, _, c) => (NoPacket, c)
                | (true, payload, c) => (Packet type topic payload, c)
                end
            end
      | _ => (NoPacket, c)
      end
  end.

(** [recv_packet_udp]: [recvfrom] into the static buffer of 64 KiB gives
    [None] when it fails ([n < 0]) and the datagram, cut at the size of the
    buffer, otherwise; the bytes are then parsed. *)
Definition recv_packet_udp (received : option bytes) : Client.parsed :=
  match received with
  | None => Client.Malformed
  | Some datagram => Client.parse_datagram (firstn (64 * 1024) datagram)
  end.

End Stream.

(** ** client.cpp: the receive loop of a subscriber over TCP *)

Module Subscriber.

(** What the loop writes, line by line, and how it ends. *)
Inductive report : Type :=
| Received (topic payload : bytes) (text : option bytes)
    (* "[RECEIVED] Topic=... base64=... | text=..."; the text is
       "<b64-decode-error>" when [b64_decode] returns [false] *)
| UnsolicitedAck   (* "[ACK] (unsolicited TCP)" *)
| ServerClosed     (* "[INFO] Server closed connection.", then [break] *)
| Thrown.          (* an exception leaves the loop and [main] *)

(** The body of the loop after a call of [recv_packet_tcp] that returned
    [true]. *)
Definition on_packet (ty : Z) (tp pl : bytes) : list report :=
  if ty =? Client.MSG then [Received tp pl (Client.b64_decode pl)]
  else if ty =? Client.ACK then [UnsolicitedAck]
  else [].

(** The loop [while(true)] of the subscriber; every round that goes on has
    read a whole packet, so the rounds are bounded by [fuel], and [None] is
    a loop that was cut short by it. *)
Fixpoint receive_loop (fuel : nat) (c : Stream.conn) : option (list report) :=
  match fuel with
  | O => None
  | S fuel' =>
      match Stream.recv_packet_tcp c with
      | (Stream.NoPacket, _) => Some [ServerClosed]
      | (Stream.LengthError, _) => Some [Thrown]
      | (Stream.Packet ty tp pl, c') =>
          match receive_loop fuel' c' with
          | None => None
          | Some out => Some (on_packet ty tp pl ++ out)
          end
      end
  end.

End Subscriber.

(** ** Assign 5: the messages that client.c and server.c exchange *)

Module Wire.

Definition MSG_LEN : nat := 1024.

(** Message types *)
Definition TYPE_DATA : Z := 1.
Definition TYPE_ACK : Z := 2.
Definition TYPE_TERM : Z := 3.

(** [Message]; [content] is the array [char content[MSG_LEN]] as a block
    of memory. *)
Record Message : Type := {
  type : Z;
  content : Echo.block
}.

(** [strncpy(dst, src, n)] for an array [dst] of [n] characters: the array
    afterwards.  The characters of [src] before its NUL are copied, [n] at
    most, and the rest of the array is filled with NUL; no NUL is written
    when [src] has [n] characters or more. *)
Fixpoint strncpy (n : nat) (src : Echo.block) : option Echo.block :=
  match n with
  | O => Some []
  | S n' =>
      match src with
      | Some c :: src' =>
          if Ascii.eqb c NUL then Some (repeat (Some NUL) n)
          else
            match strncpy n' src' with
            | Some dst => Some (Some c :: dst)
            | None => None
            end
      | _ => None
      end
  end.

(** [strcpy(dst, src)] for a fresh array [dst] of [n] characters and a
    string literal [src] that fits: the array afterwards; the characters
    after the NUL stay indeterminate. *)
Definition strcpy (n : nat) (src : bytes) : Echo.block :=
  Echo.c_string src ++ repeat None (n - length src - 1).

(** The characters that [printf("%s", p)] reads: those before the first
    NUL. *)
Fixpoint read_string (p : Echo.block) : option bytes :=
  match p with
  | Some c :: p' =>
      if Ascii.eqb c NUL then Some []
      else
        match read_string p' with
        | Some s => Some (c :: s)
        | None => None
        end
  | _ => None
  end.

(** *** client.c *)

(** [send_message]: the structure that it sends. *)
Definition send_message (input : Echo.block) : option Message :=
  match Echo.base64_encode input with
  | None => None
  | Some encoded =>
      match strncpy MSG_LEN encoded with
      | None => None
      | Some content => Some {| type := TYPE_DATA; content := content |}
      end
  end.

(** The structure that [main] sends when the line is "exit". *)
Definition term_message : Message :=
  {| type := TYPE_TERM; content := strcpy MSG_LEN (lit "Terminating connection") |}.

(** [receive_ack] once [recv] has filled [ack_msg]: what it prints. *)
Definition receive_ack (ack_msg : Message) : option (list bytes) :=
  if type ack_msg =? TYPE_ACK then
    match read_string (content ack_msg) with
    | Some s => Some [s]
    | None => None
    end
  else Some [].

(** *** server.c *)

(** What a handler does, in order; of a [printf] only the string argument
    is kept. *)
Inductive event : Type :=
| Printed (s : bytes)
| Sent (m : Message)
| Closed.

(** [Message ack_msg; ack_msg.type = TYPE_ACK;
     strcpy(ack_msg.content, "Message received successfully");] *)
Definition ack_message : Message :=
  {| type := TYPE_ACK;
     content := strcpy MSG_LEN (lit "Message received successfully") |}.

(** [p[i]] for a pointer [p] into an object: [before] holds the bytes of
    the object that lie before [p], the nearest first, and a negative [i]
    reads them. *)
Definition load_inside (before p : Echo.block) (i : Z) : option ascii :=
  if i <? 0 then Echo.load before (- i - 1) else Echo.load p i.

(** [base64_decode(input)] of server.c for an [input] that points into an
    object, as [msg.content] does.  The reads of [input[input_len - 1]] and
    [input[input_len - 2]] fall before [input] when the string has fewer
    than two characters; the loop reads at [input] and after it only. *)
Definition base64_decode_inside (before input : Echo.block) : option Echo.block :=
  Echo.bind (Echo.strlen input) (fun input_len =>
  let output_len := to_size_t (input_len / 4 * 3) in
  Echo.bind (load_inside before input (input_len - 1)) (fun last =>
  let output_len :=
    if Ascii.eqb last PAD then to_size_t (output_len - 1) else output_len in
  Echo.bind (load_inside before input (input_len - 2)) (fun before_last =>
  let output_len :=
    if Ascii.eqb before_last PAD then to_size_t (output_len - 1) else output_len in
  let output := Echo.malloc (to_size_t (output_len + 1)) in
  Echo.bind (Echo.decode_loop (Z.to_nat input_len) input input_len output_len 0 output)
    (fun output => Echo.store output output_len NUL)))).

(** The bytes of [msg] that lie before [msg.content], the nearest first:
    those of [msg.type]. *)
Definition before_content (msg : Message) : Echo.block :=
  rev (map Some (int_bytes (type msg))).

(** The branch [msg.type == TYPE_DATA], the same in [handle_tcp_client] and
    in [handle_udp_message]: [msg.content] is printed, decoded with
    [base64_decode(msg.content)], and the result is printed. *)
Definition handle_data (msg : Message) : option (list event) :=
  match read_string (content msg) with
  | None => None
  | Some encoded =>
      match base64_decode_inside (before_content msg) (content msg) with
      | None => None
      | Some decoded =>
          match read_string decoded with
          | None => None
          | Some text => Some [Printed encoded; Printed text; Sent ack_message]
          end
      end
  end.

(** What one call of [recv] or [recvfrom] gives. *)
Inductive received : Type :=
| Data (msg : Message)   (* [bytes_received > 0] *)
| NoData.                (* [bytes_received <= 0] *)

(** [handle_tcp_client] from its loop on, against the results of its calls
    of [recv], each given as the structure [msg] after the call (a call
    that returns a part of a structure leaves the rest of [msg] as it
    was); with no result left the handler waits in [recv]. *)
Fixpoint handle_tcp_client (inputs : list received) : option (list event) :=
  match inputs with
  | [] => Some []
  | NoData :: _ => Some [Closed]
  | Data msg :: rest =>
      if type msg =? TYPE_DATA then
        match handle_data msg with
        | None => None
        | Some ev =>
            match handle_tcp_client rest with
            | None => None
            | Some ev' => Some (ev ++ ev')
            end
        end
      else if type msg =? TYPE_TERM then Some [Closed]
      else handle_tcp_client rest
  end.

(** [handle_udp_message] after its call of [recvfrom]. *)
Definition handle_udp_message (input : received) : option (list event) :=
  match input with
  | NoData => Some []
  | Data msg => if type msg =? TYPE_DATA then handle_data msg else Some []
  end.

End Wire.

(** ** Notions of the statements *)

(** *** On client.cpp *)

(** Membership in the 64-character alphabet. *)
Definition in_alphabet (c : ascii) : bool := existsb (Ascii.eqb c) Client.B64.

(** The number of padding characters after [n] input bytes. *)
Definition pad_count (n : nat) : nat :=
  match (n mod 3)%nat with
  | 0%nat => 0%nat
  | 1%nat => 2%nat
  | _ => 1%nat
  end.

(** A character that [b64_decode] rejects: its lookup in [REV] is 255. *)
Definition rejected (c : ascii) : bool := negb (in_alphabet c || Ascii.eqb c PAD).

(** The wording of the specification: a ['='] that is followed, somewhere
    later in the text, by a character other than ['=']. *)
Fixpoint non_trailing_pad (text : bytes) : bool :=
  match text with
  | [] => false
  | c :: rest =>
      (Ascii.eqb c PAD && existsb (fun x => negb (Ascii.eqb x PAD)) rest)
      || non_trailing_pad rest
  end.

(** The three fields of the header of a datagram as unsigned 32-bit
    numbers: type, declared topic length, declared payload length. *)
Definition header_fields (data : bytes) : option (Z * Z * Z) :=
  match data with
  | t0 :: t1 :: t2 :: t3 :: l0 :: l1 :: l2 :: l3 :: p0 :: p1 :: p2 :: p3 :: _ =>
      Some (Client.ntohl t0 t1 t2 t3, Client.ntohl l0 l1 l2 l3,
            Client.ntohl p0 p1 p2 p3)
  | _ => None
  end.

(** *** On server.cpp *)

(** The snapshot of the specification, read off the test of the PUBLISH
    loop: the sockets of the entries that are subscribed to topic [t]. *)
Definition subscribers_of (t : bytes) (clients : list Broker.ClientInfo)
    : list Broker.SOCKET :=
  map Broker.sock
    (filter (fun c => Broker.subscribed c && Broker.bytes_eqb (Broker.topic c) t)
            clients).

(** A [struct Message] that holds a type, a topic and a payload: topic and
    payload are copied into the zeroed arrays of the structure. *)
Definition frame (type : Z) (topic payload : bytes) : Broker.Message :=
  {| Broker.msg_type := type;
     Broker.msg_topic :=
       firstn Broker.TOPIC_LEN (topic ++ repeat NUL Broker.TOPIC_LEN);
     Broker.payload_len := Z.of_nat (length payload);
     Broker.content :=
       firstn Broker.MSG_LEN (payload ++ repeat NUL Broker.MSG_LEN) |}.

(** The sockets written to while [clients_mtx] is held ([held] tells whether
    it is held at the start of the trace). *)
Fixpoint sends_under_lock (held : bool) (tr : list Broker.event)
    : list Broker.SOCKET :=
  match tr with
  | [] => []
  | Broker.Lock :: tr' => sends_under_lock true tr'
  | Broker.Unlock :: tr' => sends_under_lock false tr'
  | Broker.Send s _ :: tr' =>
      if held then s :: sends_under_lock held tr' else sends_under_lock held tr'
  | Broker.Close _ :: tr' => sends_under_lock held tr'
  end.

(** The sockets written to while [clients_mtx] is not held. *)
Fixpoint sends_without_lock (held : bool) (tr : list Broker.event)
    : list Broker.SOCKET :=
  match tr with
  | [] => []
  | Broker.Lock :: tr' => sends_without_lock true tr'
  | Broker.Unlock :: tr' => sends_without_lock false tr'
  | Broker.Send s _ :: tr' =>
      if held then sends_without_lock held tr' else s :: sends_without_lock held tr'
  | Broker.Close _ :: tr' => sends_without_lock held tr'
  end.

(** *** On the echo variant *)

(** The four characters that the first loop of [base64_encode] writes for
    the octets [a], [b], [c]. *)
Definition raw_group (a b c : Z) : bytes :=
  let triple := to_uint32 (Z.shiftl a 16 + Z.shiftl b 8 + c) in
  [ Echo.base64_at (Z.land (Z.shiftr triple (3 * 6)) 63);
    Echo.base64_at (Z.land (Z.shiftr triple (2 * 6)) 63);
    Echo.base64_at (Z.land (Z.shiftr triple (1 * 6)) 63);
    Echo.base64_at (Z.land (Z.shiftr triple (0 * 6)) 63) ].

(** What the first loop writes for a whole input, before the padding. *)
Fixpoint raw_encode (s : bytes) : bytes :=
  match s with
  | [] => []
  | [a] => raw_group (uchar a) 0 0
  | [a; b] => raw_group (uchar a) (uchar b) 0
  | a :: b :: c :: rest => raw_group (uchar a) (uchar b) (uchar c) ++ raw_encode rest
  end.

(** ** Notions of the further properties *)

(** *** On the TCP helpers of client.cpp *)

(** No call of [recv] fails with an error other than [EINTR]. *)
Definition no_recv_failure (sch : list Stream.recv_outcome) : Prop :=
  Forall (fun o => o <> Stream.RecvFailed) sch.

(** No call of [send] fails with an error other than [EINTR]. *)
Definition no_send_failure (calls : list Stream.send_outcome) : Prop :=
  Forall (fun o => o <> Stream.SendFailed) calls.

(** *** On the handlers of server.cpp *)

(** The discipline of [clients_mtx] along a trace: it is taken only when
    free, released only when held, and free at the end. *)
Fixpoint lock_discipline (held : bool) (tr : list Broker.event) : bool :=
  match tr with
  | [] => negb held
  | Broker.Lock :: tr' => negb held && lock_discipline true tr'
  | Broker.Unlock :: tr' => held && lock_discipline false tr'
  | _ :: tr' => lock_discipline held tr'
  end.

(** The number of acknowledgements that a trace sends to socket [s]. *)
Fixpoint acks_to (s : Broker.SOCKET) (tr : list Broker.event) : nat :=
  match tr with
  | [] => 0
  | Broker.Send to m :: tr' =>
      (if (to =? s) && (Broker.msg_type m =? Broker.TYPE_ACK) then 1 else 0)
      + acks_to s tr'
  | _ :: tr' => acks_to s tr'
  end.

(** The number of SUBSCRIBE and PUBLISH frames that a handler reads before
    it returns: those before the first TERMINATE frame or failed [recv]. *)
Fixpoint requests_read (inputs : list Broker.received) : nat :=
  match inputs with
  | [] => 0
  | Broker.NoData :: _ => 0
  | Broker.Data msg :: rest =>
      if Broker.msg_type msg =? Broker.TYPE_TERM then 0
      else (if (Broker.msg_type msg =? Broker.TYPE_SUBSCRIBE)
               || (Broker.msg_type msg =? Broker.TYPE_PUBLISH)
            then 1 else 0)
           + requests_read rest
  end.

(** The number of frames other than acknowledgements that a trace sends to
    socket [s]. *)
Fixpoint frames_to (s : Broker.SOCKET) (tr : list Broker.event) : nat :=
  match tr with
  | [] => 0
  | Broker.Send to m :: tr' =>
      (if (to =? s) && negb (Broker.msg_type m =? Broker.TYPE_ACK) then 1 else 0)
      + frames_to s tr'
  | _ :: tr' => frames_to s tr'
  end.

(** The string at [msg.topic] ends inside the structure: [topic],
    [payload_len] or [content] holds a NUL. *)
Definition topic_terminated (msg : Broker.Message) : Prop :=
  In NUL (Broker.from_topic msg).

(** An entry of [clients] before and after a handler for socket [s] ran:
    same socket, untouched when it belongs to another socket, and still
    subscribed when it was. *)
Definition entry_kept (s : Broker.SOCKET) (c c' : Broker.ClientInfo) : Prop :=
  Broker.sock c' = Broker.sock c
  /\ (Broker.sock c <> s -> c' = c)
  /\ (Broker.subscribed c = true -> Broker.subscribed c' = true).

(** *** On the subscriber of client.cpp *)

(** The bytes of a sequence of packets (type, topic, payload) written one
    after the other with [send_packet_tcp]. *)
Definition packets_on_wire (packets : list (Z * bytes * bytes)) : bytes :=
  flat_map (fun p => Client.send_packet_tcp (fst (fst p)) (snd (fst p)) (snd p))
           packets.

(** A packet whose type fits an [int] and whose lengths fit the header. *)
Definition fits_header (p : Z * bytes * bytes) : Prop :=
  - 2 ^ 31 <= fst (fst p) < 2 ^ 31
  /\ Z.of_nat (length (snd (fst p))) < 2 ^ 31
  /\ Z.of_nat (length (snd p)) < 2 ^ 31.

(** *** On the messages of the echo variant *)

(** What the server writes and sends for a message that carries the
    encoding of [s]. *)
Definition echo_of (s : bytes) : list Wire.event :=
  [Wire.Printed (Client.b64_encode s); Wire.Printed s; Wire.Sent Wire.ack_message].

(** A line that [send_message] can carry: it holds no NUL, and its
    encoding and the terminating NUL fit [content]. *)
Definition sendable (s : bytes) : Prop :=
  ~ In NUL s /\ (length s <= 765)%nat.

(** ** Tactics *)

(** Linear arithmetic with division and remainder by constants. *)
Ltac div_lia := Z.div_mod_to_equations; lia.

(** ** Arithmetic on bit fields *)

Lemma testbit_small y k n : 0 <= y < 2 ^ k -> k <= n -> Z.testbit y n = false.
Proof.
  intros Hy Hn. destruct (Z.eq_dec y 0) as [->|Hne]; [apply Z.bits_0|].
  assert (0 <= k).
  { destruct (Z.lt_ge_cases k 0); [|assumption].
    rewrite Z.pow_neg_r in Hy by assumption. lia. }
  apply Z.bits_above_log2; [lia|].
  apply Z.lt_le_trans with k; [|assumption].
  apply Z.log2_lt_pow2; lia.
Qed.

Lemma lor_shiftl_add x y k :
  0 <= k -> 0 <= y < 2 ^ k -> Z.lor (Z.shiftl x k) y = x * 2 ^ k + y.
Proof.
  intros Hk Hy. rewrite <- Z.shiftl_mul_pow2 by assumption.
  assert (Hd : Z.land (Z.shiftl x k) y = 0).
  { apply Z.bits_inj'; intros n Hn. rewrite Z.land_spec, Z.bits_0.
    destruct (Z.lt_ge_cases n k).
    - rewrite Z.shiftl_spec_low by assumption. reflexivity.
    - rewrite (testbit_small y k n) by assumption. apply andb_false_r. }
  rewrite <- Z.lxor_lor by assumption. symmetry.
  apply Z.add_nocarry_lxor. assumption.
Qed.

Lemma uchar_range c : 0 <= uchar c < 256.
Proof.
  unfold uchar. pose proof (N_ascii_bounded c). lia.
Qed.

Lemma to_char_uchar c : to_char (uchar c) = c.
Proof.
  unfold to_char. rewrite Z.mod_small by apply uchar_range.
  unfold uchar. rewrite N2Z.id. apply ascii_N_embedding.
Qed.

Lemma uchar_to_char z : 0 <= z < 256 -> uchar (to_char z) = z.
Proof.
  intros Hz. unfold uchar, to_char. rewrite Z.mod_small by assumption.
  rewrite N_ascii_embedding by lia. lia.
Qed.

Lemma lor_disjoint_add x y k :
  0 <= k -> x mod 2 ^ k = 0 -> 0 <= y < 2 ^ k -> Z.lor x y = x + y.
Proof.
  intros Hk Hx Hy.
  assert (Hp : 0 < 2 ^ k) by (apply Z.pow_pos_nonneg; lia).
  assert (E : x = Z.shiftl (x / 2 ^ k) k).
  { rewrite Z.shiftl_mul_pow2 by assumption.
    pose proof (Z.div_mod x (2 ^ k)). lia. }
  rewrite E at 1. rewrite lor_shiftl_add by assumption.
  pose proof (Z.div_mod x (2 ^ k)). lia.
Qed.

Lemma land_63 x : Z.land x 63 = x mod 64.
Proof. change 63 with (Z.ones 6). rewrite Z.land_ones by lia. reflexivity. Qed.

Lemma land_255 x : Z.land x 255 = x mod 256.
Proof. change 255 with (Z.ones 8). rewrite Z.land_ones by lia. reflexivity. Qed.

(** The 24-bit value of a group, as a sum. *)
Lemma group_value a b c :
  0 <= a < 256 -> 0 <= b < 256 -> 0 <= c < 256 ->
  Z.lor (Z.lor (Z.shiftl a 16) (Z.shiftl b 8)) c = a * 65536 + b * 256 + c.
Proof.
  intros Ha Hb Hc.
  rewrite (Z.shiftl_mul_pow2 b 8) by lia.
  rewrite (lor_shiftl_add a (b * 2 ^ 8) 16) by lia.
  rewrite (lor_disjoint_add _ c 8) by (try div_lia; lia).
  lia.
Qed.

Lemma sextet_value c0 c1 c2 c3 :
  0 <= c1 < 64 -> 0 <= c2 < 64 -> 0 <= c3 < 64 ->
  Z.lor (Z.shiftl c0 18) (Z.shiftl c1 12) = c0 * 262144 + c1 * 4096 /\
  Z.lor (Z.lor (Z.shiftl c0 18) (Z.shiftl c1 12)) (Z.shiftl c2 6)
    = c0 * 262144 + c1 * 4096 + c2 * 64 /\
  Z.lor (Z.lor (Z.lor (Z.shiftl c0 18) (Z.shiftl c1 12)) (Z.shiftl c2 6)) c3
    = c0 * 262144 + c1 * 4096 + c2 * 64 + c3.
Proof.
  intros H1 H2 H3.
  assert (E1 : Z.lor (Z.shiftl c0 18) (Z.shiftl c1 12) = c0 * 262144 + c1 * 4096).
  { rewrite (Z.shiftl_mul_pow2 c1 12) by lia.
    rewrite (lor_shiftl_add c0 (c1 * 2 ^ 12) 18) by lia. lia. }
  assert (E2 : Z.lor (c0 * 262144 + c1 * 4096) (Z.shiftl c2 6)
               = c0 * 262144 + c1 * 4096 + c2 * 64).
  { rewrite (Z.shiftl_mul_pow2 c2 6) by lia.
    rewrite (lor_disjoint_add _ (c2 * 2 ^ 6) 12) by (try div_lia; lia). lia. }
  rewrite E1, E2. repeat split.
  rewrite (lor_disjoint_add _ c3 6) by (try div_lia; lia). lia.
Qed.

(** ** The alphabet and its reverse table *)

Import Client.

Lemma in_alphabet_In c : in_alphabet c = true <-> In c B64.
Proof.
  unfold in_alphabet. rewrite existsb_exists. split.
  - intros [x [Hx He]]. apply Ascii.eqb_eq in He. subst. assumption.
  - intros H. exists c. split; [assumption|apply Ascii.eqb_refl].
Qed.

Lemma B64_length : length B64 = 64%nat.
Proof. reflexivity. Qed.

Lemma B64_at_In i : 0 <= i < 64 -> In (B64_at i) B64.
Proof.
  intros Hi. unfold B64_at. apply nth_In. rewrite B64_length. lia.
Qed.

Lemma In_B64_at c : In c B64 -> exists i, 0 <= i < 64 /\ B64_at i = c.
Proof.
  intros H. destruct (In_nth _ _ NUL H) as [k [Hk E]].
  rewrite B64_length in Hk. exists (Z.of_nat k). split; [lia|].
  unfold B64_at. rewrite Nat2Z.id. assumption.
Qed.

Lemma PAD_not_in_B64 : ~ In PAD B64.
Proof.
  intros H. apply in_alphabet_In in H. discriminate H.
Qed.

(** [REV] inverts [B64] on the 64 indices. *)
Lemma REV_B64_at i : 0 <= i < 64 -> REV (B64_at i) = i.
Proof.
  intros Hi.
  assert (H : forallb (fun k => REV (B64_at (Z.of_nat k)) =? Z.of_nat k) (seq 0 64) = true)
    by (vm_compute; reflexivity).
  rewrite forallb_forall in H.
  specialize (H (Z.to_nat i)). rewrite Z2Nat.id in H by lia.
  apply Z.eqb_eq, H, in_seq. lia.
Qed.

Lemma REV_PAD : REV PAD = 254.
Proof. reflexivity. Qed.

(** What [REV] holds for each of the 256 characters. *)
Lemma REV_cases c :
  REV c = if in_alphabet c then REV c
          else if Ascii.eqb c PAD then 254 else 255.
Proof.
  destruct c as [[] [] [] [] [] [] [] []]; vm_compute; reflexivity.
Qed.

Lemma REV_alphabet_range c : in_alphabet c = true -> 0 <= REV c < 64.
Proof.
  intros H. apply in_alphabet_In, In_B64_at in H. destruct H as [i [Hi <-]].
  rewrite REV_B64_at; assumption.
Qed.

(** A lookup is 255 exactly for the characters that are neither in the
    alphabet nor the padding character. *)
Lemma REV_255 c : (REV c =? 255) = negb (in_alphabet c || Ascii.eqb c PAD).
Proof.
  rewrite REV_cases. destruct (in_alphabet c) eqn:Ha.
  - pose proof (REV_alphabet_range c Ha).
    change (negb (true || Ascii.eqb c PAD)) with false. apply Z.eqb_neq. lia.
  - destruct (Ascii.eqb c PAD); reflexivity.
Qed.

(** ** Groups of three bytes and of four characters *)

(** Induction that follows the stride of the loop of [b64_encode]. *)
Lemma bytes_ind3 (P : bytes -> Prop) :
  P [] -> (forall a, P [a]) -> (forall a b, P [a; b]) ->
  (forall a b c rest, P rest -> P (a :: b :: c :: rest)) ->
  forall d, P d.
Proof.
  intros H0 H1 H2 H3.
  fix IH 1.
  intros [|a [|b [|c rest]]];
    [apply H0 | apply H1 | apply H2 | apply H3; apply IH].
Qed.

(** Induction that follows the stride of the loop of [b64_decode]. *)
Lemma bytes_ind4 (P : bytes -> Prop) :
  P [] -> (forall a, P [a]) -> (forall a b, P [a; b]) ->
  (forall a b c, P [a; b; c]) ->
  (forall a b c d rest, P rest -> P (a :: b :: c :: d :: rest)) ->
  forall l, P l.
Proof.
  intros H0 H1 H2 H3 H4.
  fix IH 1.
  intros [|a [|b [|c [|d rest]]]];
    [apply H0 | apply H1 | apply H2 | apply H3 | apply H4; apply IH].
Qed.

(** The four sextets of a full group. *)
Lemma encode_group_3 d0 d1 d2 :
  encode_group d0 (Some d1) (Some d2) =
  [ B64_at (uchar d0 / 4);
    B64_at (uchar d0 mod 4 * 16 + uchar d1 / 16);
    B64_at (uchar d1 mod 16 * 4 + uchar d2 / 64);
    B64_at (uchar d2 mod 64) ].
Proof.
  pose proof (uchar_range d0). pose proof (uchar_range d1).
  pose proof (uchar_range d2).
  unfold encode_group. rewrite group_value by assumption.
  rewrite !land_63, !Z.shiftr_div_pow2 by lia.
  repeat (f_equal; try div_lia).
Qed.

Lemma encode_group_2 d0 d1 :
  encode_group d0 (Some d1) None =
  [ B64_at (uchar d0 / 4);
    B64_at (uchar d0 mod 4 * 16 + uchar d1 / 16);
    B64_at (uchar d1 mod 16 * 4);
    PAD ].
Proof.
  pose proof (uchar_range d0). pose proof (uchar_range d1).
  unfold encode_group.
  rewrite (Z.shiftl_mul_pow2 (uchar d1) 8) by lia.
  rewrite (lor_shiftl_add (uchar d0) (uchar d1 * 2 ^ 8) 16) by lia.
  rewrite !land_63, !Z.shiftr_div_pow2 by lia.
  repeat (f_equal; try div_lia).
Qed.

Lemma encode_group_1 d0 :
  encode_group d0 None None =
  [ B64_at (uchar d0 / 4); B64_at (uchar d0 mod 4 * 16); PAD; PAD ].
Proof.
  pose proof (uchar_range d0).
  unfold encode_group.
  rewrite (Z.shiftl_mul_pow2 (uchar d0) 16) by lia.
  rewrite !land_63, !Z.shiftr_div_pow2 by lia.
  repeat (f_equal; try div_lia).
Qed.

(** Decoding four characters of the alphabet. *)
Lemma decode_group_4 s0 s1 s2 s3 :
  0 <= s0 < 64 -> 0 <= s1 < 64 -> 0 <= s2 < 64 -> 0 <= s3 < 64 ->
  decode_group (B64_at s0) (B64_at s1) (B64_at s2) (B64_at s3) =
  Some [ to_char (s0 * 4 + s1 / 16);
         to_char (s1 mod 16 * 16 + s2 / 4);
         to_char (s2 mod 4 * 64 + s3) ].
Proof.
  intros H0 H1 H2 H3. unfold decode_group.
  rewrite !REV_B64_at by assumption.
  destruct (sextet_value s0 s1 s2 s3 H1 H2 H3) as [E1 [E2 E3]].
  rewrite E3, E2, E1.
  replace (s0 =? 255) with false by (symmetry; apply Z.eqb_neq; lia).
  replace (s1 =? 255) with false by (symmetry; apply Z.eqb_neq; lia).
  replace (s2 =? 255) with false by (symmetry; apply Z.eqb_neq; lia).
  replace (s3 =? 255) with false by (symmetry; apply Z.eqb_neq; lia).
  replace (s2 =? 254) with false by (symmetry; apply Z.eqb_neq; lia).
  replace (s3 =? 254) with false by (symmetry; apply Z.eqb_neq; lia).
  cbn [orb negb app]. rewrite !land_255, !Z.shiftr_div_pow2 by lia.
  repeat (f_equal; try div_lia).
Qed.

Lemma decode_group_3 s0 s1 s2 :
  0 <= s0 < 64 -> 0 <= s1 < 64 -> 0 <= s2 < 64 ->
  decode_group (B64_at s0) (B64_at s1) (B64_at s2) PAD =
  Some [ to_char (s0 * 4 + s1 / 16); to_char (s1 mod 16 * 16 + s2 / 4) ].
Proof.
  intros H0 H1 H2. unfold decode_group.
  rewrite !REV_B64_at by assumption. rewrite REV_PAD.
  destruct (sextet_value s0 s1 s2 0 H1 H2 ltac:(lia)) as [E1 [E2 _]].
  rewrite E2, E1.
  replace (s0 =? 255) with false by (symmetry; apply Z.eqb_neq; lia).
  replace (s1 =? 255) with false by (symmetry; apply Z.eqb_neq; lia).
  replace (s2 =? 255) with false by (symmetry; apply Z.eqb_neq; lia).
  replace (s2 =? 254) with false by (symmetry; apply Z.eqb_neq; lia).
  cbn [orb negb app Z.eqb Pos.eqb]. rewrite !land_255, !Z.shiftr_div_pow2 by lia.
  repeat (f_equal; try div_lia).
Qed.

Lemma decode_group_2 s0 s1 i3 :
  0 <= s0 < 64 -> 0 <= s1 < 64 -> REV i3 <> 255 ->
  decode_group (B64_at s0) (B64_at s1) PAD i3 =
  Some [ to_char (s0 * 4 + s1 / 16) ].
Proof.
  intros H0 H1 H3. unfold decode_group.
  rewrite !REV_B64_at by assumption. rewrite REV_PAD.
  destruct (sextet_value s0 s1 0 0 H1 ltac:(lia) ltac:(lia)) as [E1 _].
  rewrite E1.
  replace (s0 =? 255) with false by (symmetry; apply Z.eqb_neq; lia).
  replace (s1 =? 255) with false by (symmetry; apply Z.eqb_neq; lia).
  replace (REV i3 =? 255) with false by (symmetry; apply Z.eqb_neq; assumption).
  cbn [orb negb app Z.eqb Pos.eqb]. rewrite !land_255, !Z.shiftr_div_pow2 by lia.
  repeat (f_equal; try div_lia).
Qed.

Lemma to_char_eq z c : z = uchar c -> to_char z = c.
Proof. intros ->. apply to_char_uchar. Qed.

(** One group round trip, for each of the three shapes of a group. *)
Lemma group_roundtrip_3 d0 d1 d2 rest :
  decode_loop (encode_group d0 (Some d1) (Some d2) ++ rest) =
  match decode_loop rest with
  | None => None
  | Some out => Some ([d0; d1; d2] ++ out)
  end.
Proof.
  pose proof (uchar_range d0). pose proof (uchar_range d1).
  pose proof (uchar_range d2).
  rewrite encode_group_3. cbn [app decode_loop].
  rewrite decode_group_4 by div_lia.
  rewrite (to_char_eq _ d0), (to_char_eq _ d1), (to_char_eq _ d2) by div_lia.
  reflexivity.
Qed.

Lemma group_roundtrip_2 d0 d1 :
  decode_loop (encode_group d0 (Some d1) None) = Some [d0; d1].
Proof.
  pose proof (uchar_range d0). pose proof (uchar_range d1).
  rewrite encode_group_2. cbn [app decode_loop].
  rewrite decode_group_3 by div_lia.
  rewrite (to_char_eq _ d0), (to_char_eq _ d1) by div_lia. reflexivity.
Qed.

Lemma group_roundtrip_1 d0 :
  decode_loop (encode_group d0 None None) = Some [d0].
Proof.
  pose proof (uchar_range d0).
  rewrite encode_group_1. cbn [app decode_loop].
  rewrite decode_group_2 by (try div_lia; rewrite REV_PAD; lia).
  rewrite (to_char_eq _ d0) by div_lia. reflexivity.
Qed.

Lemma b64_encode_length d :
  Z.of_nat (length (b64_encode d)) = 4 * ((Z.of_nat (length d) + 2) / 3).
Proof.
  induction d as [|a|a b|a b c rest IH] using bytes_ind3;
    try reflexivity.
  change (b64_encode (a :: b :: c :: rest))
    with (encode_group a (Some b) (Some c) ++ b64_encode rest).
  rewrite length_app. cbn [encode_group length].
  rewrite !Nat2Z.inj_add, !Nat2Z.inj_succ, IH. cbn [Z.of_nat]. div_lia.
Qed.

Lemma decode_loop_encode d : decode_loop (b64_encode d) = Some d.
Proof.
  induction d as [|a|a b|a b c rest IH] using bytes_ind3.
  - reflexivity.
  - apply group_roundtrip_1.
  - apply group_roundtrip_2.
  - change (b64_encode (a :: b :: c :: rest))
      with (encode_group a (Some b) (Some c) ++ b64_encode rest).
    rewrite group_roundtrip_3, IH. reflexivity.
Qed.

(** ** Claims on the Base64 transcoder of client.cpp *)

(** C1. Round trip: for every byte sequence [x], the empty one included,
    [b64_decode] succeeds on [b64_encode x] and yields exactly [x]. *)
Theorem C1_b64_roundtrip : forall x : bytes, b64_decode (b64_encode x) = Some x.
Proof.
  intros x. unfold b64_decode.
  rewrite b64_encode_length.
  replace (4 * ((Z.of_nat (length x) + 2) / 3) mod 4 =? 0) with true
    by (symmetry; apply Z.eqb_eq; div_lia).
  apply decode_loop_encode.
Qed.

Lemma pad_count_step n : pad_count (S (S (S n))) = pad_count n.
Proof.
  unfold pad_count. replace (S (S (S n))) with (n + 1 * 3)%nat by lia.
  rewrite Nat.Div0.mod_add. reflexivity.
Qed.

Lemma B64_at_not_PAD i : 0 <= i < 64 -> B64_at i <> PAD.
Proof.
  intros Hi E. apply PAD_not_in_B64. rewrite <- E. apply B64_at_In, Hi.
Qed.

Lemma b64_encode_step a b c rest :
  b64_encode (a :: b :: c :: rest) =
  encode_group a (Some b) (Some c) ++ b64_encode rest.
Proof. reflexivity. Qed.

Lemma b64_encode_alphabet d :
  Forall (fun c => In c B64 \/ c = PAD) (b64_encode d).
Proof.
  induction d as [|a|a b|a b c rest IH] using bytes_ind3.
  - apply Forall_nil.
  - pose proof (uchar_range a).
    change (b64_encode [a]) with (encode_group a None None).
    rewrite encode_group_1.
    repeat (apply Forall_cons; [left; apply B64_at_In; div_lia|]).
    repeat (apply Forall_cons; [right; reflexivity|]). apply Forall_nil.
  - pose proof (uchar_range a). pose proof (uchar_range b).
    change (b64_encode [a; b]) with (encode_group a (Some b) None).
    rewrite encode_group_2.
    repeat (apply Forall_cons; [left; apply B64_at_In; div_lia|]).
    repeat (apply Forall_cons; [right; reflexivity|]). apply Forall_nil.
  - pose proof (uchar_range a). pose proof (uchar_range b).
    pose proof (uchar_range c).
    rewrite b64_encode_step, encode_group_3. cbn [app].
    do 4 (apply Forall_cons; [left; apply B64_at_In; div_lia|]). exact IH.
Qed.

Lemma pad_count_le (d : bytes) : (pad_count (length d) <= length (b64_encode d))%nat.
Proof.
  induction d as [|a|a b|a b c rest IH] using bytes_ind3.
  - apply Nat.le_refl.
  - change (2 <= 4)%nat. lia.
  - change (1 <= 4)%nat. lia.
  - rewrite b64_encode_step, length_app.
    change (length (a :: b :: c :: rest)) with (S (S (S (length rest)))).
    rewrite pad_count_step. lia.
Qed.

Lemma nth_group_tail (c0 c1 c2 c3 : ascii) rest i :
  nth (4 + i) (c0 :: c1 :: c2 :: c3 :: rest) NUL = nth i rest NUL.
Proof. reflexivity. Qed.

Lemma b64_encode_padding (d : bytes) i :
  (i < length (b64_encode d))%nat ->
  nth i (b64_encode d) NUL = PAD <->
  (length (b64_encode d) - pad_count (length d) <= i)%nat.
Proof.
  revert i. induction d as [|a|a b|a b c rest IH] using bytes_ind3; intros i Hi.
  - cbn in Hi. lia.
  - pose proof (uchar_range a).
    assert (N0 := B64_at_not_PAD (uchar a / 4) ltac:(div_lia)).
    assert (N1 := B64_at_not_PAD (uchar a mod 4 * 16) ltac:(div_lia)).
    change (b64_encode [a]) with (encode_group a None None) in *.
    rewrite encode_group_1 in *.
    change (pad_count (length [a])) with 2%nat.
    cbn [length] in *.
    destruct i as [|[|[|[|i]]]]; cbn [nth]; split; intros; try lia;
      try reflexivity; contradiction.
  - pose proof (uchar_range a). pose proof (uchar_range b).
    assert (N0 := B64_at_not_PAD (uchar a / 4) ltac:(div_lia)).
    assert (N1 := B64_at_not_PAD (uchar a mod 4 * 16 + uchar b / 16) ltac:(div_lia)).
    assert (N2 := B64_at_not_PAD (uchar b mod 16 * 4) ltac:(div_lia)).
    change (b64_encode [a; b]) with (encode_group a (Some b) None) in *.
    rewrite encode_group_2 in *.
    change (pad_count (length [a; b])) with 1%nat.
    cbn [length] in *.
    destruct i as [|[|[|[|i]]]]; cbn [nth]; split; intros; try lia;
      try reflexivity; contradiction.
  - pose proof (uchar_range a). pose proof (uchar_range b).
    pose proof (uchar_range c). pose proof (pad_count_le rest) as Hle.
    assert (N0 := B64_at_not_PAD (uchar a / 4) ltac:(div_lia)).
    assert (N1 := B64_at_not_PAD (uchar a mod 4 * 16 + uchar b / 16) ltac:(div_lia)).
    assert (N2 := B64_at_not_PAD (uchar b mod 16 * 4 + uchar c / 64) ltac:(div_lia)).
    assert (N3 := B64_at_not_PAD (uchar c mod 64) ltac:(div_lia)).
    rewrite b64_encode_step, encode_group_3 in Hi |- *.
    change (length (a :: b :: c :: rest)) with (S (S (S (length rest)))).
    rewrite pad_count_step.
    cbn [app length] in Hi |- *.
    destruct i as [|[|[|[|i]]]];
      try (cbn [nth]; split; intros; [contradiction | lia]).
    rewrite (nth_group_tail _ _ _ _ _ i), (IH i) by lia. lia.
Qed.

(** C9. For an input of [n] bytes the encoder emits [4 * ceil(n/3)]
    characters ([k] below is the ceiling of [n/3]); every one is a character
    of the 64-character alphabet or ['=']; and ['='] stands exactly at the
    last [pad_count n] positions, which are two when [n mod 3 = 1], one when
    [n mod 3 = 2] and none when [n mod 3 = 0]. *)
Theorem C9_b64_encode_shape : forall x : bytes,
  let n := length x in
  let out := b64_encode x in
  (exists k : Z, 3 * (k - 1) < Z.of_nat n <= 3 * k /\ Z.of_nat (length out) = 4 * k)
  /\ Forall (fun c => In c B64 \/ c = PAD) out
  /\ (forall i, (i < length out)%nat ->
        (nth i out NUL = PAD <-> (length out - pad_count n <= i)%nat))
  /\ pad_count n = (if (n mod 3 =? 1)%nat then 2 else if (n mod 3 =? 2)%nat then 1 else 0)%nat
  /\ (pad_count n <= 2)%nat.
Proof.
  intros x n out. subst n out. repeat split.
  - exists ((Z.of_nat (length x) + 2) / 3). split; [div_lia|].
    apply b64_encode_length.
  - apply b64_encode_alphabet.
  - apply b64_encode_padding; assumption.
  - apply b64_encode_padding; assumption.
  - unfold pad_count. pose proof (Nat.mod_upper_bound (length x) 3 ltac:(lia)).
    destruct (length x mod 3)%nat as [|[|[|m]]]; try reflexivity. lia.
  - unfold pad_count. destruct (length x mod 3)%nat as [|[|m]]; lia.
Qed.

Lemma rejected_spec c : rejected c = true <-> ~ In c B64 /\ c <> PAD.
Proof.
  unfold rejected. rewrite negb_true_iff, orb_false_iff.
  rewrite <- in_alphabet_In, <- not_true_iff_false.
  split; intros [Ha Hp]; split; try assumption.
  - intros ->. rewrite Ascii.eqb_refl in Hp. discriminate.
  - destruct (Ascii.eqb_spec c PAD); [contradiction|reflexivity].
Qed.

Lemma decode_group_None i0 i1 i2 i3 :
  decode_group i0 i1 i2 i3 = None <->
  rejected i0 || rejected i1 || rejected i2 || rejected i3 = true.
Proof.
  unfold decode_group, rejected. rewrite <- !REV_255.
  destruct ((REV i0 =? 255) || (REV i1 =? 255) || (REV i2 =? 255) || (REV i3 =? 255)).
  - tauto.
  - destruct (negb (REV i2 =? 254)), (negb (REV i3 =? 254));
      split; intros; discriminate.
Qed.

Lemma decode_loop_None (inp : bytes) :
  Z.of_nat (length inp) mod 4 = 0 ->
  decode_loop inp = None <-> existsb rejected inp = true.
Proof.
  induction inp as [|a|a b|a b c|a b c d rest IH] using bytes_ind4; intros Hlen.
  - split; intros; discriminate.
  - discriminate Hlen.
  - discriminate Hlen.
  - discriminate Hlen.
  - assert (Hrest : Z.of_nat (length rest) mod 4 = 0).
    { cbn [length] in Hlen. rewrite !Nat2Z.inj_succ in Hlen. div_lia. }
    specialize (IH Hrest).
    cbn [decode_loop existsb]. rewrite !orb_assoc.
    pose proof (decode_group_None a b c d) as Hg.
    destruct (decode_group a b c d) as [g|].
    + assert (Hf : rejected a || rejected b || rejected c || rejected d = false).
      { apply not_true_iff_false. intros E. apply Hg in E. discriminate. }
      rewrite Hf. cbn [orb]. rewrite <- IH.
      destruct (decode_loop rest); split; intros; try discriminate; reflexivity.
    + rewrite (proj1 Hg eq_refl). cbn [orb]. tauto.
Qed.

(** ** Claim C6: what [b64_decode] rejects *)

(** C6, as stated, fails: the text [=AAA] has a length that is a multiple of
    4, only characters of the alphabet or ['='], and a ['='] in a position
    that is not trailing; [b64_decode] accepts it and yields three bytes. *)
Lemma C6_counterexample :
  non_trailing_pad (lit "=AAA") = true /\
  Z.of_nat (length (lit "=AAA")) mod 4 = 0 /\
  existsb rejected (lit "=AAA") = false /\
  b64_decode (lit "=AAA") = Some [to_char 248; NUL; NUL].
Proof. vm_compute. repeat split; reflexivity. Qed.

(** C6, amended: [b64_decode] fails exactly when the length of the text is
    not a multiple of 4 or some character is neither in the 64-character
    alphabet nor ['=']; it succeeds otherwise, wherever the ['='] stand. *)
Theorem C6_b64_decode_rejects : forall text : bytes,
  b64_decode text = None <->
  (Z.of_nat (length text) mod 4 <> 0 \/
   exists c, In c text /\ ~ In c B64 /\ c <> PAD).
Proof.
  intros text. unfold b64_decode.
  destruct (Z.eqb_spec (Z.of_nat (length text) mod 4) 0) as [E|E]; cbn [negb].
  - rewrite (decode_loop_None text E), existsb_exists. split.
    + intros [c [Hin Hr]]. right. exists c. split; [assumption|].
      apply rejected_spec, Hr.
    + intros [Hne|[c [Hin Hr]]]; [contradiction|].
      exists c. split; [assumption|]. apply rejected_spec, Hr.
  - split; [intros _; left; assumption | reflexivity].
Qed.

(** ** The broker of server.cpp *)

Import Broker.

Lemma bytes_eqb_eq s t : bytes_eqb s t = true <-> s = t.
Proof.
  revert t. induction s as [|x s IH]; intros [|y t]; cbn [bytes_eqb];
    try (split; intros; congruence).
  rewrite andb_true_iff, IH, Ascii.eqb_eq. split.
  - intros [-> ->]. reflexivity.
  - intros E. injection E as -> ->. split; reflexivity.
Qed.

Lemma bytes_eqb_refl s : bytes_eqb s s = true.
Proof. apply bytes_eqb_eq. reflexivity. Qed.

Lemma publish_loop_sends msg clients :
  publish_loop msg clients =
  map (fun s => Send s msg) (subscribers_of (topic_string msg) clients).
Proof.
  unfold publish_loop, subscribers_of.
  induction clients as [|c clients IH]; [reflexivity|].
  cbn [flat_map filter].
  destruct (subscribed c && bytes_eqb (topic c) (topic_string msg));
    cbn [map app]; rewrite IH; reflexivity.
Qed.

(** The PUBLISH branch: one frame per subscribed entry, then one
    acknowledgement to the publisher; the vector [clients] is not changed.
    Every frame of the fan-out is [msg] itself. *)
Lemma dispatch_publish clientSock msg clients :
  msg_type msg = TYPE_PUBLISH ->
  dispatch clientSock msg clients =
  (clients,
   [Lock]
   ++ map (fun s => Send s msg) (subscribers_of (topic_string msg) clients)
   ++ [Send clientSock (make_ack msg); Unlock],
   Running).
Proof.
  intros E. unfold dispatch. rewrite E. cbn [Z.eqb TYPE_PUBLISH TYPE_SUBSCRIBE Pos.eqb].
  rewrite publish_loop_sends. reflexivity.
Qed.

Lemma dispatch_subscribe clientSock msg clients :
  msg_type msg = TYPE_SUBSCRIBE ->
  dispatch clientSock msg clients =
  (subscribe_loop clientSock msg clients,
   [Lock; Send clientSock (make_ack msg); Unlock],
   Running).
Proof.
  intros E. unfold dispatch. rewrite E. reflexivity.
Qed.

Lemma dispatch_term clientSock msg clients :
  msg_type msg = TYPE_TERM ->
  dispatch clientSock msg clients = (clients, [Close clientSock], Returned).
Proof.
  intros E. unfold dispatch. rewrite E. reflexivity.
Qed.

Lemma sends_under_lock_held_sends (targets : list SOCKET) msg tr :
  sends_under_lock true (map (fun s => Send s msg) targets ++ tr) =
  targets ++ sends_under_lock true tr.
Proof.
  induction targets as [|s targets IH]; [reflexivity|].
  cbn [map app sends_under_lock]. rewrite IH. reflexivity.
Qed.

Lemma sends_without_lock_held_sends (targets : list SOCKET) msg tr :
  sends_without_lock true (map (fun s => Send s msg) targets ++ tr) =
  sends_without_lock true tr.
Proof.
  induction targets as [|s targets IH]; [reflexivity|].
  cbn [map app sends_without_lock]. exact IH.
Qed.

(** A handler that is still running after [pre] goes on with what follows. *)
Lemma handle_client_app clientSock pre more clients :
  state (handle_client clientSock pre clients) = Running ->
  handle_client clientSock (pre ++ more) clients =
  let o1 := handle_client clientSock pre clients in
  let o2 := handle_client clientSock more (registry o1) in
  {| registry := registry o2; trace := trace o1 ++ trace o2;
     state := state o2; unread := unread o2 |}.
Proof.
  revert clients. induction pre as [|r pre IH]; intros clients Hrun.
  - cbn. destruct (handle_client clientSock more clients); reflexivity.
  - destruct r as [msg|]; [|discriminate Hrun].
    cbn [app handle_client] in Hrun |- *.
    destruct (dispatch clientSock msg clients) as [[clients' ev] [|]];
      [|discriminate Hrun].
    cbn [state] in Hrun. rewrite (IH clients' Hrun).
    cbn [registry trace state unread]. rewrite app_assoc. reflexivity.
Qed.

Lemma In_subscribers_of s t clients :
  In s (subscribers_of t clients) <->
  exists c, In c clients /\ sock c = s /\ subscribed c = true /\ topic c = t.
Proof.
  unfold subscribers_of. rewrite in_map_iff. split.
  - intros [c [Hs Hin]]. apply filter_In in Hin. destruct Hin as [Hin Hc].
    apply andb_true_iff in Hc. destruct Hc as [Hsub Ht].
    apply bytes_eqb_eq in Ht. exists c. auto.
  - intros [c [Hin [Hs [Hsub Ht]]]]. exists c. split; [assumption|].
    apply filter_In. split; [assumption|].
    rewrite Hsub, Ht, bytes_eqb_refl. reflexivity.
Qed.

Lemma subscribe_loop_idempotent clientSock msg clients :
  subscribe_loop clientSock msg (subscribe_loop clientSock msg clients) =
  subscribe_loop clientSock msg clients.
Proof.
  unfold subscribe_loop. rewrite map_map. apply map_ext. intros c.
  destruct (sock c =? clientSock) eqn:E; cbn [sock]; rewrite E; reflexivity.
Qed.

Lemma subscribe_loop_own clientSock msg clients t :
  In clientSock (map sock clients) ->
  In clientSock (subscribers_of t (subscribe_loop clientSock msg clients)) <->
  t = topic_string msg.
Proof.
  intros Hreg. rewrite In_subscribers_of. unfold subscribe_loop. split.
  - intros [c' [Hin [Hs [Hsub Ht]]]]. apply in_map_iff in Hin.
    destruct Hin as [c [Hc Hin]].
    destruct (Z.eqb_spec (sock c) clientSock) as [E|E].
    + subst c'. cbn [topic] in Ht. congruence.
    + subst c'. contradiction.
  - intros ->. apply in_map_iff in Hreg. destruct Hreg as [c [Hs Hin]].
    exists {| sock := sock c; topic := topic_string msg; subscribed := true |}.
    split; [|cbn; auto].
    apply in_map_iff. exists c. split; [|assumption].
    rewrite Hs, Z.eqb_refl. reflexivity.
Qed.

Lemma subscribe_loop_others clientSock msg clients s t :
  s <> clientSock ->
  In s (subscribers_of t (subscribe_loop clientSock msg clients)) <->
  In s (subscribers_of t clients).
Proof.
  intros Hne. rewrite !In_subscribers_of. unfold subscribe_loop. split.
  - intros [c' [Hin H]]. apply in_map_iff in Hin. destruct Hin as [c [Hc Hin]].
    destruct (Z.eqb_spec (sock c) clientSock) as [E|E].
    + subst c'. cbn [sock] in H. destruct H as [Hs _]. congruence.
    + subst c'. exists c. auto.
  - intros [c [Hin H]]. exists c. split; [|assumption].
    apply in_map_iff. exists c. split; [|assumption].
    destruct (Z.eqb_spec (sock c) clientSock) as [E|E]; [|reflexivity].
    destruct H as [Hs _]. congruence.
Qed.

Lemma c_str_no_NUL a : ~ In NUL (c_str a).
Proof.
  induction a as [|c a IH]; [intros []|].
  cbn [c_str]. destruct (Ascii.eqb_spec c NUL) as [E|E]; [intros []|].
  intros [H|H]; [congruence|exact (IH H)].
Qed.

Lemma c_str_length a : (length (c_str a) <= length a)%nat.
Proof.
  induction a as [|c a IH]; [reflexivity|].
  cbn [c_str]. destruct (Ascii.eqb c NUL); cbn [length]; lia.
Qed.

Lemma c_str_terminated (s rest : bytes) :
  ~ In NUL s -> c_str (s ++ NUL :: rest) = s.
Proof.
  induction s as [|c s IH]; intros Hn.
  - reflexivity.
  - cbn [app c_str]. destruct (Ascii.eqb_spec c NUL) as [E|E].
    + exfalso. apply Hn. left. exact E.
    + rewrite IH; [reflexivity|]. intros H. apply Hn. right. exact H.
Qed.

Lemma c_str_fixed (s : bytes) : ~ In NUL s -> c_str s = s.
Proof.
  induction s as [|c s IH]; intros Hn; [reflexivity|].
  cbn [c_str]. destruct (Ascii.eqb_spec c NUL) as [E|E].
  - exfalso. apply Hn. left. exact E.
  - rewrite IH; [reflexivity|]. intros H. apply Hn. right. exact H.
Qed.

(** The topic that [strncpy] leaves in an array of [n] characters. *)
Lemma c_str_strncpy n (src : bytes) :
  (length src <= n)%nat ->
  length (strncpy n src) = n /\ c_str (strncpy n src) = c_str src.
Proof.
  intros Hn. unfold strncpy.
  pose proof (c_str_length src) as Hl. pose proof (c_str_no_NUL src) as Hnul.
  split.
  - rewrite length_firstn, length_app, repeat_length. lia.
  - destruct (Nat.eq_dec (length (c_str src)) n) as [E|E].
    + rewrite firstn_app, E, Nat.sub_diag. cbn [firstn]. rewrite app_nil_r.
      rewrite <- E, firstn_all. apply c_str_fixed, Hnul.
    + rewrite firstn_app, firstn_all2 by lia.
      destruct (n - length (c_str src))%nat as [|k] eqn:Ek; [lia|].
      destruct n as [|n]; [lia|].
      cbn [repeat firstn]. apply c_str_terminated, Hnul.
Qed.

Lemma c_str_app_NUL (a b : bytes) : In NUL a -> c_str (a ++ b) = c_str a.
Proof.
  induction a as [|c a IH]; intros H; [contradiction|].
  cbn [app c_str]. destruct (Ascii.eqb_spec c NUL) as [E|E]; [reflexivity|].
  destruct H as [H|H]; [congruence|]. rewrite (IH H). reflexivity.
Qed.

Lemma c_str_app_free (a b : bytes) : ~ In NUL a -> c_str (a ++ b) = a ++ c_str b.
Proof.
  induction a as [|c a IH]; intros Hn; [reflexivity|].
  cbn [app c_str]. destruct (Ascii.eqb_spec c NUL) as [E|E].
  - exfalso. apply Hn. left. exact E.
  - rewrite IH; [reflexivity|]. intros H. apply Hn. right. exact H.
Qed.

Lemma c_str_length_lt (a : bytes) : In NUL a -> (length (c_str a) < length a)%nat.
Proof.
  induction a as [|c a IH]; intros H; [contradiction|].
  cbn [c_str]. destruct (Ascii.eqb_spec c NUL) as [E|E]; cbn [length]; [lia|].
  destruct H as [H|H]; [congruence|]. specialize (IH H). lia.
Qed.

(** The string at [msg.topic] is the string in the array [topic] when the
    array holds a NUL. *)
Lemma topic_string_array msg :
  In NUL (msg_topic msg) -> topic_string msg = c_str (msg_topic msg).
Proof.
  intros H. unfold topic_string, from_topic. apply c_str_app_NUL, H.
Qed.

(** ** Claims on the broker *)

(** C2. The PUBLISH branch at one subscriber on socket 4 and a publisher on
    socket 5: the broker makes one send to the subscriber and then one
    acknowledgement to the publisher, as the claim counts them, but the
    frame sent to the subscriber is the received frame itself, whose type is
    still [TYPE_PUBLISH] and not [TYPE_MSG], the type of a delivery. *)
Theorem C2_fanout_frame_keeps_publish_type :
  let subscriber := {| sock := 4; topic := lit "weather"; subscribed := true |} in
  let msg := frame TYPE_PUBLISH (lit "weather") (lit "c3Vubnk=") in
  dispatch 5 msg [subscriber] =
    ([subscriber], [Lock; Send 4 msg; Send 5 (make_ack msg); Unlock], Running)
  /\ msg_type msg = TYPE_PUBLISH
  /\ msg_type msg <> TYPE_MSG
  /\ msg_type (make_ack msg) = TYPE_ACK.
Proof.
  cbv zeta. rewrite dispatch_publish by reflexivity.
  repeat split. discriminate.
Qed.

(** C4, as stated, fails: the client on socket 4 subscribes to [weather]
    and terminates; its entry stays subscribed, and a later PUBLISH on
    [weather] by the client on socket 5 is still sent to socket 4. *)
Lemma C4_counterexample :
  let sub := frame TYPE_SUBSCRIBE (lit "weather") [] in
  let term := frame TYPE_TERM [] [] in
  let pub := frame TYPE_PUBLISH (lit "weather") (lit "c3Vubnk=") in
  let o := handle_client 4 [Data sub; Data term]
             (accept_client 5 (accept_client 4 [])) in
  state o = Returned /\
  subscribers_of (lit "weather") (registry o) = [4] /\
  trace (handle_client 5 [Data pub] (registry o)) =
    [Lock; Send 4 pub; Send 5 (make_ack pub); Unlock].
Proof. vm_compute. repeat split; reflexivity. Qed.

(** C4, amended: when a handler that is still running reads a TERMINATE
    frame, or its [recv] reports a closed or failed connection, it closes
    its socket and returns: nothing that arrives later on the connection is
    read or dispatched, and the vector [clients] is left exactly as it was
    before (no entry is removed or changed). *)
Theorem C4_terminate_ends_session :
  forall clientSock pre last post clients,
    state (handle_client clientSock pre clients) = Running ->
    (last = NoData \/ exists msg, last = Data msg /\ msg_type msg = TYPE_TERM) ->
    handle_client clientSock (pre ++ last :: post) clients =
    {| registry := registry (handle_client clientSock pre clients);
       trace := trace (handle_client clientSock pre clients) ++ [Close clientSock];
       state := Returned;
       unread := post |}.
Proof.
  intros clientSock pre last post clients Hrun Hlast.
  rewrite handle_client_app by assumption. cbv zeta.
  destruct Hlast as [->|[msg [-> Hty]]].
  - reflexivity.
  - cbn [handle_client]. rewrite dispatch_term by assumption. reflexivity.
Qed.

Lemma C4_terminate_ends_session_witness :
  let sub := frame TYPE_SUBSCRIBE (lit "weather") [] in
  let term := frame TYPE_TERM [] [] in
  let pub := frame TYPE_PUBLISH (lit "weather") [] in
  let clients := accept_client 4 [] in
  handle_client 4 ([Data sub] ++ Data term :: [Data pub]) clients =
  {| registry := registry (handle_client 4 [Data sub] clients);
     trace := trace (handle_client 4 [Data sub] clients) ++ [Close 4];
     state := Returned;
     unread := [Data pub] |}.
Proof.
  cbv zeta.
  apply (C4_terminate_ends_session 4
           [Data (frame TYPE_SUBSCRIBE (lit "weather") [])]
           (Data (frame TYPE_TERM [] []))
           [Data (frame TYPE_PUBLISH (lit "weather") [])]
           (accept_client 4 [])).
  - reflexivity.
  - right. exists (frame TYPE_TERM [] []). split; reflexivity.
Defined.

(** C5, as stated, fails: the client on socket 4 subscribes to [a] and then
    to [b]; after the second SUBSCRIBE it is no longer subscribed to [a]. *)
Lemma C5_counterexample :
  let sub_a := frame TYPE_SUBSCRIBE (lit "a") [] in
  let sub_b := frame TYPE_SUBSCRIBE (lit "b") [] in
  let o1 := handle_client 4 [Data sub_a] (accept_client 4 []) in
  let o2 := handle_client 4 [Data sub_a; Data sub_b] (accept_client 4 []) in
  subscribers_of (lit "a") (registry o1) = [4] /\
  subscribers_of (lit "a") (registry o2) = [] /\
  subscribers_of (lit "b") (registry o2) = [4].
Proof. vm_compute. repeat split; reflexivity. Qed.

(** C5, amended: an endpoint holds one topic at a time.  A SUBSCRIBE frame
    of a registered endpoint always succeeds and is answered by one ACK;
    afterwards the endpoint is subscribed to the topic [T] of the frame and
    to no other topic (an earlier subscription to another topic is
    replaced); a repeated SUBSCRIBE for the same topic changes nothing and
    is answered by another ACK; the subscriptions of the other endpoints
    are not touched.  [T] is the string that the broker reads at
    [msg.topic], the characters before the first NUL: the string in the
    array [topic] when the array holds a NUL, and a string that runs on
    into [payload_len] and [content] when it holds none.  The frame is one
    that holds a NUL from [topic] on. *)
Theorem C5_subscribe_sets_single_topic :
  forall clientSock msg clients,
    msg_type msg = TYPE_SUBSCRIBE ->
    In clientSock (map sock clients) ->
    topic_terminated msg ->
    let T := topic_string msg in
    let clients' := subscribe_loop clientSock msg clients in
    let ack := [Lock; Send clientSock (make_ack msg); Unlock] in
    dispatch clientSock msg clients = (clients', ack, Running)
    /\ dispatch clientSock msg clients' = (clients', ack, Running)
    /\ (forall t, In clientSock (subscribers_of t clients') <-> t = T)
    /\ (forall s t, s <> clientSock ->
          (In s (subscribers_of t clients') <-> In s (subscribers_of t clients)))
    /\ (In NUL (msg_topic msg) -> T = c_str (msg_topic msg)).
Proof.
  intros clientSock msg clients Hty Hreg _ T clients' ack. subst T clients' ack.
  repeat split.
  - apply dispatch_subscribe, Hty.
  - rewrite dispatch_subscribe by assumption.
    rewrite subscribe_loop_idempotent. reflexivity.
  - apply subscribe_loop_own, Hreg.
  - apply subscribe_loop_own, Hreg.
  - apply subscribe_loop_others; assumption.
  - apply subscribe_loop_others; assumption.
  - apply topic_string_array.
Qed.

Lemma C5_subscribe_sets_single_topic_witness :
  let msg := frame TYPE_SUBSCRIBE (lit "b") [] in
  let clients := [{| sock := 4; topic := lit "a"; subscribed := true |}] in
  let clients' := subscribe_loop 4 msg clients in
  let ack := [Lock; Send 4 (make_ack msg); Unlock] in
  dispatch 4 msg clients = (clients', ack, Running)
  /\ dispatch 4 msg clients' = (clients', ack, Running)
  /\ (forall t, In 4 (subscribers_of t clients') <-> t = topic_string msg)
  /\ (forall s t, s <> 4 ->
        (In s (subscribers_of t clients') <-> In s (subscribers_of t clients)))
  /\ (In NUL (msg_topic msg) -> topic_string msg = c_str (msg_topic msg)).
Proof.
  cbv zeta.
  apply (C5_subscribe_sets_single_topic 4
           (frame TYPE_SUBSCRIBE (lit "b") [])
           [{| sock := 4; topic := lit "a"; subscribed := true |}]).
  - reflexivity.
  - simpl. left. reflexivity.
  - unfold topic_terminated. simpl. right. left. reflexivity.
Defined.

(** C8, as stated, fails: with one subscriber on socket 4 and the publisher
    on socket 5, both sends of the PUBLISH branch, the one to the subscriber
    and the acknowledgement, are made while [clients_mtx] is held. *)
Lemma C8_counterexample :
  let subscriber := {| sock := 4; topic := lit "weather"; subscribed := true |} in
  let msg := frame TYPE_PUBLISH (lit "weather") (lit "c3Vubnk=") in
  sends_under_lock false (snd (fst (dispatch 5 msg [subscriber]))) = [4; 5].
Proof. vm_compute. reflexivity. Qed.

(** C8, amended: the PUBLISH branch takes [clients_mtx] once, sends the
    frame to every entry that is subscribed to the topic of the frame and
    then the acknowledgement to the publisher while it holds the lock, and
    releases the lock after the last send; no send of the branch is made
    without the lock.  The topic of the frame is the string that the
    broker reads at [msg.topic], in a frame that holds a NUL from [topic]
    on. *)
Theorem C8_publish_sends_under_lock :
  forall clientSock msg clients,
    msg_type msg = TYPE_PUBLISH ->
    topic_terminated msg ->
    let tr := snd (fst (dispatch clientSock msg clients)) in
    let targets := subscribers_of (topic_string msg) clients ++ [clientSock] in
    (exists body, tr = [Lock] ++ body ++ [Unlock]
                  /\ map (fun e => match e with Send s _ => Some s | _ => None end) body
                     = map Some targets)
    /\ sends_under_lock false tr = targets
    /\ sends_without_lock false tr = [].
Proof.
  intros clientSock msg clients Hty _ tr targets. subst tr targets.
  rewrite dispatch_publish by assumption. cbn [fst snd].
  repeat split.
  - exists (map (fun s => Send s msg) (subscribers_of (topic_string msg) clients)
            ++ [Send clientSock (make_ack msg)]).
    split.
    + rewrite <- !app_assoc. reflexivity.
    + rewrite !map_app, map_map. reflexivity.
  - cbn [app sends_under_lock]. rewrite sends_under_lock_held_sends. reflexivity.
  - cbn [app sends_without_lock]. rewrite sends_without_lock_held_sends. reflexivity.
Qed.

Lemma C8_publish_sends_under_lock_witness :
  let subscriber := {| sock := 4; topic := lit "weather"; subscribed := true |} in
  let msg := frame TYPE_PUBLISH (lit "weather") (lit "c3Vubnk=") in
  let tr := snd (fst (dispatch 5 msg [subscriber])) in
  let targets := subscribers_of (topic_string msg) [subscriber] ++ [5] in
  (exists body, tr = [Lock] ++ body ++ [Unlock]
                /\ map (fun e => match e with Send s _ => Some s | _ => None end) body
                   = map Some targets)
  /\ sends_under_lock false tr = targets
  /\ sends_without_lock false tr = [].
Proof.
  cbv zeta.
  apply (C8_publish_sends_under_lock 5
           (frame TYPE_PUBLISH (lit "weather") (lit "c3Vubnk="))
           [{| sock := 4; topic := lit "weather"; subscribed := true |}]).
  - reflexivity.
  - unfold topic_terminated. simpl. do 7 right. left. reflexivity.
Defined.

(** ** The frame codec of client.cpp *)

Lemma ntohl_range b0 b1 b2 b3 : 0 <= ntohl b0 b1 b2 b3 < 2 ^ 32.
Proof.
  pose proof (uchar_range b0). pose proof (uchar_range b1).
  pose proof (uchar_range b2). pose proof (uchar_range b3).
  unfold ntohl. lia.
Qed.

Lemma to_int32_small z : 0 <= z < 2 ^ 31 -> to_int32 z = z.
Proof.
  intros Hz. unfold to_int32. rewrite Z.mod_small by lia.
  destruct (Z.ltb_spec z (2 ^ 31)); lia.
Qed.

Lemma to_size_t_small z : 0 <= z < 2 ^ 64 -> to_size_t z = z.
Proof. intros Hz. unfold to_size_t. apply Z.mod_small. assumption. Qed.

(** The bytes of a TCP packet and of a datagram are the same. *)
Lemma send_packet_tcp_udp type topic payload :
  send_packet_tcp type topic payload = send_packet_udp type topic payload.
Proof.
  unfold send_packet_tcp, send_packet_udp. cbn [app].
  rewrite <- app_assoc. destruct topic, payload; reflexivity.
Qed.

(** A packet is the 12 bytes of the header, then the topic, then the
    payload, with nothing in between. *)
Lemma send_packet_udp_layout type topic payload :
  send_packet_udp type topic payload =
    htonl type
    ++ htonl (to_int32 (Z.of_nat (length topic)))
    ++ htonl (to_int32 (Z.of_nat (length payload)))
    ++ topic ++ payload
  /\ Z.of_nat (length (send_packet_udp type topic payload)) =
     sizeof_Header + Z.of_nat (length topic) + Z.of_nat (length payload).
Proof.
  unfold send_packet_udp, make_header. cbn [app]. split.
  - rewrite <- !app_assoc. reflexivity.
  - rewrite !length_app. cbn [htonl length]. unfold sizeof_Header. lia.
Qed.

(** A datagram shorter than the header is malformed. *)
Lemma parse_datagram_short data :
  Z.of_nat (length data) < sizeof_Header -> parse_datagram data = Malformed.
Proof.
  intros H. unfold parse_datagram.
  destruct (Z.ltb_spec (Z.of_nat (length data)) sizeof_Header); [reflexivity|lia].
Qed.

(** A datagram whose declared lengths are below [2^31] and exceed the
    received bytes is malformed. *)
Lemma parse_datagram_too_long data type tlen plen :
  header_fields data = Some (type, tlen, plen) ->
  tlen < 2 ^ 31 -> plen < 2 ^ 31 ->
  Z.of_nat (length data) < sizeof_Header + tlen + plen ->
  parse_datagram data = Malformed.
Proof.
  intros Hf Ht Hp Hn. unfold parse_datagram.
  destruct (Z.of_nat (length data) <? sizeof_Header); [reflexivity|].
  destruct data as [|t0 [|t1 [|t2 [|t3 [|l0 [|l1 [|l2 [|l3 [|p0 [|p1 [|p2 [|p3 rest]]]]]]]]]]]];
    try reflexivity.
  cbn [header_fields] in Hf. injection Hf as _ El Ep.
  pose proof (ntohl_range l0 l1 l2 l3). pose proof (ntohl_range p0 p1 p2 p3).
  rewrite El, Ep in *.
  rewrite (to_int32_small tlen), (to_int32_small plen) by lia.
  rewrite (to_size_t_small tlen), (to_size_t_small plen) by lia.
  unfold sizeof_Header in *. rewrite to_size_t_small by lia.
  destruct (Z.ltb_spec (Z.of_nat (length (t0 :: t1 :: t2 :: t3 :: l0 :: l1 :: l2 :: l3
                                             :: p0 :: p1 :: p2 :: p3 :: rest)))
                       (12 + tlen + plen)); [reflexivity|lia].
Qed.

(** ** Claims on the frame codec *)

(** C3. The client puts SUBSCRIBE on topic [weather] on the wire as a
    12-byte header in network byte order followed by the 7 bytes of the
    topic; its type codes are 1 to 5.  The broker of server.cpp has the type
    codes 10, 11, 12, 2 and 3 and sends and receives whole [Message]
    structures of 1096 bytes: a frame that carries the SUBSCRIBE code of the
    client is dropped by the broker without an acknowledgement, and the
    acknowledgement of the broker carries the PUBLISH code of the client. *)
Theorem C3_client_and_broker_disagree :
  send_packet_tcp SUBSCRIBE (lit "weather") [] =
    map to_char [0; 0; 0; 1; 0; 0; 0; 7; 0; 0; 0; 0] ++ lit "weather"
  /\ [SUBSCRIBE; PUBLISH; MSG; ACK; TERM] = [1; 2; 3; 4; 5]
  /\ [TYPE_SUBSCRIBE; TYPE_PUBLISH; TYPE_MSG; TYPE_ACK; TYPE_TERM] = [10; 11; 12; 2; 3]
  /\ dispatch 4 (frame SUBSCRIBE (lit "weather") []) (accept_client 4 []) =
       (accept_client 4 [], [], Running)
  /\ msg_type (make_ack (frame TYPE_SUBSCRIBE (lit "weather") [])) = PUBLISH
  /\ sizeof_Message = 1096.
Proof. vm_compute. repeat split; reflexivity. Qed.

(** C7. A datagram of 12 bytes whose header declares a topic of
    [0xFFFFFFFF] bytes: the declared lengths exceed the bytes received, yet
    the sum [need] wraps around to 11, the test [n < need] lets the datagram
    through, and [topic.assign] is asked for bytes that were never received.
    [parse_datagram] does not return [false]. *)
Theorem C7_parse_datagram_wrapped_length :
  let data := map to_char [0; 0; 0; 3; 255; 255; 255; 255; 0; 0; 0; 0] in
  header_fields data = Some (3, 4294967295, 0)
  /\ Z.of_nat (length data) < sizeof_Header + 4294967295 + 0
  /\ to_size_t (sizeof_Header + to_size_t (to_int32 4294967295) + to_size_t (to_int32 0)) = 11
  /\ parse_datagram data = OverRead.
Proof. vm_compute. repeat split; reflexivity. Qed.

(** ** The echo variant: memory blocks *)

Import Echo.

Lemma bind_Some {A B : Type} (a : A) (f : A -> option B) : bind (Some a) f = f a.
Proof. reflexivity. Qed.

Lemma strlen_from_c_string (s : bytes) (tail : block) k :
  ~ In NUL s ->
  strlen_from (map Some s ++ Some NUL :: tail) k = Some (k + Z.of_nat (length s)).
Proof.
  revert k. induction s as [|c s IH]; intros k Hn.
  - cbn. f_equal. lia.
  - cbn [map app strlen_from length].
    destruct (Ascii.eqb_spec c NUL) as [E|E].
    + exfalso. apply Hn. left. assumption.
    + rewrite IH by (intros H; apply Hn; right; assumption).
      f_equal. lia.
Qed.

Lemma strlen_c_string (s : bytes) :
  ~ In NUL s -> strlen (c_string s) = Some (Z.of_nat (length s)).
Proof.
  intros Hn. unfold strlen, c_string. rewrite strlen_from_c_string by assumption.
  reflexivity.
Qed.

Lemma load_app_r (pre : bytes) (q : block) d :
  0 <= d -> load (map Some pre ++ q) (Z.of_nat (length pre) + d) = load q d.
Proof.
  intros Hd. unfold load.
  destruct (Z.ltb_spec (Z.of_nat (length pre) + d) 0); [lia|].
  destruct (Z.ltb_spec d 0); [lia|].
  replace (Z.to_nat (Z.of_nat (length pre) + d))
    with (length (map Some pre) + Z.to_nat d)%nat by (rewrite length_map; lia).
  rewrite nth_error_app2 by lia.
  replace (length (map Some pre) + Z.to_nat d - length (map Some pre))%nat
    with (Z.to_nat d) by lia.
  reflexivity.
Qed.

Lemma load_app_0 (pre : bytes) (q : block) :
  load (map Some pre ++ q) (Z.of_nat (length pre)) = load q 0.
Proof.
  rewrite <- (load_app_r pre q 0) by lia. f_equal. lia.
Qed.

Lemma load_c_string (s : bytes) i :
  0 <= i < Z.of_nat (length s) ->
  load (c_string s) i = Some (nth (Z.to_nat i) s NUL).
Proof.
  intros Hi. unfold load, c_string.
  destruct (Z.ltb_spec i 0); [lia|].
  rewrite nth_error_app1 by (rewrite length_map; lia).
  rewrite nth_error_map.
  rewrite (nth_error_nth' s NUL) by lia. reflexivity.
Qed.

Lemma store_nat_app_r (done q : block) k c :
  store_nat (done ++ q) (length done + k) c =
  match store_nat q k c with
  | Some q' => Some (done ++ q')
  | None => None
  end.
Proof.
  induction done as [|x done IH].
  - cbn. destruct (store_nat q k c); reflexivity.
  - cbn [app length Nat.add store_nat]. rewrite IH.
    destruct (store_nat q k c); reflexivity.
Qed.

Lemma store_app_r (done q : block) d c :
  0 <= d ->
  store (done ++ q) (Z.of_nat (length done) + d) c =
  match store q d c with
  | Some q' => Some (done ++ q')
  | None => None
  end.
Proof.
  intros Hd. unfold store.
  destruct (Z.ltb_spec (Z.of_nat (length done) + d) 0); [lia|].
  destruct (Z.ltb_spec d 0); [lia|].
  replace (Z.to_nat (Z.of_nat (length done) + d))
    with (length done + Z.to_nat d)%nat by lia.
  apply store_nat_app_r.
Qed.

(** Writing the first free byte of a block. *)
Lemma store_next (done : bytes) (m : nat) c :
  store (map Some done ++ repeat None (S m)) (Z.of_nat (length done)) c =
  Some (map Some (done ++ [c]) ++ repeat None m).
Proof.
  replace (Z.of_nat (length done)) with (Z.of_nat (length (map Some done)) + 0)
    by (rewrite length_map; lia).
  rewrite store_app_r by lia. cbn [repeat store store_nat Z.ltb Z.compare Z.to_nat].
  rewrite map_app, <- app_assoc. reflexivity.
Qed.

(** Overwriting a byte that was written before. *)
Lemma store_over (front : bytes) old (back : block) c :
  store (map Some front ++ Some old :: back) (Z.of_nat (length front)) c =
  Some (map Some front ++ Some c :: back).
Proof.
  replace (Z.of_nat (length front)) with (Z.of_nat (length (map Some front)) + 0)
    by (rewrite length_map; lia).
  rewrite store_app_r by lia. reflexivity.
Qed.

(** ** The echo variant: the encoder of client.c *)

Lemma raw_group_value a b c :
  0 <= a < 256 -> 0 <= b < 256 -> 0 <= c < 256 ->
  raw_group a b c =
  [ B64_at (a / 4); B64_at (a mod 4 * 16 + b / 16);
    B64_at (b mod 16 * 4 + c / 64); B64_at (c mod 64) ].
Proof.
  intros Ha Hb Hc. unfold raw_group.
  change base64_at with B64_at.
  change (3 * 6) with 18. change (2 * 6) with 12.
  change (1 * 6) with 6. change (0 * 6) with 0.
  rewrite !Z.shiftl_mul_pow2 by lia.
  unfold to_uint32. rewrite Z.mod_small by lia.
  rewrite !land_63, !Z.shiftr_div_pow2 by lia.
  repeat (f_equal; try div_lia).
Qed.

Lemma raw_group_length a b c : length (raw_group a b c) = 4%nat.
Proof. reflexivity. Qed.

Lemma next_octet_cons (s pre : bytes) x (r : bytes) i :
  s = pre ++ x :: r -> i = Z.of_nat (length pre) ->
  Z.of_nat (length s) < 2 ^ 60 ->
  next_octet (c_string s) (Z.of_nat (length s)) i = Some (uchar x, i + 1).
Proof.
  intros -> -> Hb. rewrite length_app in *. cbn [length] in *.
  unfold next_octet.
  destruct (Z.ltb_spec (Z.of_nat (length pre)) (Z.of_nat (length pre + S (length r))));
    [|lia].
  unfold c_string. rewrite map_app, <- app_assoc, load_app_0.
  cbn [map app load Z.ltb Z.compare Z.to_nat nth_error bind].
  rewrite to_size_t_small by lia. reflexivity.
Qed.

Lemma next_octet_end (s : bytes) i :
  i = Z.of_nat (length s) ->
  next_octet (c_string s) (Z.of_nat (length s)) i = Some (0, i).
Proof.
  intros ->. unfold next_octet. rewrite Z.ltb_irrefl. reflexivity.
Qed.

Lemma store_free (done : bytes) (m : nat) c j (enc : block) :
  enc = map Some done ++ repeat None (S m) -> j = Z.of_nat (length done) ->
  store enc j c = Some (map Some (done ++ [c]) ++ repeat None m).
Proof. intros -> ->. apply store_next. Qed.

Lemma encode_loop_done fuel input n j enc :
  encode_loop fuel input n n j enc = Some enc.
Proof.
  destruct fuel; [reflexivity|]. cbn [encode_loop]. rewrite Z.ltb_irrefl.
  reflexivity.
Qed.

(** The four stores of one round of the first loop. *)
Lemma store_group (done : bytes) (m : nat) c0 c1 c2 c3 j
    (k : block -> option block) :
  j = Z.of_nat (length done) -> j + 4 < 2 ^ 64 ->
  (encoded <- store (map Some done ++ repeat None (4 + m)) j c0 ;;
   encoded <- store encoded (to_size_t (j + 1)) c1 ;;
   encoded <- store encoded (to_size_t (j + 2)) c2 ;;
   encoded <- store encoded (to_size_t (j + 3)) c3 ;;
   k encoded) =
  k (map Some (done ++ [c0; c1; c2; c3]) ++ repeat None m).
Proof.
  intros Hj Hb. rewrite !to_size_t_small by lia.
  rewrite (store_free done (3 + m) c0 j) by (reflexivity || assumption).
  rewrite bind_Some.
  rewrite (store_free (done ++ [c0]) (2 + m) c1 (j + 1))
    by (reflexivity || (rewrite length_app; cbn [length]; lia)).
  rewrite bind_Some.
  rewrite (store_free ((done ++ [c0]) ++ [c1]) (1 + m) c2 (j + 2))
    by (reflexivity || (rewrite !length_app; cbn [length]; lia)).
  rewrite bind_Some.
  rewrite (store_free (((done ++ [c0]) ++ [c1]) ++ [c2]) m c3 (j + 3))
    by (reflexivity || (rewrite !length_app; cbn [length]; lia)).
  rewrite bind_Some. rewrite <- !app_assoc. reflexivity.
Qed.

Lemma app_cons_r {A : Type} (pre : list A) x r : pre ++ x :: r = (pre ++ [x]) ++ r.
Proof. rewrite <- app_assoc. reflexivity. Qed.

Lemma raw_encode_length (s : bytes) :
  Z.of_nat (length (raw_encode s)) = 4 * ((Z.of_nat (length s) + 2) / 3).
Proof.
  induction s as [|a|a b|a b c rest IH] using bytes_ind3; try reflexivity.
  cbn [raw_encode]. rewrite length_app, raw_group_length.
  cbn [length]. rewrite !Nat2Z.inj_add, !Nat2Z.inj_succ, IH. cbn [Z.of_nat].
  div_lia.
Qed.

(** The first loop of [base64_encode], started in the middle of the input:
    [pre] has been read, [done] has been written, [rest] is still to be
    read and [m] bytes of the block are still free. *)
Lemma encode_loop_spec (rest : bytes) :
  forall (pre done : bytes) (m fuel : nat),
    Z.of_nat (length (pre ++ rest)) < 2 ^ 60 ->
    Z.of_nat (length done) + Z.of_nat m < 2 ^ 63 ->
    (length rest <= fuel)%nat ->
    (length (raw_encode rest) <= m)%nat ->
    encode_loop fuel (c_string (pre ++ rest)) (Z.of_nat (length (pre ++ rest)))
      (Z.of_nat (length pre)) (Z.of_nat (length done))
      (map Some done ++ repeat None m) =
    Some (map Some (done ++ raw_encode rest)
          ++ repeat None (m - length (raw_encode rest))).
Proof.
  induction rest as [|a|a b|a b c rest IH] using bytes_ind3;
    intros pre done m fuel Hs Hm Hfuel Hroom.
  - rewrite app_nil_r. rewrite encode_loop_done.
    cbn [raw_encode length]. rewrite app_nil_r, Nat.sub_0_r. reflexivity.
  - destruct fuel as [|fuel]; [cbn [length] in Hfuel; lia|].
    cbn [raw_encode] in *. rewrite raw_group_length in *.
    destruct m as [|[|[|[|m]]]]; try lia.
    cbn [encode_loop].
    assert (Hlen : Z.of_nat (length (pre ++ [a])) = Z.of_nat (length pre) + 1)
      by (rewrite length_app; cbn [length]; lia).
    destruct (Z.ltb_spec (Z.of_nat (length pre)) (Z.of_nat (length (pre ++ [a]))));
      [|lia].
    rewrite (next_octet_cons (pre ++ [a]) pre a []) by (reflexivity || assumption).
    rewrite bind_Some. cbn [fst snd].
    rewrite (next_octet_end (pre ++ [a])) by lia.
    rewrite bind_Some. cbn [fst snd].
    rewrite (next_octet_end (pre ++ [a])) by lia.
    rewrite bind_Some. cbn [fst snd].
    change (S (S (S (S m)))) with (4 + m)%nat.
    rewrite store_group by (reflexivity || lia).
    rewrite <- Hlen. rewrite encode_loop_done.
    replace (4 + m - 4)%nat with m by lia. reflexivity.
  - destruct fuel as [|fuel]; [cbn [length] in Hfuel; lia|].
    cbn [raw_encode] in *. rewrite raw_group_length in *.
    destruct m as [|[|[|[|m]]]]; try lia.
    cbn [encode_loop].
    assert (Hlen : Z.of_nat (length (pre ++ [a; b])) = Z.of_nat (length pre) + 1 + 1)
      by (rewrite length_app; cbn [length]; lia).
    destruct (Z.ltb_spec (Z.of_nat (length pre)) (Z.of_nat (length (pre ++ [a; b]))));
      [|lia].
    rewrite (next_octet_cons (pre ++ [a; b]) pre a [b]) by (reflexivity || assumption).
    rewrite bind_Some. cbn [fst snd].
    rewrite (next_octet_cons (pre ++ [a; b]) (pre ++ [a]) b [])
      by (assumption || (rewrite <- app_assoc; reflexivity)
          || (rewrite length_app; cbn [length]; lia)).
    rewrite bind_Some. cbn [fst snd].
    rewrite (next_octet_end (pre ++ [a; b])) by lia.
    rewrite bind_Some. cbn [fst snd].
    change (S (S (S (S m)))) with (4 + m)%nat.
    rewrite store_group by (reflexivity || lia).
    rewrite <- Hlen. rewrite encode_loop_done.
    replace (4 + m - 4)%nat with m by lia. reflexivity.
  - destruct fuel as [|fuel]; [cbn [length] in Hfuel; lia|].
    cbn [raw_encode] in *. rewrite length_app, raw_group_length in Hroom.
    destruct m as [|[|[|[|m]]]]; try lia.
    cbn [encode_loop].
    assert (Hlen : Z.of_nat (length (pre ++ [a; b; c])) = Z.of_nat (length pre) + 1 + 1 + 1)
      by (rewrite length_app; cbn [length]; lia).
    assert (Hn : Z.of_nat (length pre) < Z.of_nat (length (pre ++ a :: b :: c :: rest)))
      by (rewrite length_app; cbn [length]; lia).
    destruct (Z.ltb_spec (Z.of_nat (length pre))
                (Z.of_nat (length (pre ++ a :: b :: c :: rest)))); [|lia].
    rewrite (next_octet_cons _ pre a (b :: c :: rest)) by (reflexivity || assumption).
    rewrite bind_Some. cbn [fst snd].
    rewrite (next_octet_cons _ (pre ++ [a]) b (c :: rest))
      by (assumption || (rewrite <- app_assoc; reflexivity)
          || (rewrite length_app; cbn [length]; lia)).
    rewrite bind_Some. cbn [fst snd].
    rewrite (next_octet_cons _ ((pre ++ [a]) ++ [b]) c rest)
      by (assumption || (rewrite <- !app_assoc; reflexivity)
          || (rewrite !length_app; cbn [length]; lia)).
    rewrite bind_Some. cbn [fst snd].
    change (S (S (S (S m)))) with (4 + m)%nat.
    rewrite store_group by (reflexivity || lia).
    rewrite <- Hlen.
    rewrite to_size_t_small by lia.
    replace (pre ++ a :: b :: c :: rest) with ((pre ++ [a; b; c]) ++ rest)
      by (rewrite <- app_assoc; reflexivity).
    replace (Z.of_nat (length done) + 4)
      with (Z.of_nat (length (done ++ raw_group (uchar a) (uchar b) (uchar c))))
      by (rewrite length_app, raw_group_length; lia).
    change [base64_at
              (Z.land (Z.shiftr (to_uint32 (Z.shiftl (uchar a) 16 + Z.shiftl (uchar b) 8 + uchar c)) (3 * 6)) 63);
            base64_at
              (Z.land (Z.shiftr (to_uint32 (Z.shiftl (uchar a) 16 + Z.shiftl (uchar b) 8 + uchar c)) (2 * 6)) 63);
            base64_at
              (Z.land (Z.shiftr (to_uint32 (Z.shiftl (uchar a) 16 + Z.shiftl (uchar b) 8 + uchar c)) (1 * 6)) 63);
            base64_at
              (Z.land (Z.shiftr (to_uint32 (Z.shiftl (uchar a) 16 + Z.shiftl (uchar b) 8 + uchar c)) (0 * 6)) 63)]
      with (raw_group (uchar a) (uchar b) (uchar c)).
    rewrite IH.
    + rewrite <- app_assoc.
      replace (4 + m - length (raw_group (uchar a) (uchar b) (uchar c) ++ raw_encode rest))%nat
        with (m - length (raw_encode rest))%nat
        by (rewrite length_app, raw_group_length; lia).
      reflexivity.
    + rewrite <- app_assoc. exact Hs.
    + rewrite length_app, raw_group_length. lia.
    + cbn [length] in Hfuel. lia.
    + lia.
Qed.

(** The second loop of [base64_encode] turns what the first loop wrote
    into the encoding with its padding. *)
Lemma pad_loop_spec (rest : bytes) :
  forall (front : bytes) (tail : block) n,
    n mod 3 = Z.of_nat (length rest) mod 3 ->
    Z.of_nat (length (front ++ raw_encode rest)) < 2 ^ 63 ->
    pad_loop n (Z.of_nat (length (front ++ raw_encode rest)))
      (map Some (front ++ raw_encode rest) ++ tail) =
    Some (map Some (front ++ b64_encode rest) ++ tail).
Proof.
  induction rest as [|a|a b|a b c rest IH] using bytes_ind3;
    intros front tail n Hn Hb.
  - unfold pad_loop. rewrite Hn. reflexivity.
  - pose proof (uchar_range a) as Ha.
    unfold pad_loop. rewrite Hn.
    change (Z.to_nat ((3 - Z.of_nat (length [a]) mod 3) mod 3)) with 2%nat.
    change (b64_encode [a]) with (encode_group a None None).
    cbn [raw_encode] in *. rewrite encode_group_1.
    rewrite raw_group_value in * by lia.
    rewrite length_app in *. cbn [length] in *.
    cbn [seq fold_left]. rewrite bind_Some.
    rewrite !to_size_t_small by lia.
    replace (front ++ [B64_at (uchar a / 4); B64_at (uchar a mod 4 * 16 + 0 / 16);
                       B64_at (0 mod 16 * 4 + 0 / 64); B64_at (0 mod 64)])
      with ((front ++ [B64_at (uchar a / 4); B64_at (uchar a mod 4 * 16 + 0 / 16);
                       B64_at (0 mod 16 * 4 + 0 / 64)]) ++ [B64_at (0 mod 64)])
      by (rewrite <- app_assoc; reflexivity).
    rewrite map_app, <- app_assoc. cbn [map app].
    replace (Z.of_nat (length front + 4) - 1 - Z.of_nat 0)
      with (Z.of_nat (length (front ++ [B64_at (uchar a / 4);
                                        B64_at (uchar a mod 4 * 16 + 0 / 16);
                                        B64_at (0 mod 16 * 4 + 0 / 64)])))
      by (rewrite length_app; cbn [length]; lia).
    rewrite store_over, bind_Some.
    replace (front ++ [B64_at (uchar a / 4); B64_at (uchar a mod 4 * 16 + 0 / 16);
                       B64_at (0 mod 16 * 4 + 0 / 64)])
      with ((front ++ [B64_at (uchar a / 4); B64_at (uchar a mod 4 * 16 + 0 / 16)])
            ++ [B64_at (0 mod 16 * 4 + 0 / 64)])
      by (rewrite <- app_assoc; reflexivity).
    rewrite map_app, <- app_assoc. cbn [map app].
    replace (Z.of_nat (length front + 4) - 1 - Z.of_nat 1)
      with (Z.of_nat (length (front ++ [B64_at (uchar a / 4);
                                        B64_at (uchar a mod 4 * 16 + 0 / 16)])))
      by (rewrite length_app; cbn [length]; lia).
    rewrite store_over.
    rewrite !map_app, <- !app_assoc. cbn [map app].
    replace (uchar a mod 4 * 16 + 0 / 16) with (uchar a mod 4 * 16) by div_lia.
    reflexivity.
  - pose proof (uchar_range a) as Ha. pose proof (uchar_range b) as Hb'.
    unfold pad_loop. rewrite Hn.
    change (Z.to_nat ((3 - Z.of_nat (length [a; b]) mod 3) mod 3)) with 1%nat.
    change (b64_encode [a; b]) with (encode_group a (Some b) None).
    cbn [raw_encode] in *. rewrite encode_group_2.
    rewrite raw_group_value in * by lia.
    rewrite length_app in *. cbn [length] in *.
    cbn [seq fold_left]. rewrite bind_Some.
    rewrite !to_size_t_small by lia.
    replace (front ++ [B64_at (uchar a / 4); B64_at (uchar a mod 4 * 16 + uchar b / 16);
                       B64_at (uchar b mod 16 * 4 + 0 / 64); B64_at (0 mod 64)])
      with ((front ++ [B64_at (uchar a / 4); B64_at (uchar a mod 4 * 16 + uchar b / 16);
                       B64_at (uchar b mod 16 * 4 + 0 / 64)]) ++ [B64_at (0 mod 64)])
      by (rewrite <- app_assoc; reflexivity).
    rewrite map_app, <- app_assoc. cbn [map app].
    replace (Z.of_nat (length front + 4) - 1 - Z.of_nat 0)
      with (Z.of_nat (length (front ++ [B64_at (uchar a / 4);
                                        B64_at (uchar a mod 4 * 16 + uchar b / 16);
                                        B64_at (uchar b mod 16 * 4 + 0 / 64)])))
      by (rewrite length_app; cbn [length]; lia).
    rewrite store_over.
    rewrite !map_app, <- !app_assoc. cbn [map app].
    replace (uchar b mod 16 * 4 + 0 / 64) with (uchar b mod 16 * 4) by div_lia.
    reflexivity.
  - pose proof (uchar_range a) as Ha. pose proof (uchar_range b) as Hb'.
    pose proof (uchar_range c) as Hc.
    rewrite b64_encode_step, encode_group_3.
    cbn [raw_encode] in *. rewrite raw_group_value in * by lia.
    rewrite !app_assoc in *.
    apply IH.
    + rewrite Hn. cbn [length]. rewrite !Nat2Z.inj_succ. div_lia.
    + exact Hb.
Qed.

Lemma NUL_not_in_b64_encode (s : bytes) : ~ In NUL (b64_encode s).
Proof.
  intros H. pose proof (b64_encode_alphabet s) as Ha.
  rewrite Forall_forall in Ha. destruct (Ha NUL H) as [Hin|E].
  - apply in_alphabet_In in Hin. discriminate Hin.
  - discriminate E.
Qed.

(** [base64_encode] of client.c writes the same characters as [b64_encode]
    of client.cpp, followed by the terminating NUL. *)
Lemma base64_encode_spec (s : bytes) :
  ~ In NUL s -> Z.of_nat (length s) < 2 ^ 60 ->
  base64_encode (c_string s) = Some (c_string (b64_encode s)).
Proof.
  intros Hnul Hb. unfold base64_encode.
  rewrite strlen_c_string by assumption. rewrite bind_Some.
  pose proof (raw_encode_length s) as Hraw.
  assert (Hout : to_size_t (4 * (to_size_t (Z.of_nat (length s) + 2) / 3))
                 = Z.of_nat (length (raw_encode s))).
  { rewrite Hraw. rewrite (to_size_t_small (Z.of_nat (length s) + 2)) by lia.
    apply to_size_t_small. div_lia. }
  rewrite Hout.
  assert (Hsmall : Z.of_nat (length (raw_encode s)) < 2 ^ 62) by div_lia.
  rewrite to_size_t_small by lia.
  unfold malloc.
  replace (Z.to_nat (Z.of_nat (length (raw_encode s)) + 1))
    with (length (raw_encode s) + 1)%nat by lia.
  rewrite Nat2Z.id.
  pose proof (encode_loop_spec s [] [] (length (raw_encode s) + 1) (length s)) as Hloop.
  cbn [app length map] in Hloop. change (Z.of_nat 0) with 0 in Hloop.
  rewrite Hloop by lia. clear Hloop.
  rewrite bind_Some.
  replace (length (raw_encode s) + 1 - length (raw_encode s))%nat with 1%nat by lia.
  pose proof (pad_loop_spec s [] (repeat None 1) (Z.of_nat (length s)) eq_refl) as Hpad.
  cbn [app] in Hpad. rewrite Hpad by lia. clear Hpad.
  rewrite bind_Some.
  replace (Z.of_nat (length (raw_encode s))) with (Z.of_nat (length (b64_encode s)))
    by (rewrite b64_encode_length; lia).
  rewrite (store_next (b64_encode s) 0). unfold c_string.
  rewrite map_app, app_nil_r. reflexivity.
Qed.

(** ** The echo variant: the decoder of server.c *)

Lemma strchr_offset_B64_at k : 0 <= k < 64 -> strchr_offset (B64_at k) = Some k.
Proof.
  intros Hk.
  assert (H : forallb (fun i => match strchr_offset (B64_at (Z.of_nat i)) with
                                | Some v => v =? Z.of_nat i
                                | None => false
                                end) (seq 0 64) = true)
    by (vm_compute; reflexivity).
  rewrite forallb_forall in H. specialize (H (Z.to_nat k)).
  rewrite Z2Nat.id in H by lia.
  destruct (strchr_offset (B64_at k)) as [v|].
  - f_equal. apply Z.eqb_eq, H, in_seq. lia.
  - discriminate H. apply in_seq. lia.
Qed.

Lemma padded_offset_B64_at k : 0 <= k < 64 -> padded_offset (B64_at k) = Some k.
Proof.
  intros Hk. unfold padded_offset.
  destruct (Ascii.eqb_spec (B64_at k) PAD) as [E|E].
  - exfalso. exact (B64_at_not_PAD k Hk E).
  - apply strchr_offset_B64_at, Hk.
Qed.

Lemma padded_offset_PAD : padded_offset PAD = Some 0.
Proof. reflexivity. Qed.

(** The three bytes that one round of the loop rebuilds. *)
Lemma triple_values A B C D :
  0 <= A < 64 -> 0 <= B < 64 -> 0 <= C < 64 -> 0 <= D < 64 ->
  Z.lor (Z.shiftl A 2) (Z.shiftr B 4) mod 256 = (A * 4 + B / 16) mod 256 /\
  Z.lor (Z.shiftl B 4) (Z.shiftr C 2) mod 256 = (B * 16 + C / 4) mod 256 /\
  Z.lor (Z.shiftl C 6) D mod 256 = (C * 64 + D) mod 256.
Proof.
  intros HA HB HC HD.
  rewrite !Z.shiftr_div_pow2 by lia.
  rewrite (lor_shiftl_add A (B / 2 ^ 4) 2) by (try div_lia; lia).
  rewrite (lor_shiftl_add B (C / 2 ^ 2) 4) by (try div_lia; lia).
  rewrite (lor_shiftl_add C D 6) by lia.
  repeat split.
Qed.

Lemma load_at (s pre : bytes) x (r : bytes) i :
  s = pre ++ x :: r -> i = Z.of_nat (length pre) -> load (c_string s) i = Some x.
Proof.
  intros -> ->. unfold c_string. rewrite map_app, <- app_assoc, load_app_0.
  reflexivity.
Qed.

Lemma decode_loop_done fuel input n output_len output :
  decode_loop fuel input n output_len n output = Some output.
Proof.
  destruct fuel; [reflexivity|]. cbn [decode_loop]. rewrite Z.ltb_irrefl.
  reflexivity.
Qed.

(** One round of the loop of [base64_decode] on four characters whose
    offsets in [base64_chars] are known. *)
Lemma decode_round fuel (s pre : bytes) c0 c1 c2 c3 (post : bytes)
    A B C D output_len output i :
  s = pre ++ c0 :: c1 :: c2 :: c3 :: post -> i = Z.of_nat (length pre) ->
  Z.of_nat (length s) < 2 ^ 62 ->
  strchr_offset c0 = Some A -> strchr_offset c1 = Some B ->
  padded_offset c2 = Some C -> padded_offset c3 = Some D ->
  decode_loop (S fuel) (c_string s) (Z.of_nat (length s)) output_len i output =
  (output <- write_triple i output_len
               (Z.lor (Z.shiftl A 2) (Z.shiftr B 4) mod 256)
               (Z.lor (Z.shiftl B 4) (Z.shiftr C 2) mod 256)
               (Z.lor (Z.shiftl C 6) D mod 256) output ;;
   decode_loop fuel (c_string s) (Z.of_nat (length s)) output_len (i + 4) output).
Proof.
  intros Hs Hi Hb H0 H1 H2 H3. cbn [decode_loop].
  assert (Hlen : Z.of_nat (length s) = Z.of_nat (length pre) + 4 + Z.of_nat (length post))
    by (rewrite Hs, length_app; cbn [length]; lia).
  destruct (Z.ltb_spec i (Z.of_nat (length s))); [|lia].
  rewrite (load_at s pre c0 (c1 :: c2 :: c3 :: post) i) by assumption.
  rewrite bind_Some, H0, bind_Some.
  rewrite (load_at s (pre ++ [c0]) c1 (c2 :: c3 :: post) (i + 1))
    by ((rewrite Hs, <- app_assoc; reflexivity)
        || (rewrite length_app; cbn [length]; lia)).
  rewrite bind_Some, H1, bind_Some.
  rewrite (load_at s (pre ++ [c0; c1]) c2 (c3 :: post) (i + 2))
    by ((rewrite Hs, <- app_assoc; reflexivity)
        || (rewrite length_app; cbn [length]; lia)).
  rewrite bind_Some, H2, bind_Some.
  rewrite (load_at s (pre ++ [c0; c1; c2]) c3 post (i + 3))
    by ((rewrite Hs, <- app_assoc; reflexivity)
        || (rewrite length_app; cbn [length]; lia)).
  rewrite bind_Some, H3, bind_Some.
  rewrite (to_size_t_small (i + 4)) by lia. reflexivity.
Qed.

(** The inner loop, when three, two or one byte are still wanted. *)
Lemma write_triple_3 (done : bytes) (m : nat) i output_len t0 t1 t2 :
  i * 3 = 4 * Z.of_nat (length done) -> 0 <= i < 2 ^ 62 ->
  Z.of_nat (length done) + 3 <= output_len ->
  write_triple i output_len t0 t1 t2 (map Some done ++ repeat None (3 + m)) =
  Some (map Some (done ++ [to_char t0; to_char t1; to_char t2]) ++ repeat None m).
Proof.
  intros Hi Hb Ho. unfold write_triple.
  rewrite (to_size_t_small (i * 3)) by lia.
  replace (i * 3 / 4) with (Z.of_nat (length done)) by div_lia.
  rewrite !to_size_t_small by lia.
  destruct (Z.ltb_spec (Z.of_nat (length done) + 0) output_len); [|lia].
  destruct (Z.ltb_spec (Z.of_nat (length done) + 1) output_len); [|lia].
  destruct (Z.ltb_spec (Z.of_nat (length done) + 2) output_len); [|lia].
  rewrite (store_free done (2 + m) (to_char t0)) by (reflexivity || lia).
  rewrite bind_Some.
  rewrite (store_free (done ++ [to_char t0]) (1 + m) (to_char t1))
    by (reflexivity || (rewrite length_app; cbn [length]; lia)).
  rewrite bind_Some.
  rewrite (store_free ((done ++ [to_char t0]) ++ [to_char t1]) m (to_char t2))
    by (reflexivity || (rewrite !length_app; cbn [length]; lia)).
  rewrite <- !app_assoc. reflexivity.
Qed.

Lemma write_triple_2 (done : bytes) (m : nat) i output_len t0 t1 t2 :
  i * 3 = 4 * Z.of_nat (length done) -> 0 <= i < 2 ^ 62 ->
  output_len = Z.of_nat (length done) + 2 ->
  write_triple i output_len t0 t1 t2 (map Some done ++ repeat None (2 + m)) =
  Some (map Some (done ++ [to_char t0; to_char t1]) ++ repeat None m).
Proof.
  intros Hi Hb Ho. unfold write_triple.
  rewrite (to_size_t_small (i * 3)) by lia.
  replace (i * 3 / 4) with (Z.of_nat (length done)) by div_lia.
  rewrite !to_size_t_small by lia.
  destruct (Z.ltb_spec (Z.of_nat (length done) + 0) output_len); [|lia].
  destruct (Z.ltb_spec (Z.of_nat (length done) + 1) output_len); [|lia].
  destruct (Z.ltb_spec (Z.of_nat (length done) + 2) output_len); [lia|].
  rewrite (store_free done (1 + m) (to_char t0)) by (reflexivity || lia).
  rewrite bind_Some.
  rewrite (store_free (done ++ [to_char t0]) m (to_char t1))
    by (reflexivity || (rewrite length_app; cbn [length]; lia)).
  rewrite bind_Some. rewrite <- !app_assoc. reflexivity.
Qed.

Lemma write_triple_1 (done : bytes) (m : nat) i output_len t0 t1 t2 :
  i * 3 = 4 * Z.of_nat (length done) -> 0 <= i < 2 ^ 62 ->
  output_len = Z.of_nat (length done) + 1 ->
  write_triple i output_len t0 t1 t2 (map Some done ++ repeat None (1 + m)) =
  Some (map Some (done ++ [to_char t0]) ++ repeat None m).
Proof.
  intros Hi Hb Ho. unfold write_triple.
  rewrite (to_size_t_small (i * 3)) by lia.
  replace (i * 3 / 4) with (Z.of_nat (length done)) by div_lia.
  rewrite !to_size_t_small by lia.
  destruct (Z.ltb_spec (Z.of_nat (length done) + 0) output_len); [|lia].
  destruct (Z.ltb_spec (Z.of_nat (length done) + 1) output_len); [lia|].
  rewrite (store_free done m (to_char t0)) by (reflexivity || lia).
  rewrite bind_Some. reflexivity.
Qed.

(** The loop of [base64_decode], started in the middle of an encoding:
    [pre] has been read and [done] has been written; what is still to be
    read is the encoding of [rest]. *)
Lemma decode_loop_spec (rest : bytes) :
  forall (pre done : bytes) (m fuel : nat),
    Z.of_nat (length (pre ++ b64_encode rest)) < 2 ^ 62 ->
    Z.of_nat (length pre) * 3 = 4 * Z.of_nat (length done) ->
    (length rest <= fuel)%nat ->
    (length rest <= m)%nat ->
    decode_loop fuel (c_string (pre ++ b64_encode rest))
      (Z.of_nat (length (pre ++ b64_encode rest)))
      (Z.of_nat (length done) + Z.of_nat (length rest))
      (Z.of_nat (length pre))
      (map Some done ++ repeat None m) =
    Some (map Some (done ++ rest) ++ repeat None (m - length rest)).
Proof.
  induction rest as [|a|a b|a b c rest IH] using bytes_ind3;
    intros pre done m fuel Hb Hi Hfuel Hroom;
    assert (Hpre : Z.of_nat (length pre) < 2 ^ 62)
      by (rewrite length_app in Hb; lia).
  - cbn [b64_encode length]. rewrite !app_nil_r. rewrite decode_loop_done.
    rewrite Nat.sub_0_r. reflexivity.
  - pose proof (uchar_range a) as Ha.
    destruct fuel as [|fuel]; [cbn [length] in Hfuel; lia|].
    destruct m as [|m]; [cbn [length] in Hroom; lia|].
    change (b64_encode [a]) with (encode_group a None None) in *.
    rewrite encode_group_1 in *.
    rewrite (decode_round fuel _ pre _ _ _ _ []
               (uchar a / 4) (uchar a mod 4 * 16) 0 0)
      by (reflexivity || assumption
          || (apply strchr_offset_B64_at; div_lia)).
    destruct (triple_values (uchar a / 4) (uchar a mod 4 * 16) 0 0)
      as [E0 [E1 E2]]; try div_lia.
    rewrite E0, E1, E2.
    change (S m) with (1 + m)%nat.
    rewrite write_triple_1 by (cbn [length]; lia).
    rewrite bind_Some.
    replace (Z.of_nat (length pre) + 4)
      with (Z.of_nat (length (pre ++ [B64_at (uchar a / 4); B64_at (uchar a mod 4 * 16);
                                      PAD; PAD])))
      by (rewrite length_app; cbn [length]; lia).
    rewrite decode_loop_done.
    rewrite (to_char_eq _ a) by div_lia.
    cbn [length]. replace (1 + m - 1)%nat with m by lia. reflexivity.
  - pose proof (uchar_range a) as Ha. pose proof (uchar_range b) as Hb'.
    destruct fuel as [|fuel]; [cbn [length] in Hfuel; lia|].
    destruct m as [|[|m]]; try (cbn [length] in Hroom; lia).
    change (b64_encode [a; b]) with (encode_group a (Some b) None) in *.
    rewrite encode_group_2 in *.
    rewrite (decode_round fuel _ pre _ _ _ _ []
               (uchar a / 4) (uchar a mod 4 * 16 + uchar b / 16)
               (uchar b mod 16 * 4) 0)
      by (reflexivity || assumption
          || (apply strchr_offset_B64_at; div_lia)
          || (apply padded_offset_B64_at; div_lia)).
    destruct (triple_values (uchar a / 4) (uchar a mod 4 * 16 + uchar b / 16)
                (uchar b mod 16 * 4) 0)
      as [E0 [E1 E2]]; try div_lia.
    rewrite E0, E1, E2.
    change (S (S m)) with (2 + m)%nat.
    rewrite write_triple_2 by (cbn [length]; lia).
    rewrite bind_Some.
    replace (Z.of_nat (length pre) + 4)
      with (Z.of_nat (length (pre ++ [B64_at (uchar a / 4);
                                      B64_at (uchar a mod 4 * 16 + uchar b / 16);
                                      B64_at (uchar b mod 16 * 4); PAD])))
      by (rewrite length_app; cbn [length]; lia).
    rewrite decode_loop_done.
    rewrite (to_char_eq _ a), (to_char_eq _ b) by div_lia.
    cbn [length]. replace (2 + m - 2)%nat with m by lia. reflexivity.
  - pose proof (uchar_range a) as Ha. pose proof (uchar_range b) as Hb'.
    pose proof (uchar_range c) as Hc.
    destruct fuel as [|fuel]; [cbn [length] in Hfuel; lia|].
    destruct m as [|[|[|m]]]; try (cbn [length] in Hroom; lia).
    rewrite b64_encode_step, encode_group_3 in *.
    cbn [app] in *.
    rewrite (decode_round fuel _ pre _ _ _ _ (b64_encode rest)
               (uchar a / 4) (uchar a mod 4 * 16 + uchar b / 16)
               (uchar b mod 16 * 4 + uchar c / 64) (uchar c mod 64))
      by (reflexivity || assumption
          || (apply strchr_offset_B64_at; div_lia)
          || (apply padded_offset_B64_at; div_lia)).
    destruct (triple_values (uchar a / 4) (uchar a mod 4 * 16 + uchar b / 16)
                (uchar b mod 16 * 4 + uchar c / 64) (uchar c mod 64))
      as [E0 [E1 E2]]; try div_lia.
    rewrite E0, E1, E2.
    change (S (S (S m))) with (3 + m)%nat.
    rewrite write_triple_3 by (cbn [length]; lia).
    rewrite bind_Some.
    rewrite (to_char_eq _ a), (to_char_eq _ b), (to_char_eq _ c) by div_lia.
    set (g := [B64_at (uchar a / 4); B64_at (uchar a mod 4 * 16 + uchar b / 16);
               B64_at (uchar b mod 16 * 4 + uchar c / 64); B64_at (uchar c mod 64)]) in *.
    change (B64_at (uchar a / 4)
            :: B64_at (uchar a mod 4 * 16 + uchar b / 16)
               :: B64_at (uchar b mod 16 * 4 + uchar c / 64)
                  :: B64_at (uchar c mod 64) :: b64_encode rest)
      with (g ++ b64_encode rest) in *.
    rewrite app_assoc in *.
    replace (Z.of_nat (length pre) + 4) with (Z.of_nat (length (pre ++ g)))
      by (rewrite length_app; subst g; cbn [length]; lia).
    replace (Z.of_nat (length done) + Z.of_nat (length (a :: b :: c :: rest)))
      with (Z.of_nat (length (done ++ [a; b; c])) + Z.of_nat (length rest))
      by (rewrite length_app; cbn [length]; lia).
    rewrite IH.
    + rewrite <- app_assoc. cbn [app length].
      replace (3 + m - S (S (S (length rest))))%nat with (m - length rest)%nat by lia.
      reflexivity.
    + exact Hb.
    + rewrite !length_app. subst g. cbn [length]. lia.
    + cbn [length] in Hfuel. lia.
    + cbn [length] in Hroom. lia.
Qed.

Lemma pad_count_value (n : nat) :
  Z.of_nat (pad_count n) = 3 * ((Z.of_nat n + 2) / 3) - Z.of_nat n.
Proof.
  unfold pad_count.
  pose proof (Nat.mod_upper_bound n 3 ltac:(lia)) as Hu.
  pose proof (Nat.div_mod_eq n 3) as Hd.
  destruct (n mod 3)%nat as [|[|[|r]]]; try lia; div_lia.
Qed.

(** [base64_decode] of server.c on the encoding of a non-empty string. *)
Lemma base64_decode_spec (s : bytes) :
  s <> [] -> Z.of_nat (length s) < 2 ^ 60 ->
  base64_decode (c_string (b64_encode s)) = Some (c_string s).
Proof.
  intros Hne Hb. unfold base64_decode.
  rewrite strlen_c_string by apply NUL_not_in_b64_encode. rewrite bind_Some.
  pose proof (b64_encode_length s) as Hlen.
  pose proof (pad_count_value (length s)) as Hpad.
  assert (Hpos : 0 < Z.of_nat (length s))
    by (destruct s; [contradiction|cbn [length]; lia]).
  set (enc := b64_encode s) in *. set (n := Z.of_nat (length s)) in *.
  assert (Hge : 4 <= Z.of_nat (length enc)) by div_lia.
  rewrite (load_c_string enc (Z.of_nat (length enc) - 1)) by lia.
  rewrite bind_Some.
  rewrite (load_c_string enc (Z.of_nat (length enc) - 2)) by lia.
  rewrite bind_Some.
  rewrite (to_size_t_small (Z.of_nat (length enc) / 4 * 3)) by div_lia.
  pose proof (b64_encode_padding s (Z.to_nat (Z.of_nat (length enc) - 1)) ltac:(subst enc; lia))
    as P1.
  pose proof (b64_encode_padding s (Z.to_nat (Z.of_nat (length enc) - 2)) ltac:(subst enc; lia))
    as P2.
  fold enc in P1, P2.
  assert (Hout :
    (if Ascii.eqb (nth (Z.to_nat (Z.of_nat (length enc) - 2)) enc NUL) PAD
     then to_size_t
            ((if Ascii.eqb (nth (Z.to_nat (Z.of_nat (length enc) - 1)) enc NUL) PAD
              then to_size_t (Z.of_nat (length enc) / 4 * 3 - 1)
              else Z.of_nat (length enc) / 4 * 3) - 1)
     else if Ascii.eqb (nth (Z.to_nat (Z.of_nat (length enc) - 1)) enc NUL) PAD
          then to_size_t (Z.of_nat (length enc) / 4 * 3 - 1)
          else Z.of_nat (length enc) / 4 * 3) = n).
  { destruct (Ascii.eqb_spec (nth (Z.to_nat (Z.of_nat (length enc) - 2)) enc NUL) PAD) as [E2|E2];
      destruct (Ascii.eqb_spec (nth (Z.to_nat (Z.of_nat (length enc) - 1)) enc NUL) PAD) as [E1|E1];
      rewrite P2 in E2; rewrite P1 in E1;
      assert (Hpc : (pad_count (length s) <= 2)%nat)
        by (unfold pad_count; destruct (length s mod 3)%nat as [|[|r]]; lia);
      try rewrite (to_size_t_small (Z.of_nat (length enc) / 4 * 3 - 1)) by div_lia;
      try rewrite (to_size_t_small (Z.of_nat (length enc) / 4 * 3 - 1 - 1)) by div_lia;
      try rewrite (to_size_t_small (Z.of_nat (length enc) / 4 * 3 - 1)) by div_lia;
      div_lia. }
  rewrite Hout. clear Hout P1 P2.
  rewrite (to_size_t_small (n + 1)) by lia.
  unfold malloc. replace (Z.to_nat (n + 1)) with (length s + 1)%nat by lia.
  rewrite Nat2Z.id.
  pose proof (decode_loop_spec s [] [] (length s + 1) (length enc)) as Hloop.
  cbn [app length map] in Hloop. change (Z.of_nat 0) with 0 in Hloop.
  fold enc in Hloop. fold n in Hloop.
  rewrite Z.add_0_l in Hloop.
  rewrite Hloop by (try lia; subst enc n; div_lia). clear Hloop.
  rewrite bind_Some.
  replace (length s + 1 - length s)%nat with 1%nat by lia.
  subst n. rewrite (store_next s 0). unfold c_string.
  rewrite map_app, app_nil_r. reflexivity.
Qed.

(** ** Claim on the echo variant *)

(** C10. For every non-empty string [s] without a NUL byte (and of a size
    that fits the address space), [base64_encode] of client.c returns a
    string on which [base64_decode] of server.c returns a string equal to
    [s].  For the empty string the encoder returns the empty string, and on
    it the decoder reads [input[input_len - 1]] before the start of its
    input, which is undefined: the round trip is not guaranteed. *)
Theorem C10_echo_roundtrip : forall s : bytes,
  s <> [] -> ~ In NUL s -> Z.of_nat (length s) < 2 ^ 60 ->
  (exists enc, base64_encode (c_string s) = Some enc
               /\ base64_decode enc = Some (c_string s))
  /\ base64_encode (c_string []) = Some (c_string [])
  /\ load (c_string []) (0 - 1) = None
  /\ base64_decode (c_string []) = None.
Proof.
  intros s Hne Hnul Hb. split; [|repeat split].
  exists (c_string (b64_encode s)). split.
  - apply base64_encode_spec; assumption.
  - apply base64_decode_spec; assumption.
Qed.

Lemma C10_echo_roundtrip_witness :
  (exists enc, base64_encode (c_string (lit "sunny")) = Some enc
               /\ base64_decode enc = Some (c_string (lit "sunny")))
  /\ base64_encode (c_string []) = Some (c_string [])
  /\ load (c_string []) (0 - 1) = None
  /\ base64_decode (c_string []) = None.
Proof.
  apply (C10_echo_roundtrip (lit "sunny")).
  - discriminate.
  - simpl. intros [H|[H|[H|[H|[H|H]]]]]; try discriminate H. exact H.
  - reflexivity.
Defined.

(** ** Further properties of the frame codec and of the broker *)

Lemma uchar_to_char_mod z : uchar (to_char z) = z mod 256.
Proof.
  unfold uchar, to_char.
  pose proof (Z.mod_pos_bound z 256 ltac:(lia)) as Hm.
  rewrite N_ascii_embedding by lia. lia.
Qed.

Lemma ntohl_htonl x :
  match htonl x with
  | [b0; b1; b2; b3] => ntohl b0 b1 b2 b3 = to_uint32 x
  | _ => False
  end.
Proof.
  unfold htonl, ntohl. rewrite !uchar_to_char_mod.
  unfold to_uint32. div_lia.
Qed.

Lemma to_int32_to_uint32 x : - 2 ^ 31 <= x < 2 ^ 31 -> to_int32 (to_uint32 x) = x.
Proof.
  intros Hx. unfold to_int32, to_uint32. rewrite Z.mod_mod by lia.
  destruct (Z.ltb_spec (x mod 2 ^ 32) (2 ^ 31)); div_lia.
Qed.

Lemma assign_slice (front mid back : bytes) :
  assign (front ++ mid ++ back) (Z.of_nat (length front)) (Z.of_nat (length mid))
  = Some mid.
Proof.
  unfold assign. rewrite !length_app.
  destruct (Z.leb_spec 0 (Z.of_nat (length front))); [|lia].
  destruct (Z.leb_spec (Z.of_nat (length front) + Z.of_nat (length mid))
              (Z.of_nat (length front + (length mid + length back)))); [|lia].
  cbn [andb]. rewrite !Nat2Z.id.
  rewrite skipn_app, skipn_all, Nat.sub_diag. cbn [skipn app].
  rewrite firstn_app, firstn_all, Nat.sub_diag. cbn [firstn].
  rewrite app_nil_r. reflexivity.
Qed.

(** X1. Round trip of the frame codec of client.cpp: for every type that
    fits an [int] and every topic and payload shorter than [2^31] bytes,
    [parse_datagram] returns [true] on the datagram that [send_packet_udp]
    builds, with the same type, topic and payload; the datagram is the
    12-byte header followed by the topic and the payload, and
    [send_packet_tcp] puts the same bytes on the stream. *)
Theorem X1_frame_roundtrip : forall type (topic payload : bytes),
  - 2 ^ 31 <= type < 2 ^ 31 ->
  Z.of_nat (length topic) < 2 ^ 31 -> Z.of_nat (length payload) < 2 ^ 31 ->
  parse_datagram (send_packet_udp type topic payload) = Parsed type topic payload
  /\ send_packet_tcp type topic payload = send_packet_udp type topic payload
  /\ Z.of_nat (length (send_packet_udp type topic payload)) =
     sizeof_Header + Z.of_nat (length topic) + Z.of_nat (length payload).
Proof.
  intros type topic payload Hty Ht Hp.
  destruct (send_packet_udp_layout type topic payload) as [Hlay Hlen].
  split; [|split; [apply send_packet_tcp_udp|exact Hlen]].
  unfold parse_datagram. rewrite Hlen.
  destruct (Z.ltb_spec (sizeof_Header + Z.of_nat (length topic) + Z.of_nat (length payload))
              sizeof_Header); [unfold sizeof_Header in *; lia|].
  rewrite Hlay.
  pose proof (ntohl_htonl type) as N0.
  pose proof (ntohl_htonl (to_int32 (Z.of_nat (length topic)))) as N1.
  pose proof (ntohl_htonl (to_int32 (Z.of_nat (length payload)))) as N2.
  rewrite (to_int32_small (Z.of_nat (length topic))) in * by lia.
  rewrite (to_int32_small (Z.of_nat (length payload))) in * by lia.
  destruct (htonl type) as [|t0 [|t1 [|t2 [|t3 [|? ?]]]]]; try contradiction.
  destruct (htonl (Z.of_nat (length topic))) as [|l0 [|l1 [|l2 [|l3 [|? ?]]]]];
    try contradiction.
  destruct (htonl (Z.of_nat (length payload))) as [|p0 [|p1 [|p2 [|p3 [|? ?]]]]];
    try contradiction.
  cbn [app]. rewrite N0, N1, N2.
  rewrite (to_int32_to_uint32 type) by assumption.
  rewrite (to_int32_to_uint32 (Z.of_nat (length topic))) by lia.
  rewrite (to_int32_to_uint32 (Z.of_nat (length payload))) by lia.
  rewrite (to_size_t_small (Z.of_nat (length topic))) by lia.
  rewrite (to_size_t_small (Z.of_nat (length payload))) by lia.
  rewrite to_size_t_small by (unfold sizeof_Header; lia).
  destruct (Z.ltb_spec (sizeof_Header + Z.of_nat (length topic) + Z.of_nat (length payload))
              (sizeof_Header + Z.of_nat (length topic) + Z.of_nat (length payload)));
    [lia|].
  change (t0 :: t1 :: t2 :: t3 :: l0 :: l1 :: l2 :: l3 :: p0 :: p1 :: p2 :: p3
             :: topic ++ payload)
    with ([t0; t1; t2; t3; l0; l1; l2; l3; p0; p1; p2; p3] ++ topic ++ payload).
  change sizeof_Header
    with (Z.of_nat (length [t0; t1; t2; t3; l0; l1; l2; l3; p0; p1; p2; p3])).
  rewrite assign_slice.
  replace (Z.of_nat (length [t0; t1; t2; t3; l0; l1; l2; l3; p0; p1; p2; p3])
           + Z.of_nat (length topic))
    with (Z.of_nat (length ([t0; t1; t2; t3; l0; l1; l2; l3; p0; p1; p2; p3] ++ topic)))
    by (rewrite length_app; lia).
  rewrite app_assoc.
  rewrite <- (app_nil_r payload) at 1.
  rewrite assign_slice. reflexivity.
Qed.

Lemma X1_frame_roundtrip_witness :
  parse_datagram (send_packet_udp MSG (lit "weather") (lit "c3Vubnk="))
    = Parsed MSG (lit "weather") (lit "c3Vubnk=")
  /\ send_packet_tcp MSG (lit "weather") (lit "c3Vubnk=")
     = send_packet_udp MSG (lit "weather") (lit "c3Vubnk=")
  /\ Z.of_nat (length (send_packet_udp MSG (lit "weather") (lit "c3Vubnk="))) =
     sizeof_Header + Z.of_nat (length (lit "weather")) + Z.of_nat (length (lit "c3Vubnk=")).
Proof.
  apply (X1_frame_roundtrip MSG (lit "weather") (lit "c3Vubnk="));
    vm_compute; split; congruence.
Defined.

(** X2. [parse_datagram] returns [false] on every datagram shorter than the
    12-byte header, and on every datagram whose declared topic and payload
    lengths are below [2^31] and exceed the bytes received. *)
Theorem X2_parse_datagram_rejects : forall data : bytes,
  (Z.of_nat (length data) < sizeof_Header \/
   exists type tlen plen,
     header_fields data = Some (type, tlen, plen) /\
     tlen < 2 ^ 31 /\ plen < 2 ^ 31 /\
     Z.of_nat (length data) < sizeof_Header + tlen + plen) ->
  parse_datagram data = Malformed.
Proof.
  intros data [Hshort|[type [tlen [plen [Hf [Ht [Hp Hn]]]]]]].
  - apply parse_datagram_short, Hshort.
  - apply (parse_datagram_too_long data type tlen plen); assumption.
Qed.

Lemma X2_parse_datagram_rejects_witness :
  parse_datagram (map to_char [0; 0; 0; 3; 0; 0; 0; 7; 0; 0; 0; 8] ++ lit "weath")
  = Malformed.
Proof.
  apply X2_parse_datagram_rejects. right. exists 3, 7, 8.
  vm_compute. repeat split; congruence.
Defined.

(** X4. [base64_encode] of client.c and [b64_encode] of client.cpp produce
    the same characters: on a string without NUL (of a size that fits the
    address space) the C encoder returns the NUL-terminated string of the
    characters that the C++ encoder returns. *)
Theorem X4_encoders_agree : forall s : bytes,
  ~ In NUL s -> Z.of_nat (length s) < 2 ^ 60 ->
  base64_encode (c_string s) = Some (c_string (b64_encode s)).
Proof.
  intros s Hnul Hb. apply base64_encode_spec; assumption.
Qed.

Lemma X4_encoders_agree_witness :
  base64_encode (c_string (lit "sunny")) = Some (c_string (b64_encode (lit "sunny"))).
Proof.
  apply (X4_encoders_agree (lit "sunny")).
  - simpl. intros [H|[H|[H|[H|[H|H]]]]]; try discriminate H. exact H.
  - reflexivity.
Defined.

(** ** The TCP helpers of client.cpp *)

Import Stream.

Lemma firstn_plus {A : Type} (n m : nat) : forall l : list A,
  firstn (n + m) l = firstn n l ++ firstn m (skipn n l).
Proof.
  induction n as [|n IH]; intros l; [reflexivity|].
  destruct l as [|x l]; cbn [Nat.add firstn skipn app].
  - rewrite firstn_nil. reflexivity.
  - rewrite IH. reflexivity.
Qed.

Lemma send_all_sound calls : forall buf ok sent rest,
  send_all calls buf = (ok, sent, rest) ->
  exists left, buf = sent ++ left /\ (ok = true -> left = []) /\ (ok = false -> left <> []).
Proof.
  induction calls as [|o calls IH]; intros buf ok sent rest H.
  - destruct buf as [|b buf]; cbn in H; injection H as <- <- <-;
      exists []; rewrite ?app_nil_r; repeat split; intros; congruence.
  - destruct buf as [|b buf].
    + cbn in H. injection H as <- <- <-. exists []. repeat split; intros; congruence.
    + cbn [send_all] in H. destruct o as [k| |].
      * destruct (send_all calls (skipn (Nat.min k (length (b :: buf))) (b :: buf)))
          as [[ok' sent'] rest'] eqn:E.
        injection H as <- <- <-.
        destruct (IH _ _ _ _ E) as [left [Hb [Ht Hf]]].
        exists left. split; [|split; assumption].
        rewrite <- app_assoc, <- Hb. symmetry. apply firstn_skipn.
      * apply IH in H. exact H.
      * injection H as <- <- <-. exists (b :: buf). repeat split; intros; congruence.
Qed.

Lemma send_all_complete calls : forall buf,
  Forall (fun o => o <> SendFailed) calls ->
  fst (fst (send_all calls buf)) = true.
Proof.
  induction calls as [|o calls IH]; intros buf Hno.
  - destruct buf; reflexivity.
  - destruct buf as [|b buf]; [reflexivity|].
    inversion Hno as [|? ? Ho Hrest]; subst.
    cbn [send_all]. destruct o as [k| |].
    + specialize (IH (skipn (Nat.min k (length (b :: buf))) (b :: buf)) Hrest).
      destruct (send_all calls (skipn (Nat.min k (length (b :: buf))) (b :: buf)))
        as [[ok' sent'] rest']. exact IH.
    + apply IH, Hrest.
    + contradiction.
Qed.

Lemma recv_loop_sound sch : forall inc len ok got c,
  recv_loop sch inc len = (ok, got, c) ->
  (ok = true -> (len <= length inc)%nat /\ got = firstn len inc
                /\ incoming c = skipn len inc)
  /\ (ok = false -> exists k, (k <= length inc)%nat /\ (k < len)%nat /\ got = firstn k inc).
Proof.
  induction sch as [|o sch IH]; intros inc len ok got c H.
  - destruct len as [|len].
    + cbn in H. injection H as <- <- <-. split; [|discriminate].
      intros _. repeat split. lia.
    + cbn [recv_loop] in H.
      destruct (Nat.leb_spec (S len) (length inc)).
      * injection H as <- <- <-. split; [|discriminate]. intros _. repeat split. lia.
      * injection H as <- <- <-. split; [discriminate|]. intros _.
        exists (length inc). repeat split; try lia. symmetry. apply firstn_all.
  - destruct len as [|len].
    + cbn in H. injection H as <- <- <-. split; [|discriminate].
      intros _. repeat split. lia.
    + cbn [recv_loop] in H. destruct o as [k| |].
      * destruct inc as [|x inc].
        -- injection H as <- <- <-. split; [discriminate|]. intros _.
           exists 0%nat. repeat split; cbn; lia.
        -- remember (Nat.min (Nat.min (S len) (S k)) (length (x :: inc))) as n eqn:En.
           assert (Hn : (1 <= n <= length (x :: inc))%nat /\ (n <= S len)%nat)
             by (rewrite En; cbn [length]; lia).
           clear En.
           destruct (recv_loop sch (skipn n (x :: inc)) (S len - n))
             as [[ok' got'] c'] eqn:E.
           injection H as <- <- <-.
           destruct (IH _ _ _ _ _ E) as [Ht Hf].
           rewrite length_skipn in Ht, Hf.
           split.
           ++ intros Hok. destruct (Ht Hok) as [Hlen [Hgot Hinc]].
              split; [lia|]. split.
              ** rewrite Hgot, <- firstn_plus. f_equal. lia.
              ** rewrite Hinc, skipn_skipn. f_equal. lia.
           ++ intros Hok. destruct (Hf Hok) as [j [Hj [Hj' Hgot]]].
              exists (n + j)%nat. repeat split; try lia.
              rewrite Hgot. symmetry. apply firstn_plus.
      * apply IH in H. exact H.
      * injection H as <- <- <-. split; [discriminate|]. intros _.
        exists 0%nat. repeat split; cbn; lia.
Qed.

Lemma recv_loop_short sch : forall inc len,
  (length inc < len)%nat -> fst (fst (recv_loop sch inc len)) = false.
Proof.
  intros inc len Hlt.
  destruct (recv_loop sch inc len) as [[ok got] c] eqn:E.
  destruct (recv_loop_sound sch inc len ok got c E) as [Ht _].
  destruct ok; [|reflexivity]. destruct (Ht eq_refl). lia.
Qed.

Lemma recv_loop_complete sch : forall (data rest : bytes),
  Forall (fun o => o <> RecvFailed) sch ->
  exists sch',
    recv_loop sch (data ++ rest) (length data) =
      (true, data, {| schedule := sch'; incoming := rest |})
    /\ Forall (fun o => o <> RecvFailed) sch'.
Proof.
  induction sch as [|o sch IH]; intros data rest Hno.
  - exists []. split; [|constructor].
    destruct data as [|d data]; [reflexivity|].
    cbn [recv_loop].
    destruct (Nat.leb_spec (length (d :: data)) (length ((d :: data) ++ rest)));
      [|rewrite length_app in *; lia].
    rewrite firstn_app, firstn_all, Nat.sub_diag, app_nil_r.
    rewrite skipn_app, skipn_all, Nat.sub_diag. reflexivity.
  - destruct data as [|d data].
    + exists (o :: sch). split; [reflexivity|assumption].
    + inversion Hno as [|? ? Ho Hrest]; subst.
      cbn [recv_loop length]. destruct o as [k| |].
      * cbn [app].
        remember (Nat.min (Nat.min (S (length data)) (S k)) (length (d :: data ++ rest)))
          as n eqn:En.
        assert (Hn : (n <= length (d :: data))%nat)
          by (rewrite En; cbn [length]; lia).
        clear En.
        destruct (IH (skipn n (d :: data)) rest Hrest) as [sch' [E Hsch']].
        exists sch'. split; [|assumption].
        change (d :: data ++ rest) with ((d :: data) ++ rest).
        rewrite skipn_app, firstn_app.
        replace (n - length (d :: data))%nat with 0%nat by lia.
        cbn [skipn firstn]. rewrite app_nil_r.
        replace (S (length data) - n)%nat with (length (skipn n (d :: data)))
          by (rewrite length_skipn; cbn [length]; lia).
        rewrite E. rewrite firstn_skipn. reflexivity.
      * apply (IH (d :: data) rest Hrest).
      * contradiction.
Qed.

(** The header of a packet, byte by byte, and what its fields read back. *)
Lemma make_header_fields type (topic payload : bytes) :
  - 2 ^ 31 <= type < 2 ^ 31 ->
  Z.of_nat (length topic) < 2 ^ 31 -> Z.of_nat (length payload) < 2 ^ 31 ->
  exists t0 t1 t2 t3 l0 l1 l2 l3 p0 p1 p2 p3,
    make_header type topic payload =
      [t0; t1; t2; t3; l0; l1; l2; l3; p0; p1; p2; p3]
    /\ to_int32 (ntohl t0 t1 t2 t3) = type
    /\ to_int32 (ntohl l0 l1 l2 l3) = Z.of_nat (length topic)
    /\ to_int32 (ntohl p0 p1 p2 p3) = Z.of_nat (length payload).
Proof.
  intros Hty Ht Hp. unfold make_header.
  pose proof (ntohl_htonl type) as N0.
  pose proof (ntohl_htonl (to_int32 (Z.of_nat (length topic)))) as N1.
  pose proof (ntohl_htonl (to_int32 (Z.of_nat (length payload)))) as N2.
  rewrite (to_int32_small (Z.of_nat (length topic))) in * by lia.
  rewrite (to_int32_small (Z.of_nat (length payload))) in * by lia.
  destruct (htonl type) as [|t0 [|t1 [|t2 [|t3 [|? ?]]]]]; try contradiction.
  destruct (htonl (Z.of_nat (length topic))) as [|l0 [|l1 [|l2 [|l3 [|? ?]]]]];
    try contradiction.
  destruct (htonl (Z.of_nat (length payload))) as [|p0 [|p1 [|p2 [|p3 [|? ?]]]]];
    try contradiction.
  exists t0, t1, t2, t3, l0, l1, l2, l3, p0, p1, p2, p3.
  rewrite N0, N1, N2. repeat split.
  - apply to_int32_to_uint32. assumption.
  - apply to_int32_to_uint32. lia.
  - apply to_int32_to_uint32. lia.
Qed.

Lemma send_packet_tcp_bytes type (topic payload : bytes) :
  send_packet_tcp type topic payload =
  make_header type topic payload ++ topic ++ payload.
Proof.
  unfold send_packet_tcp. destruct topic, payload; reflexivity.
Qed.

Lemma make_header_length type (topic payload : bytes) :
  length (make_header type topic payload) = 12%nat.
Proof. reflexivity. Qed.

Lemma parse_send_packet_udp type (topic payload : bytes) :
  - 2 ^ 31 <= type < 2 ^ 31 ->
  Z.of_nat (length topic) < 2 ^ 31 -> Z.of_nat (length payload) < 2 ^ 31 ->
  parse_datagram (send_packet_udp type topic payload) = Parsed type topic payload.
Proof.
  intros Hty Ht Hp.
  rewrite <- send_packet_tcp_udp, send_packet_tcp_bytes.
  destruct (make_header_fields type topic payload Hty Ht Hp)
    as (t0 & t1 & t2 & t3 & l0 & l1 & l2 & l3 & p0 & p1 & p2 & p3 & Hh & F0 & F1 & F2).
  rewrite Hh. unfold parse_datagram.
  rewrite !length_app. cbn [length app]. rewrite F0, F1, F2.
  unfold sizeof_Header.
  rewrite (to_size_t_small (Z.of_nat (length topic))) by lia.
  rewrite (to_size_t_small (Z.of_nat (length payload))) by lia.
  rewrite to_size_t_small by lia.
  destruct (Z.ltb_spec (Z.of_nat (12 + (length topic + length payload))) 12); [lia|].
  destruct (Z.ltb_spec (Z.of_nat (12 + (length topic + length payload)))
              (12 + Z.of_nat (length topic) + Z.of_nat (length payload))); [lia|].
  change (t0 :: t1 :: t2 :: t3 :: l0 :: l1 :: l2 :: l3 :: p0 :: p1 :: p2 :: p3
             :: topic ++ payload)
    with ([t0; t1; t2; t3; l0; l1; l2; l3; p0; p1; p2; p3] ++ topic ++ payload).
  change 12 with (Z.of_nat (length [t0; t1; t2; t3; l0; l1; l2; l3; p0; p1; p2; p3])).
  rewrite assign_slice.
  replace (Z.of_nat (length [t0; t1; t2; t3; l0; l1; l2; l3; p0; p1; p2; p3])
           + Z.of_nat (length topic))
    with (Z.of_nat (length ([t0; t1; t2; t3; l0; l1; l2; l3; p0; p1; p2; p3] ++ topic)))
    by (rewrite length_app; lia).
  rewrite app_assoc.
  rewrite <- (app_nil_r payload) at 1.
  rewrite assign_slice. reflexivity.
Qed.

(** Reading a field of [len > 0] bytes, or none when [len = 0], as
    [recv_packet_tcp] does. *)
Lemma recv_field_complete sch (data rest : bytes) :
  no_recv_failure sch ->
  Z.of_nat (length data) < 2 ^ 31 ->
  exists sch',
    (if Z.of_nat (length data) =? 0
     then (true, [], {| schedule := sch; incoming := data ++ rest |})
     else recv_all {| schedule := sch; incoming := data ++ rest |}
            (Z.to_nat (Z.of_nat (length data)))) =
    (true, data, {| schedule := sch'; incoming := rest |})
    /\ no_recv_failure sch'.
Proof.
  intros Hno Hb.
  destruct (Z.eqb_spec (Z.of_nat (length data)) 0) as [E|E].
  - destruct data; [|cbn [length] in E; lia]. exists sch. split; [reflexivity|assumption].
  - rewrite Nat2Z.id. unfold recv_all. cbn [schedule incoming].
    apply recv_loop_complete. assumption.
Qed.

Lemma recv_packet_tcp_complete sch type (topic payload rest : bytes) :
  no_recv_failure sch ->
  - 2 ^ 31 <= type < 2 ^ 31 ->
  Z.of_nat (length topic) < 2 ^ 31 -> Z.of_nat (length payload) < 2 ^ 31 ->
  exists sch',
    recv_packet_tcp {| schedule := sch;
                       incoming := send_packet_tcp type topic payload ++ rest |} =
      (Packet type topic payload, {| schedule := sch'; incoming := rest |})
    /\ no_recv_failure sch'.
Proof.
  intros Hno Hty Ht Hp. rewrite send_packet_tcp_bytes.
  destruct (make_header_fields type topic payload Hty Ht Hp)
    as (t0 & t1 & t2 & t3 & l0 & l1 & l2 & l3 & p0 & p1 & p2 & p3 & Hh & F0 & F1 & F2).
  rewrite Hh. unfold recv_packet_tcp.
  rewrite <- !app_assoc.
  destruct (recv_loop_complete sch
              [t0; t1; t2; t3; l0; l1; l2; l3; p0; p1; p2; p3]
              (topic ++ payload ++ rest) Hno) as [sch1 [E1 Hno1]].
  unfold recv_all at 1. cbn [schedule incoming].
  change (Z.to_nat sizeof_Header)
    with (length [t0; t1; t2; t3; l0; l1; l2; l3; p0; p1; p2; p3]).
  rewrite E1. rewrite F0, F1, F2.
  destruct (Z.ltb_spec (Z.of_nat (length topic)) 0); [lia|].
  destruct (Z.ltb_spec (Z.of_nat (length payload)) 0); [lia|].
  cbn [orb].
  destruct (recv_field_complete sch1 topic (payload ++ rest) Hno1 Ht) as [sch2 [E2 Hno2]].
  rewrite E2.
  destruct (recv_field_complete sch2 payload rest Hno2 Hp) as [sch3 [E3 Hno3]].
  rewrite E3. exists sch3. split; [reflexivity|assumption].
Qed.

Lemma recv_packet_tcp_truncated sch type (topic payload : bytes) k :
  - 2 ^ 31 <= type < 2 ^ 31 ->
  Z.of_nat (length topic) < 2 ^ 31 -> Z.of_nat (length payload) < 2 ^ 31 ->
  (k < length (send_packet_tcp type topic payload))%nat ->
  fst (recv_packet_tcp {| schedule := sch;
                          incoming := firstn k (send_packet_tcp type topic payload) |})
  = NoPacket.
Proof.
  intros Hty Ht Hp Hk. rewrite send_packet_tcp_bytes in *.
  destruct (make_header_fields type topic payload Hty Ht Hp)
    as (t0 & t1 & t2 & t3 & l0 & l1 & l2 & l3 & p0 & p1 & p2 & p3 & Hh & F0 & F1 & F2).
  rewrite Hh in *. set (h := [t0; t1; t2; t3; l0; l1; l2; l3; p0; p1; p2; p3]) in *.
  assert (Hhl : length h = 12%nat) by reflexivity.
  rewrite !length_app in Hk. rewrite Hhl in Hk.
  unfold recv_packet_tcp.
  destruct (recv_all {| schedule := sch; incoming := firstn k (h ++ topic ++ payload) |}
              (Z.to_nat sizeof_Header)) as [[ok hh] c1] eqn:E1.
  destruct ok; [|reflexivity].
  unfold recv_all in E1. cbn [schedule incoming] in E1.
  destruct (recv_loop_sound _ _ _ _ _ _ E1) as [S1 _].
  destruct (S1 eq_refl) as [L1 [G1 I1]]. clear S1 E1.
  change (Z.to_nat sizeof_Header) with 12%nat in *.
  rewrite length_firstn, !length_app in L1.
  rewrite firstn_firstn in G1. replace (Nat.min 12 k) with (length h) in G1 by lia.
  rewrite firstn_app, firstn_all, Nat.sub_diag in G1. cbn [firstn] in G1.
  rewrite app_nil_r in G1. subst hh. subst h. cbv iota beta.
  rewrite F0, F1, F2.
  destruct (Z.ltb_spec (Z.of_nat (length topic)) 0); [lia|].
  destruct (Z.ltb_spec (Z.of_nat (length payload)) 0); [lia|].
  cbn [orb].
  rewrite skipn_firstn_comm in I1.
  change (skipn 12 ([t0; t1; t2; t3; l0; l1; l2; l3; p0; p1; p2; p3] ++ topic ++ payload))
    with (topic ++ payload) in I1.
  assert (Hstep :
    forall r : bool * bytes * conn,
      r = (if Z.of_nat (length topic) =? 0 then (true, [], c1)
           else recv_all c1 (Z.to_nat (Z.of_nat (length topic)))) ->
      fst (fst r) = true ->
      (length (incoming (snd r)) < length payload)%nat).
  { intros r Hr Hok. destruct (Z.eqb_spec (Z.of_nat (length topic)) 0) as [E|E].
    - subst r. cbn [snd]. rewrite I1.
      destruct topic; [|cbn [length] in E; lia].
      cbn [app length] in *. rewrite length_firstn. lia.
    - rewrite Nat2Z.id in Hr. unfold recv_all in Hr.
      destruct r as [[ok2 tt] c2]. cbn [fst snd] in *. subst ok2.
      symmetry in Hr.
      destruct (recv_loop_sound _ _ _ _ _ _ Hr) as [S2 _].
      destruct (S2 eq_refl) as [L2 [G2 I2]].
      rewrite I2, I1, skipn_firstn_comm, length_firstn.
      rewrite skipn_app, skipn_all, Nat.sub_diag. cbn [skipn app].
      rewrite I1, length_firstn, length_app in L2. lia. }
  destruct (if Z.of_nat (length topic) =? 0 then (true, [], c1)
            else recv_all c1 (Z.to_nat (Z.of_nat (length topic))))
    as [[ok2 tt] c2] eqn:E2.
  destruct ok2; [|reflexivity].
  specialize (Hstep (true, tt, c2) (eq_sym E2) eq_refl). cbn [snd] in Hstep.
  destruct (Z.eqb_spec (Z.of_nat (length payload)) 0) as [E|E]; [lia|].
  rewrite Nat2Z.id. unfold recv_all.
  pose proof (recv_loop_short (schedule c2) (incoming c2) (length payload) Hstep) as Hs.
  destruct (recv_loop (schedule c2) (incoming c2) (length payload)) as [[ok3 pp] c3].
  cbn [fst] in Hs. subst ok3. reflexivity.
Qed.

Lemma recv_packet_tcp_negative sch l0 l1 l2 l3 p0 p1 p2 p3 t0 t1 t2 t3 (rest : bytes) :
  no_recv_failure sch ->
  to_int32 (ntohl l0 l1 l2 l3) < 0 \/ to_int32 (ntohl p0 p1 p2 p3) < 0 ->
  exists sch',
    recv_packet_tcp
      {| schedule := sch;
         incoming := [t0; t1; t2; t3; l0; l1; l2; l3; p0; p1; p2; p3] ++ rest |}
    = (LengthError, {| schedule := sch'; incoming := rest |})
    /\ no_recv_failure sch'.
Proof.
  intros Hno Hneg. unfold recv_packet_tcp.
  destruct (recv_loop_complete sch
              [t0; t1; t2; t3; l0; l1; l2; l3; p0; p1; p2; p3] rest Hno)
    as [sch1 [E1 Hno1]].
  exists sch1. split; [|exact Hno1].
  unfold recv_all. cbn [schedule incoming].
  change (Z.to_nat sizeof_Header)
    with (length [t0; t1; t2; t3; l0; l1; l2; l3; p0; p1; p2; p3]).
  rewrite E1.
  destruct (Z.ltb_spec (to_int32 (ntohl l0 l1 l2 l3)) 0);
    destruct (Z.ltb_spec (to_int32 (ntohl p0 p1 p2 p3)) 0);
    try reflexivity. lia.
Qed.

(** X5. [send_all] hands the bytes of the buffer to the kernel in order and
    without gaps, whatever [send] takes per call and however often it is
    interrupted: what went out is a prefix of the buffer, it is the whole
    buffer exactly when [send_all] returns [true], and [send_all] returns
    [true] whenever no call fails with an error other than [EINTR]. *)
Theorem X5_send_all_writes_prefix : forall (calls : list send_outcome) (buf : bytes),
  let r := send_all calls buf in
  exists left,
    buf = snd (fst r) ++ left
    /\ (fst (fst r) = true <-> left = [])
    /\ (no_send_failure calls -> fst (fst r) = true).
Proof.
  intros calls buf r. subst r.
  destruct (send_all calls buf) as [[ok sent] rest] eqn:E.
  destruct (send_all_sound calls buf ok sent rest E) as [left [Hb [Ht Hf]]].
  exists left. cbn [fst snd]. split; [assumption|]. split.
  - split; [assumption|]. intros Hl. destruct ok; [reflexivity|].
    exfalso. apply Hf; [reflexivity|assumption].
  - intros Hno. pose proof (send_all_complete calls buf Hno) as Hc.
    rewrite E in Hc. exact Hc.
Qed.

(** X6. [recv_all] fills its buffer with exactly the next [len] bytes of
    the connection and leaves the bytes after them unread, whatever pieces
    [recv] returns and however often it is interrupted.  It returns [false]
    with fewer than [len] bytes read when the peer closes before [len]
    bytes have arrived, and it returns [true] whenever [len] bytes arrive
    and no call fails with an error other than [EINTR]. *)
Theorem X6_recv_all_reads_exactly : forall (c : conn) (len : nat),
  let r := recv_all c len in
  (fst (fst r) = true ->
     (len <= length (incoming c))%nat
     /\ snd (fst r) = firstn len (incoming c)
     /\ incoming (snd r) = skipn len (incoming c))
  /\ (fst (fst r) = false ->
        exists k, (k < len)%nat /\ snd (fst r) = firstn k (incoming c))
  /\ ((length (incoming c) < len)%nat -> fst (fst r) = false)
  /\ (no_recv_failure (schedule c) -> (len <= length (incoming c))%nat ->
        fst (fst r) = true).
Proof.
  intros c len r. subst r. unfold recv_all.
  destruct (recv_loop (schedule c) (incoming c) len) as [[ok got] c'] eqn:E.
  destruct (recv_loop_sound _ _ _ _ _ _ E) as [Ht Hf]. cbn [fst snd].
  split; [exact Ht|]. split; [|split].
  - intros Hok. destruct (Hf Hok) as [k [_ [Hk Hg]]]. exists k. auto.
  - intros Hlt. pose proof (recv_loop_short (schedule c) (incoming c) len Hlt) as Hs.
    rewrite E in Hs. exact Hs.
  - intros Hno Hle.
    destruct (recv_loop_complete (schedule c) (firstn len (incoming c))
                (skipn len (incoming c)) Hno) as [sch' [Ec _]].
    rewrite firstn_skipn in Ec.
    rewrite length_firstn, Nat.min_l in Ec by assumption.
    rewrite Ec in E. injection E as <- _ _. reflexivity.
Qed.

(** X7. Framing over TCP: when the bytes that [send_packet_tcp] writes for
    a type, a topic and a payload arrive on a connection, followed by any
    other bytes, [recv_packet_tcp] returns [true] with the same type, topic
    and payload and leaves exactly the bytes that follow unread, however
    the stream is cut into pieces and however often [recv] is interrupted.
    So packets sent one after the other are received one by one, in
    order. *)
Theorem X7_recv_packet_tcp_roundtrip :
  forall sch type (topic payload rest : bytes),
    no_recv_failure sch ->
    - 2 ^ 31 <= type < 2 ^ 31 ->
    Z.of_nat (length topic) < 2 ^ 31 -> Z.of_nat (length payload) < 2 ^ 31 ->
    exists sch',
      recv_packet_tcp {| schedule := sch;
                         incoming := send_packet_tcp type topic payload ++ rest |} =
        (Packet type topic payload, {| schedule := sch'; incoming := rest |})
      /\ no_recv_failure sch'.
Proof.
  intros. apply recv_packet_tcp_complete; assumption.
Qed.

Lemma X7_recv_packet_tcp_roundtrip_witness :
  exists sch',
    recv_packet_tcp
      {| schedule := [Chunk 0; RecvInterrupted; Chunk 4; Chunk 100];
         incoming := send_packet_tcp MSG (lit "weather") (lit "c3Vubnk=")
                     ++ send_packet_tcp ACK (lit "weather") [] |} =
      (Packet MSG (lit "weather") (lit "c3Vubnk="),
       {| schedule := sch'; incoming := send_packet_tcp ACK (lit "weather") [] |})
    /\ no_recv_failure sch'.
Proof.
  apply (X7_recv_packet_tcp_roundtrip
           [Chunk 0; RecvInterrupted; Chunk 4; Chunk 100] MSG
           (lit "weather") (lit "c3Vubnk=") (send_packet_tcp ACK (lit "weather") [])).
  - repeat constructor; discriminate.
  - vm_compute. split; congruence.
  - reflexivity.
  - reflexivity.
Defined.

(** X8. A connection that closes in the middle of a packet: when only a
    proper prefix of the bytes of a packet arrives before the peer closes,
    [recv_packet_tcp] returns [false], wherever the cut falls (in the
    header, the topic or the payload) and whatever pieces [recv] returns;
    a short packet is never reported as a packet. *)
Theorem X8_recv_packet_tcp_truncated :
  forall sch type (topic payload : bytes) (k : nat),
    - 2 ^ 31 <= type < 2 ^ 31 ->
    Z.of_nat (length topic) < 2 ^ 31 -> Z.of_nat (length payload) < 2 ^ 31 ->
    (k < length (send_packet_tcp type topic payload))%nat ->
    fst (recv_packet_tcp
           {| schedule := sch;
              incoming := firstn k (send_packet_tcp type topic payload) |})
    = NoPacket.
Proof.
  intros. apply recv_packet_tcp_truncated; assumption.
Qed.

Lemma X8_recv_packet_tcp_truncated_witness :
  fst (recv_packet_tcp
         {| schedule := [Chunk 2; RecvInterrupted];
            incoming := firstn 15 (send_packet_tcp MSG (lit "weather") (lit "c3Vubnk=")) |})
  = NoPacket.
Proof.
  apply (X8_recv_packet_tcp_truncated [Chunk 2; RecvInterrupted] MSG
           (lit "weather") (lit "c3Vubnk=") 15).
  - vm_compute. split; congruence.
  - reflexivity.
  - reflexivity.
  - vm_compute. repeat constructor.
Defined.

(** X9. A header that declares a negative topic or payload length: once
    the 12 bytes of such a header have arrived, [recv_packet_tcp] does not
    return [false] but throws [std::length_error] from
    [assign(count, ch)]; it has then read the header and nothing else, so
    all the bytes that follow the header are still unread on the
    connection. *)
Theorem X9_recv_packet_tcp_negative_length :
  forall sch t0 t1 t2 t3 l0 l1 l2 l3 p0 p1 p2 p3 (rest : bytes),
    no_recv_failure sch ->
    to_int32 (ntohl l0 l1 l2 l3) < 0 \/ to_int32 (ntohl p0 p1 p2 p3) < 0 ->
    exists sch',
      recv_packet_tcp
        {| schedule := sch;
           incoming := [t0; t1; t2; t3; l0; l1; l2; l3; p0; p1; p2; p3] ++ rest |}
      = (LengthError, {| schedule := sch'; incoming := rest |})
      /\ no_recv_failure sch'.
Proof.
  intros. apply recv_packet_tcp_negative; assumption.
Qed.

Lemma X9_recv_packet_tcp_negative_length_witness :
  exists sch',
    recv_packet_tcp
      {| schedule := [Chunk 3];
         incoming := [to_char 0; to_char 0; to_char 0; to_char 3;
                      to_char 255; to_char 255; to_char 255; to_char 255;
                      to_char 0; to_char 0; to_char 0; to_char 0] ++ lit "abc" |}
    = (LengthError, {| schedule := sch'; incoming := lit "abc" |})
    /\ no_recv_failure sch'.
Proof.
  apply (X9_recv_packet_tcp_negative_length [Chunk 3]).
  - repeat constructor; discriminate.
  - left. vm_compute. reflexivity.
Defined.

(** ** Further properties of the broker of server.cpp *)

Lemma subscribe_loop_kept s msg clients :
  Forall2 (entry_kept s) clients (subscribe_loop s msg clients).
Proof.
  induction clients as [|c clients IH]; [constructor|].
  cbn [subscribe_loop map]. constructor; [|exact IH].
  unfold entry_kept. destruct (Z.eqb_spec (sock c) s) as [E|E].
  - cbn [sock subscribed]. repeat split; intros; congruence.
  - repeat split; auto.
Qed.

Lemma entry_kept_refl s clients : Forall2 (entry_kept s) clients clients.
Proof.
  induction clients; constructor; [|assumption].
  unfold entry_kept. repeat split; auto.
Qed.

Lemma entry_kept_trans s l1 : forall l2 l3,
  Forall2 (entry_kept s) l1 l2 -> Forall2 (entry_kept s) l2 l3 ->
  Forall2 (entry_kept s) l1 l3.
Proof.
  induction l1 as [|a l1 IH]; intros l2 l3 H12 H23.
  - inversion H12; subst. inversion H23; subst. constructor.
  - inversion H12 as [|? b ? l2' Hab H12']; subst.
    inversion H23 as [|? c ? l3' Hbc H23']; subst.
    constructor; [|eapply IH; eassumption].
    destruct Hab as [A1 [A2 A3]]. destruct Hbc as [B1 [B2 B3]].
    unfold entry_kept. repeat split.
    + congruence.
    + intros Hne. rewrite B2 by congruence. apply A2, Hne.
    + intros Hs. apply B3, A3, Hs.
Qed.

Lemma dispatch_kept s msg clients :
  Forall2 (entry_kept s) clients (fst (fst (dispatch s msg clients))).
Proof.
  unfold dispatch.
  destruct (msg_type msg =? TYPE_SUBSCRIBE); [apply subscribe_loop_kept|].
  destruct (msg_type msg =? TYPE_PUBLISH); [apply entry_kept_refl|].
  destruct (msg_type msg =? TYPE_TERM); apply entry_kept_refl.
Qed.

Lemma handle_client_kept s inputs : forall clients,
  Forall2 (entry_kept s) clients (registry (handle_client s inputs clients)).
Proof.
  induction inputs as [|r inputs IH]; intros clients.
  - apply entry_kept_refl.
  - destruct r as [msg|]; [|apply entry_kept_refl].
    cbn [handle_client].
    pose proof (dispatch_kept s msg clients) as Hd.
    destruct (dispatch s msg clients) as [[clients' ev] [|]]; cbn [fst] in Hd.
    + cbn [registry]. eapply entry_kept_trans; [exact Hd|apply IH].
    + exact Hd.
Qed.

Lemma lock_discipline_app tr1 : forall tr2 held,
  lock_discipline held (tr1 ++ tr2) =
  match tr1 with
  | [] => lock_discipline held tr2
  | _ => lock_discipline held (tr1 ++ tr2)
  end.
Proof. destruct tr1; reflexivity. Qed.

Lemma lock_discipline_sends (targets : list SOCKET) msg tr held :
  lock_discipline held (map (fun s => Send s msg) targets ++ tr) =
  lock_discipline held tr.
Proof.
  induction targets as [|s targets IH]; [reflexivity|]. exact IH.
Qed.

Lemma acks_to_sends s (targets : list SOCKET) msg tr :
  msg_type msg <> TYPE_ACK ->
  acks_to s (map (fun t => Send t msg) targets ++ tr) = acks_to s tr.
Proof.
  intros Hty. induction targets as [|t targets IH]; [reflexivity|].
  cbn [map app acks_to]. rewrite IH.
  destruct (Z.eqb_spec (msg_type msg) TYPE_ACK); [contradiction|].
  rewrite andb_false_r. reflexivity.
Qed.

(** What one round of the loop of a handler adds to a trace that starts
    and ends with [clients_mtx] free. *)
Lemma dispatch_trace s msg clients tr :
  lock_discipline false (snd (fst (dispatch s msg clients)) ++ tr) =
    match snd (dispatch s msg clients) with
    | Running => lock_discipline false tr
    | Returned => lock_discipline false tr
    end
  /\ acks_to s (snd (fst (dispatch s msg clients)) ++ tr) =
     Nat.add
       (if (msg_type msg =? TYPE_SUBSCRIBE) || (msg_type msg =? TYPE_PUBLISH)
        then 1%nat else 0%nat)
       (acks_to s tr).
Proof.
  unfold dispatch.
  destruct (Z.eqb_spec (msg_type msg) TYPE_SUBSCRIBE) as [E1|E1].
  - cbn [fst snd app lock_discipline acks_to negb andb orb make_ack msg_type].
    rewrite Z.eqb_refl. split; reflexivity.
  - destruct (Z.eqb_spec (msg_type msg) TYPE_PUBLISH) as [E2|E2].
    + cbn [fst snd orb]. rewrite publish_loop_sends. split.
      * cbn [app lock_discipline negb andb]. rewrite <- app_assoc.
        rewrite lock_discipline_sends. reflexivity.
      * cbn [app acks_to]. rewrite <- app_assoc.
        rewrite acks_to_sends by (rewrite E2; discriminate).
        cbn [app acks_to make_ack msg_type]. rewrite Z.eqb_refl. reflexivity.
    + destruct (msg_type msg =? TYPE_TERM); cbn [fst snd app orb];
        split; reflexivity.
Qed.

Lemma handle_client_trace s inputs : forall clients,
  lock_discipline false (trace (handle_client s inputs clients)) = true
  /\ acks_to s (trace (handle_client s inputs clients)) = requests_read inputs.
Proof.
  induction inputs as [|r inputs IH]; intros clients.
  - split; reflexivity.
  - destruct r as [msg|]; [|split; reflexivity].
    cbn [handle_client requests_read].
    destruct (dispatch_trace s msg clients
                (trace (handle_client s inputs
                          (fst (fst (dispatch s msg clients)))))) as [HL HA].
    pose proof (dispatch_trace s msg clients []) as [HL0 HA0].
    rewrite app_nil_r in HL0, HA0.
    unfold dispatch in *.
    destruct (Z.eqb_spec (msg_type msg) TYPE_SUBSCRIBE) as [E1|E1].
    + cbn [fst snd registry trace state] in *.
      replace (msg_type msg =? TYPE_TERM) with false
        by (rewrite E1; reflexivity).
      destruct (IH (subscribe_loop s msg clients)) as [IL IA].
      split; [rewrite HL; exact IL|rewrite HA, IA; reflexivity].
    + destruct (Z.eqb_spec (msg_type msg) TYPE_PUBLISH) as [E2|E2].
      * cbn [fst snd registry trace state] in *.
        replace (msg_type msg =? TYPE_TERM) with false
          by (rewrite E2; reflexivity).
        destruct (IH clients) as [IL IA].
        split; [rewrite HL; exact IL|rewrite HA, IA; reflexivity].
      * destruct (Z.eqb_spec (msg_type msg) TYPE_TERM) as [E3|E3].
        -- cbn [fst snd registry trace state] in *. split; reflexivity.
        -- cbn [fst snd registry trace state app orb] in *.
           destruct (IH clients) as [IL IA]. split; assumption.
Qed.

Lemma entry_kept_socks s l1 : forall l2,
  Forall2 (entry_kept s) l1 l2 -> map sock l2 = map sock l1.
Proof.
  induction l1 as [|a l1 IH]; intros l2 H; inversion H as [|? b ? l2' Hab H']; subst.
  - reflexivity.
  - cbn [map]. rewrite (IH l2' H'). destruct Hab as [-> _]. reflexivity.
Qed.

Lemma sends_without_lock_dispatch s msg clients tr :
  sends_without_lock false (snd (fst (dispatch s msg clients)) ++ tr) =
  sends_without_lock false tr.
Proof.
  unfold dispatch.
  destruct (msg_type msg =? TYPE_SUBSCRIBE); [reflexivity|].
  destruct (msg_type msg =? TYPE_PUBLISH).
  - cbn [fst snd]. rewrite publish_loop_sends.
    cbn [app sends_without_lock]. rewrite <- app_assoc.
    rewrite sends_without_lock_held_sends. reflexivity.
  - destruct (msg_type msg =? TYPE_TERM); reflexivity.
Qed.

Lemma handle_client_sends_locked s inputs : forall clients,
  sends_without_lock false (trace (handle_client s inputs clients)) = [].
Proof.
  induction inputs as [|r inputs IH]; intros clients; [reflexivity|].
  destruct r as [msg|]; [|reflexivity].
  cbn [handle_client].
  pose proof (sends_without_lock_dispatch s msg clients) as Hd.
  destruct (dispatch s msg clients) as [[clients' ev] [|]]; cbn [fst snd] in Hd.
  - cbn [trace]. rewrite Hd. apply IH.
  - cbn [trace]. specialize (Hd []). rewrite app_nil_r in Hd. exact Hd.
Qed.

Lemma acks_to_other_dispatch s s' msg clients tr :
  s' <> s ->
  acks_to s' (snd (fst (dispatch s msg clients)) ++ tr) = acks_to s' tr.
Proof.
  intros Hne. unfold dispatch.
  assert (Hs : (s =? s') = false) by (apply Z.eqb_neq; congruence).
  destruct (Z.eqb_spec (msg_type msg) TYPE_SUBSCRIBE) as [E1|E1].
  - cbn [fst snd app acks_to]. rewrite Hs. reflexivity.
  - destruct (Z.eqb_spec (msg_type msg) TYPE_PUBLISH) as [E2|E2].
    + cbn [fst snd]. rewrite publish_loop_sends.
      cbn [app acks_to]. rewrite <- app_assoc.
      rewrite acks_to_sends by (rewrite E2; discriminate).
      cbn [app acks_to]. rewrite Hs. reflexivity.
    + destruct (msg_type msg =? TYPE_TERM); reflexivity.
Qed.

Lemma handle_client_acks_other s s' inputs : forall clients,
  s' <> s -> acks_to s' (trace (handle_client s inputs clients)) = 0%nat.
Proof.
  intros clients Hne. revert clients.
  induction inputs as [|r inputs IH]; intros clients; [reflexivity|].
  destruct r as [msg|]; [|reflexivity].
  cbn [handle_client].
  pose proof (acks_to_other_dispatch s s' msg clients) as Hd.
  destruct (dispatch s msg clients) as [[clients' ev] [|]]; cbn [fst snd] in Hd.
  - cbn [trace]. rewrite Hd by assumption. apply IH.
  - cbn [trace]. specialize (Hd [] Hne). rewrite app_nil_r in Hd. exact Hd.
Qed.

Lemma count_occ_subscribe_loop s msg clients :
  count_occ Z.eq_dec
    (subscribers_of (topic_string msg) (subscribe_loop s msg clients)) s =
  count_occ Z.eq_dec (map sock clients) s.
Proof.
  unfold subscribers_of, subscribe_loop.
  induction clients as [|c clients IH]; [reflexivity|].
  cbn [map]. destruct (Z.eqb_spec (sock c) s) as [E|E].
  - cbn [filter subscribed topic andb]. rewrite bytes_eqb_refl.
    cbn [map sock]. rewrite !count_occ_cons_eq by exact E.
    f_equal. exact IH.
  - rewrite (count_occ_cons_neq _ _ E). cbn [filter].
    destruct (subscribed c && bytes_eqb (topic c) (topic_string msg)).
    + cbn [map]. rewrite (count_occ_cons_neq _ _ E). exact IH.
    + exact IH.
Qed.

(** X10. What a handler leaves of the vector [clients], whatever it
    receives: the vector has the same entries with the same sockets in the
    same order (nothing is added or removed, also not when the connection
    ends), the entries of other sockets are untouched, and an entry that was
    subscribed stays subscribed. *)
Theorem X10_handler_keeps_registry : forall clientSock inputs clients,
  Forall2 (entry_kept clientSock) clients
    (registry (handle_client clientSock inputs clients))
  /\ map sock (registry (handle_client clientSock inputs clients))
     = map sock clients.
Proof.
  intros s inputs clients.
  pose proof (handle_client_kept s inputs clients) as H.
  split; [exact H|]. apply (entry_kept_socks s), H.
Qed.

(** X11. The trace of a handler, whatever it receives: [clients_mtx] is
    taken and released in turn and is free at the end, every send is made
    while it is held, the number of acknowledgements sent to the
    handler's own socket is the number of SUBSCRIBE and PUBLISH frames read
    before the first TERMINATE frame or failed [recv], and no
    acknowledgement goes to another socket. *)
Theorem X11_handler_trace : forall clientSock inputs clients,
  let tr := trace (handle_client clientSock inputs clients) in
  lock_discipline false tr = true
  /\ sends_without_lock false tr = []
  /\ acks_to clientSock tr = requests_read inputs
  /\ forall s, s <> clientSock -> acks_to s tr = 0%nat.
Proof.
  intros s inputs clients tr. subst tr.
  destruct (handle_client_trace s inputs clients) as [HL HA].
  split; [exact HL|]. split; [apply handle_client_sends_locked|].
  split; [exact HA|]. intros s' Hne. apply handle_client_acks_other, Hne.
Qed.

Lemma frames_to_sends s (targets : list SOCKET) msg tr :
  msg_type msg <> TYPE_ACK ->
  frames_to s (map (fun t => Send t msg) targets ++ tr) =
  (count_occ Z.eq_dec targets s + frames_to s tr)%nat.
Proof.
  intros Hty. induction targets as [|t targets IH]; [reflexivity|].
  cbn [map app frames_to]. rewrite IH.
  destruct (Z.eqb_spec (msg_type msg) TYPE_ACK); [contradiction|]. cbn [negb].
  rewrite andb_true_r.
  destruct (Z.eqb_spec t s) as [E|E].
  - rewrite (count_occ_cons_eq _ _ E). reflexivity.
  - rewrite (count_occ_cons_neq _ _ E). reflexivity.
Qed.

(** The frames and the acknowledgements that the PUBLISH branch sends. *)
Lemma dispatch_publish_counts clientSock msg clients s :
  msg_type msg = TYPE_PUBLISH ->
  frames_to s (snd (fst (dispatch clientSock msg clients))) =
    count_occ Z.eq_dec (subscribers_of (topic_string msg) clients) s
  /\ acks_to s (snd (fst (dispatch clientSock msg clients))) =
     if s =? clientSock then 1%nat else 0%nat.
Proof.
  intros Hty. rewrite dispatch_publish by assumption. cbn [fst snd].
  assert (Hne : msg_type msg <> TYPE_ACK) by (rewrite Hty; discriminate).
  rewrite (Z.eqb_sym s clientSock). split.
  - cbn [app frames_to]. rewrite frames_to_sends by assumption.
    cbn [frames_to make_ack msg_type]. rewrite Z.eqb_refl, andb_false_r.
    apply Nat.add_0_r.
  - cbn [app acks_to]. rewrite acks_to_sends by assumption.
    cbn [acks_to make_ack msg_type]. rewrite Z.eqb_refl, andb_true_r.
    destruct (clientSock =? s); reflexivity.
Qed.

(** X3. Fan-out of the broker.  On a PUBLISH frame that holds a NUL from
    [topic] on, the broker sends to every socket as many copies of the
    frame as [clients] has entries with that socket that are subscribed to
    the topic of the frame (the string that the broker reads at
    [msg.topic]), the publisher's own entries included; it sends one
    acknowledgement, to the publisher, after them, and nothing else: so N
    subscribed entries give N frames and one acknowledgement, and none
    gives the acknowledgement alone.  Every frame sent on is the received
    frame itself, and [clients] is not changed. *)
Theorem X3_publish_fanout : forall clientSock msg clients,
  msg_type msg = TYPE_PUBLISH ->
  topic_terminated msg ->
  let tr := snd (fst (dispatch clientSock msg clients)) in
  let receivers := subscribers_of (topic_string msg) clients in
  (forall s, frames_to s tr = count_occ Z.eq_dec receivers s)
  /\ (forall s, acks_to s tr = if s =? clientSock then 1%nat else 0%nat)
  /\ (forall s m, In (Send s m) tr ->
        (m = msg /\ In s receivers) \/ (s = clientSock /\ m = make_ack msg))
  /\ (exists frames, tr = Lock :: frames ++ [Send clientSock (make_ack msg); Unlock]
                     /\ length frames = length receivers)
  /\ fst (fst (dispatch clientSock msg clients)) = clients.
Proof.
  intros clientSock msg clients Hty _ tr receivers. subst tr receivers.
  split; [intros s; apply dispatch_publish_counts, Hty|].
  split; [intros s; apply dispatch_publish_counts, Hty|].
  rewrite dispatch_publish by assumption. cbn [fst snd].
  split; [|split; [|reflexivity]].
  - intros s m H. apply in_app_or in H. destruct H as [[H|[]]|H]; [discriminate H|].
    apply in_app_or in H. destruct H as [H|H].
    + apply in_map_iff in H. destruct H as [x [Hx Hin]].
      injection Hx as -> ->. left. split; [reflexivity|exact Hin].
    + destruct H as [H|[H|[]]]; [|discriminate H].
      injection H as -> ->. right. split; reflexivity.
  - exists (map (fun s => Send s msg) (subscribers_of (topic_string msg) clients)).
    split; [reflexivity|apply length_map].
Qed.

Lemma X3_publish_fanout_witness :
  let a := {| sock := 4; topic := lit "weather"; subscribed := true |} in
  let b := {| sock := 5; topic := lit "alerts"; subscribed := true |} in
  let c := {| sock := 6; topic := lit "weather"; subscribed := true |} in
  let msg := frame TYPE_PUBLISH (lit "weather") (lit "c3Vubnk=") in
  let tr := snd (fst (dispatch 6 msg [a; b; c])) in
  frames_to 4 tr = 1%nat /\ frames_to 5 tr = 0%nat /\ frames_to 6 tr = 1%nat
  /\ acks_to 6 tr = 1%nat.
Proof.
  cbv zeta.
  pose proof (X3_publish_fanout 6
                (frame TYPE_PUBLISH (lit "weather") (lit "c3Vubnk="))
                [{| sock := 4; topic := lit "weather"; subscribed := true |};
                 {| sock := 5; topic := lit "alerts"; subscribed := true |};
                 {| sock := 6; topic := lit "weather"; subscribed := true |}]
                eq_refl
                ltac:(unfold topic_terminated; simpl; do 7 right; left; reflexivity))
    as [Hf [Ha _]].
  cbv zeta in Hf, Ha.
  rewrite (Hf 4), (Hf 5), (Hf 6), (Ha 6). repeat split.
Defined.

(** X12. SUBSCRIBE followed by PUBLISH: once the handler of a registered
    socket [s] has processed a SUBSCRIBE frame, a PUBLISH frame processed by
    any handler is sent to [s] exactly when its topic is the topic of the
    SUBSCRIBE frame, the topic of a frame being the string that the broker
    reads at [msg.topic]; both frames hold a NUL from [topic] on.  A topic
    that fills the 64 characters of the array is read on into
    [payload_len], so a PUBLISH frame with the same 64 characters and
    another payload length has another topic. *)
Theorem X12_subscribe_then_publish : forall s p sub pub clients,
  In s (map sock clients) ->
  msg_type sub = TYPE_SUBSCRIBE -> msg_type pub = TYPE_PUBLISH ->
  topic_terminated sub -> topic_terminated pub ->
  let clients' := fst (fst (dispatch s sub clients)) in
  (In (Send s pub) (snd (fst (dispatch p pub clients')))
   <-> topic_string pub = topic_string sub)
  /\ (~ In NUL (msg_topic pub) -> msg_topic sub = msg_topic pub ->
      to_uint32 (payload_len sub) = 0 -> 0 < to_uint32 (payload_len pub) < 256 ->
      ~ In (Send s pub) (snd (fst (dispatch p pub clients')))).
Proof.
  intros s p sub pub clients Hreg Hsub Hpub _ _ clients'. subst clients'.
  rewrite (dispatch_subscribe s sub clients Hsub). cbn [fst].
  rewrite (dispatch_publish p pub _ Hpub). cbn [fst snd].
  assert (Hiff : In (Send s pub)
                   ([Lock] ++ map (fun s0 => Send s0 pub)
                      (subscribers_of (topic_string pub) (subscribe_loop s sub clients))
                    ++ [Send p (make_ack pub); Unlock])
                 <-> topic_string pub = topic_string sub).
  { rewrite <- (subscribe_loop_own s sub clients (topic_string pub) Hreg).
    split.
    - intros H. apply in_app_or in H. destruct H as [[H|[]]|H]; [discriminate H|].
      apply in_app_or in H. destruct H as [H|H].
      + apply in_map_iff in H. destruct H as [x [Hx Hin]].
        injection Hx as ->. exact Hin.
      + destruct H as [H|[H|[]]]; [|discriminate H].
        exfalso. injection H as _ H.
        apply (f_equal msg_type) in H. cbn [make_ack msg_type] in H.
        rewrite Hpub in H. discriminate H.
    - intros H. apply in_or_app. right. apply in_or_app. left.
      apply in_map_iff. exists s. split; [reflexivity|exact H]. }
  split; [exact Hiff|].
  intros Hfull Htopic Hs0 Hp0 Hin. apply Hiff in Hin.
  unfold topic_string, from_topic in Hin. rewrite Htopic in Hin.
  rewrite (c_str_app_free (msg_topic pub)
             (int_bytes (payload_len pub) ++ content pub) Hfull) in Hin.
  rewrite (c_str_app_free (msg_topic pub)
             (int_bytes (payload_len sub) ++ content sub) Hfull) in Hin.
  apply app_inv_head in Hin.
  unfold int_bytes in Hin. rewrite Hs0 in Hin. cbv zeta in Hin.
  change (to_char 0) with NUL in Hin.
  cbn [app c_str] in Hin.
  destruct (Ascii.eqb_spec (to_char (to_uint32 (payload_len pub))) NUL) as [E|E].
  - apply (f_equal uchar) in E. rewrite uchar_to_char_mod in E.
    change (uchar NUL) with 0 in E. rewrite Z.mod_small in E by lia. lia.
  - rewrite Ascii.eqb_refl in Hin. discriminate Hin.
Qed.

Lemma X12_subscribe_then_publish_witness :
  let clients := accept_client 5 (accept_client 4 []) in
  let sub := frame TYPE_SUBSCRIBE (lit "weather") [] in
  let pub := frame TYPE_PUBLISH (lit "weather") (lit "c3Vubnk=") in
  In (Send 4 pub) (snd (fst (dispatch 5 pub (fst (fst (dispatch 4 sub clients)))))).
Proof.
  cbv zeta.
  apply (proj1 (X12_subscribe_then_publish 4 5
           (frame TYPE_SUBSCRIBE (lit "weather") [])
           (frame TYPE_PUBLISH (lit "weather") (lit "c3Vubnk="))
           (accept_client 5 (accept_client 4 []))
           ltac:(simpl; left; reflexivity) eq_refl eq_refl
           ltac:(unfold topic_terminated; simpl; do 7 right; left; reflexivity)
           ltac:(unfold topic_terminated; simpl; do 7 right; left; reflexivity))).
  reflexivity.
Defined.

(** X13. One copy per entry: once the handler of socket [s] has processed
    a SUBSCRIBE frame, the handler of any socket that processes a PUBLISH
    frame with the same topic sends the frame to [s] once for every entry
    of [clients] that holds the socket number [s] (both frames hold a NUL
    from [topic] on).  Every accepted connection adds an entry and none is
    ever removed, so a socket number that [accept] returns again after the
    earlier connection was closed receives every frame twice. *)
Theorem X13_one_copy_per_entry : forall s p sub pub clients,
  msg_type sub = TYPE_SUBSCRIBE -> msg_type pub = TYPE_PUBLISH ->
  topic_terminated sub -> topic_terminated pub ->
  topic_string pub = topic_string sub ->
  let clients' := fst (fst (dispatch s sub clients)) in
  frames_to s (snd (fst (dispatch p pub clients')))
  = count_occ Z.eq_dec (map sock clients) s
  /\ count_occ Z.eq_dec (map sock (accept_client s clients)) s
     = S (count_occ Z.eq_dec (map sock clients) s).
Proof.
  intros s p sub pub clients Hsub Hpub _ _ Htopic clients'. subst clients'.
  rewrite (dispatch_subscribe s sub clients Hsub). cbn [fst]. split.
  - rewrite (proj1 (dispatch_publish_counts p pub _ s Hpub)), Htopic.
    apply count_occ_subscribe_loop.
  - unfold accept_client. rewrite map_app, count_occ_app.
    cbn [map sock]. rewrite count_occ_cons_eq by reflexivity.
    rewrite count_occ_nil, Nat.add_1_r. reflexivity.
Qed.

Lemma X13_one_copy_per_entry_witness :
  let sub := frame TYPE_SUBSCRIBE (lit "weather") [] in
  let pub := frame TYPE_PUBLISH (lit "weather") (lit "c3Vubnk=") in
  let clients :=
    accept_client 4 (registry (handle_client 4 [NoData] (accept_client 4 []))) in
  frames_to 4 (snd (fst (dispatch 5 pub (fst (fst (dispatch 4 sub clients))))))
  = 2%nat.
Proof.
  cbv zeta.
  rewrite (proj1 (X13_one_copy_per_entry 4 5
                    (frame TYPE_SUBSCRIBE (lit "weather") [])
                    (frame TYPE_PUBLISH (lit "weather") (lit "c3Vubnk="))
                    (accept_client 4
                       (registry (handle_client 4 [NoData] (accept_client 4 []))))
                    eq_refl eq_refl
                    ltac:(unfold topic_terminated; simpl; do 7 right; left; reflexivity)
                    ltac:(unfold topic_terminated; simpl; do 7 right; left; reflexivity)
                    eq_refl)).
  reflexivity.
Defined.

Lemma strncpy_full (a : bytes) :
  ~ In NUL a -> strncpy (length a) a = a.
Proof.
  intros Hn. unfold strncpy. rewrite (c_str_fixed a Hn).
  rewrite firstn_app, Nat.sub_diag, firstn_all. cbn [firstn]. apply app_nil_r.
Qed.

Lemma strncpy_short n (a : bytes) :
  In NUL a -> (length a <= n)%nat ->
  exists fill : bytes, strncpy n a = c_str a ++ NUL :: fill.
Proof.
  intros Hin Hlen. unfold strncpy.
  pose proof (c_str_length_lt a Hin) as Hlt.
  rewrite firstn_app, firstn_all2 by lia.
  destruct (n - length (c_str a))%nat as [|k] eqn:Ek; [lia|].
  destruct n as [|n]; [lia|].
  cbn [repeat firstn]. eexists. reflexivity.
Qed.

(** X14. The acknowledgement names the request.  For a frame whose [topic]
    array has its [TOPIC_LEN] characters, the string at [ack.topic] ends
    inside the acknowledgement and is the string that the broker reads at
    [msg.topic], cut at [TOPIC_LEN] characters: the same string when the
    array [topic] of the frame holds a NUL, and its first [TOPIC_LEN]
    characters when the broker read the topic of the frame on into
    [payload_len] and [content]. *)
Theorem X14_ack_names_topic : forall msg,
  length (msg_topic msg) = TOPIC_LEN ->
  topic_terminated (make_ack msg)
  /\ topic_string (make_ack msg) = firstn TOPIC_LEN (topic_string msg)
  /\ (In NUL (msg_topic msg) -> topic_string (make_ack msg) = topic_string msg)
  /\ (~ In NUL (msg_topic msg) -> topic_string (make_ack msg) = msg_topic msg).
Proof.
  intros msg Hlen.
  assert (Hfree : ~ In NUL (msg_topic msg) ->
                  from_topic (make_ack msg)
                  = msg_topic msg ++ NUL :: repeat NUL (3 + MSG_LEN)).
  { intros Hn. unfold from_topic, make_ack.
    cbn [msg_topic payload_len content]. rewrite <- Hlen, (strncpy_full _ Hn).
    reflexivity. }
  assert (Hnul : In NUL (msg_topic msg) ->
                 exists k, from_topic (make_ack msg)
                           = c_str (msg_topic msg) ++ NUL :: k).
  { intros Hin. unfold from_topic, make_ack.
    cbn [msg_topic payload_len content].
    destruct (strncpy_short TOPIC_LEN (msg_topic msg) Hin) as [k Ek]; [lia|].
    rewrite Ek. eexists. rewrite <- app_assoc. reflexivity. }
  destruct (in_dec ascii_dec NUL (msg_topic msg)) as [Hin|Hn].
  - destruct (Hnul Hin) as [k Ek].
    assert (Hs : topic_string (make_ack msg) = topic_string msg).
    { unfold topic_string at 1. rewrite Ek.
      rewrite c_str_terminated by apply c_str_no_NUL.
      symmetry. apply topic_string_array, Hin. }
    split; [|split; [|split]].
    + unfold topic_terminated. rewrite Ek. apply in_or_app. right. left. reflexivity.
    + rewrite Hs. symmetry. apply firstn_all2.
      rewrite (topic_string_array msg Hin).
      pose proof (c_str_length_lt _ Hin). lia.
    + intros _. exact Hs.
    + intros Hn. contradiction.
  - assert (Hs : topic_string (make_ack msg) = msg_topic msg).
    { unfold topic_string. rewrite (Hfree Hn). apply c_str_terminated, Hn. }
    split; [|split; [|split]].
    + unfold topic_terminated. rewrite (Hfree Hn). apply in_or_app. right. left.
      reflexivity.
    + rewrite Hs. unfold topic_string, from_topic.
      rewrite c_str_app_free by assumption.
      rewrite firstn_app, <- Hlen, Nat.sub_diag, firstn_all. cbn [firstn].
      symmetry. apply app_nil_r.
    + intros Hin. contradiction.
    + intros _. exact Hs.
Qed.

Lemma X14_ack_names_topic_witness :
  topic_string (make_ack (frame TYPE_PUBLISH (lit "weather") (lit "c3Vubnk=")))
  = topic_string (frame TYPE_PUBLISH (lit "weather") (lit "c3Vubnk=")).
Proof.
  apply (proj1 (proj2 (proj2
           (X14_ack_names_topic
              (frame TYPE_PUBLISH (lit "weather") (lit "c3Vubnk=")) eq_refl)))).
  simpl. do 7 right. left. reflexivity.
Defined.

(** ** Further properties of the Base64 transcoder of client.cpp *)

Lemma decode_loop_app (s : bytes) : forall t : bytes,
  Z.of_nat (length s) mod 4 = 0 ->
  Client.decode_loop (s ++ t) =
  match Client.decode_loop s, Client.decode_loop t with
  | Some x, Some y => Some (x ++ y)
  | _, _ => None
  end.
Proof.
  induction s as [|a|a b|a b c|a b c d rest IH] using bytes_ind4; intros t Hlen.
  - cbn [app Client.decode_loop]. destruct (Client.decode_loop t); reflexivity.
  - discriminate Hlen.
  - discriminate Hlen.
  - discriminate Hlen.
  - assert (Hrest : Z.of_nat (length rest) mod 4 = 0).
    { cbn [length] in Hlen. rewrite !Nat2Z.inj_succ in Hlen. div_lia. }
    cbn [app Client.decode_loop]. rewrite (IH t Hrest).
    destruct (decode_group a b c d) as [g|]; [|reflexivity].
    destruct (Client.decode_loop rest) as [x|]; [|reflexivity].
    destruct (Client.decode_loop t) as [y|]; [|reflexivity].
    rewrite app_assoc. reflexivity.
Qed.

Lemma b64_decode_app (s t : bytes) :
  Z.of_nat (length s) mod 4 = 0 ->
  b64_decode (s ++ t) =
  match b64_decode s, b64_decode t with
  | Some x, Some y => Some (x ++ y)
  | _, _ => None
  end.
Proof.
  intros Hlen. unfold b64_decode. rewrite length_app, Nat2Z.inj_add.
  replace ((Z.of_nat (length s) + Z.of_nat (length t)) mod 4)
    with (Z.of_nat (length t) mod 4) by div_lia.
  rewrite Hlen. cbn [Z.eqb negb].
  destruct (Z.eqb_spec (Z.of_nat (length t) mod 4) 0) as [Ht|Ht]; cbn [negb].
  - apply decode_loop_app, Hlen.
  - destruct (Client.decode_loop s); reflexivity.
Qed.

Lemma b64_encode_length_mod d : Z.of_nat (length (b64_encode d)) mod 4 = 0.
Proof. rewrite b64_encode_length. div_lia. Qed.

Lemma b64_decode_encode d : b64_decode (b64_encode d) = Some d.
Proof.
  unfold b64_decode. rewrite b64_encode_length_mod. cbn [Z.eqb negb].
  apply decode_loop_encode.
Qed.

Lemma b64_encode_app (a : bytes) : forall b : bytes,
  (length a mod 3 = 0)%nat ->
  b64_encode (a ++ b) = b64_encode a ++ b64_encode b.
Proof.
  induction a as [|x|x y|x y z rest IH] using bytes_ind3; intros b Hlen.
  - reflexivity.
  - discriminate Hlen.
  - discriminate Hlen.
  - assert (Hrest : (length rest mod 3 = 0)%nat).
    { change (length (x :: y :: z :: rest)) with (3 + length rest)%nat in Hlen.
      replace (3 + length rest)%nat with (length rest + 1 * 3)%nat in Hlen by lia.
      rewrite Nat.Div0.mod_add in Hlen. exact Hlen. }
    change ((x :: y :: z :: rest) ++ b) with (x :: y :: z :: rest ++ b).
    rewrite !b64_encode_step, (IH b Hrest), app_assoc. reflexivity.
Qed.

Lemma REV_254 c : REV c = 254 -> c = PAD.
Proof.
  rewrite REV_cases. destruct (in_alphabet c) eqn:Ha.
  - pose proof (REV_alphabet_range c Ha). lia.
  - destruct (Ascii.eqb_spec c PAD); [auto|discriminate].
Qed.

Lemma decode_group_length i0 i1 i2 i3 g :
  decode_group i0 i1 i2 i3 = Some g ->
  (1 <= length g <= 3)%nat
  /\ (i2 <> PAD -> i3 <> PAD -> length g = 3%nat).
Proof.
  unfold decode_group.
  destruct ((REV i0 =? 255) || (REV i1 =? 255) || (REV i2 =? 255) || (REV i3 =? 255));
    [discriminate|].
  destruct (Z.eqb_spec (REV i2) 254) as [E2|E2]; cbn [negb].
  - match goal with |- Some [?x] = _ -> _ => generalize x end.
    intros x H. injection H as <-. cbn [length]. split; [lia|].
    intros H2. exfalso. apply H2, REV_254, E2.
  - destruct (Z.eqb_spec (REV i3) 254) as [E3|E3]; cbn [negb].
    + match goal with |- Some ([?x] ++ [?y]) = _ -> _ => generalize x, y end.
      intros x y H. injection H as <-. cbn [length app]. split; [lia|].
      intros _ H3. exfalso. apply H3, REV_254, E3.
    + match goal with
      | |- Some (([?x] ++ [?y]) ++ [?z]) = _ -> _ => generalize x, y, z
      end.
      intros x y z H. injection H as <-. cbn [length app].
      split; [lia|reflexivity].
Qed.

Lemma decode_loop_length (s : bytes) : forall out,
  Client.decode_loop s = Some out ->
  (length s <= 4 * length out)%nat
  /\ (4 * length out <= 3 * length s)%nat
  /\ (~ In PAD s -> (4 * length out = 3 * length s)%nat).
Proof.
  induction s as [|a|a b|a b c|a b c d rest IH] using bytes_ind4; intros out H;
    try discriminate H.
  - injection H as <-. cbn [length]. repeat split; lia.
  - cbn [Client.decode_loop] in H.
    destruct (decode_group a b c d) as [g|] eqn:Eg; [|discriminate H].
    destruct (Client.decode_loop rest) as [x|] eqn:Ex; [|discriminate H].
    injection H as <-.
    destruct (decode_group_length _ _ _ _ _ Eg) as [Hg Hg3].
    destruct (IH x eq_refl) as [I1 [I2 I3]].
    rewrite length_app. cbn [length]. split; [lia|]. split; [lia|].
    intros Hn.
    assert (Hc : c <> PAD) by (intros ->; apply Hn; cbn; auto).
    assert (Hd : d <> PAD) by (intros ->; apply Hn; cbn; auto).
    assert (Hr : ~ In PAD rest) by (intros Hin; apply Hn; cbn; auto).
    rewrite (Hg3 Hc Hd). specialize (I3 Hr). lia.
Qed.

(** X15. Texts decode piece by piece: for a text [s] whose length is a
    multiple of 4, [b64_decode] returns [true] on [s] followed by [t]
    exactly when it does on [s] and on [t], and the bytes are then those of
    [s] followed by those of [t].  So the encodings of two inputs written
    one after the other decode to the two inputs, padding in the middle
    included. *)
Theorem X15_b64_decode_concat : forall s t : bytes,
  Z.of_nat (length s) mod 4 = 0 ->
  b64_decode (s ++ t) =
    match b64_decode s, b64_decode t with
    | Some x, Some y => Some (x ++ y)
    | _, _ => None
    end
  /\ forall a b : bytes,
       s = b64_encode a -> t = b64_encode b -> b64_decode (s ++ t) = Some (a ++ b).
Proof.
  intros s t Hlen. split; [apply b64_decode_app, Hlen|].
  intros a b -> ->. rewrite b64_decode_app by assumption.
  rewrite !b64_decode_encode. reflexivity.
Qed.

Lemma X15_b64_decode_concat_witness :
  b64_decode (lit "c3U=" ++ lit "bm55") = Some (lit "su" ++ lit "nny").
Proof.
  apply (proj2 (X15_b64_decode_concat (lit "c3U=") (lit "bm55") eq_refl)
           (lit "su") (lit "nny")); reflexivity.
Defined.

(** X16. Encoding in pieces: when the length of [a] is a multiple of 3,
    [b64_encode] of [a] followed by [b] is the encoding of [a] followed by
    the encoding of [b]; a long input can be encoded three bytes at a
    time. *)
Theorem X16_b64_encode_append : forall a b : bytes,
  (length a mod 3 = 0)%nat ->
  b64_encode (a ++ b) = b64_encode a ++ b64_encode b.
Proof.
  intros a b Hlen. apply b64_encode_app, Hlen.
Qed.

Lemma X16_b64_encode_append_witness :
  b64_encode (lit "sun" ++ lit "ny") = b64_encode (lit "sun") ++ b64_encode (lit "ny").
Proof.
  apply (X16_b64_encode_append (lit "sun") (lit "ny")). reflexivity.
Defined.

(** X17. The size of what [b64_decode] returns: when it returns [true] on
    a text of [4 g] characters, [out] holds at least [g] and at most [3 g]
    bytes, so never more than [out.reserve((in.size()/4)*3)] has set
    aside, and exactly [3 g] bytes when the text has no ['=']. *)
Theorem X17_b64_decode_length : forall s out : bytes,
  b64_decode s = Some out ->
  (length s <= 4 * length out)%nat
  /\ (length out <= length s / 4 * 3)%nat
  /\ (~ In PAD s -> length out = (length s / 4 * 3)%nat).
Proof.
  intros s out H. unfold b64_decode in H.
  destruct (Z.eqb_spec (Z.of_nat (length s) mod 4) 0) as [Hm|Hm];
    [|discriminate H].
  cbn [negb] in H. destruct (decode_loop_length s out H) as [H1 [H2 H3]].
  assert (Hq : (length s = 4 * (length s / 4))%nat).
  { pose proof (Nat.div_mod_eq (length s) 4) as Hd.
    assert (Hz : (length s mod 4 = 0)%nat).
    { apply Nat2Z.inj. rewrite Nat2Z.inj_mod. exact Hm. }
    lia. }
  split; [exact H1|]. split; [lia|].
  intros Hn. specialize (H3 Hn). lia.
Qed.

Lemma X17_b64_decode_length_witness :
  (length (lit "c3Vubnk=") <= 4 * length (lit "sunny"))%nat
  /\ (length (lit "sunny") <= length (lit "c3Vubnk=") / 4 * 3)%nat
  /\ (~ In PAD (lit "c3Vubnk=") ->
      length (lit "sunny") = (length (lit "c3Vubnk=") / 4 * 3)%nat).
Proof.
  apply (X17_b64_decode_length (lit "c3Vubnk=") (lit "sunny")). reflexivity.
Defined.

(** ** The receive loop of a subscriber *)

Import Subscriber.

Lemma receive_loop_packets (tail : bytes) :
  (forall sch, fst (recv_packet_tcp {| schedule := sch; incoming := tail |}) = NoPacket) ->
  forall packets sch fuel,
    Forall fits_header packets -> no_recv_failure sch ->
    (length packets < fuel)%nat ->
    receive_loop fuel {| schedule := sch;
                         incoming := packets_on_wire packets ++ tail |} =
    Some (flat_map (fun p => on_packet (fst (fst p)) (snd (fst p)) (snd p)) packets
          ++ [ServerClosed]).
Proof.
  intros Htail packets.
  induction packets as [|[[ty tp] pl] packets IH]; intros sch fuel Hfit Hno Hfuel.
  - destruct fuel as [|fuel]; [cbn [length] in Hfuel; lia|].
    cbn [packets_on_wire flat_map app receive_loop].
    specialize (Htail sch).
    destruct (recv_packet_tcp {| schedule := sch; incoming := tail |}) as [pk c'].
    cbn [fst] in Htail. subst pk. reflexivity.
  - destruct fuel as [|fuel]; [cbn [length] in Hfuel; lia|].
    inversion Hfit as [|? ? [Hty [Ht Hp]] Hfit']; subst.
    cbn [fst snd] in Hty, Ht, Hp.
    change (packets_on_wire ((ty, tp, pl) :: packets))
      with (send_packet_tcp ty tp pl ++ packets_on_wire packets).
    rewrite <- app_assoc. cbn [receive_loop].
    destruct (recv_packet_tcp_complete sch ty tp pl
                (packets_on_wire packets ++ tail) Hno Hty Ht Hp)
      as [sch' [E Hno']].
    rewrite E. rewrite (IH sch' fuel Hfit' Hno') by (cbn [length] in Hfuel; lia).
    cbn [flat_map fst snd]. rewrite app_assoc. reflexivity.
Qed.

(** X18. The receive loop of a subscriber over TCP: when the bytes of a
    sequence of packets arrive, followed by a proper prefix of one more
    packet (or by nothing) before the server closes, the loop handles the
    whole packets one by one, in order, however the stream is cut into
    pieces, drops the incomplete packet and ends with the notice that the
    server closed.  For a packet of type MSG it prints topic, payload and
    the text that [b64_decode] gives, or the decode error when
    [b64_decode] returns [false]; the text is the encoded text when
    [b64_encode] made the payload.  For a packet of type ACK it notes an
    acknowledgement, and for a packet of any other type it prints
    nothing. *)
Theorem X18_subscriber_receives_in_order :
  forall packets sch fuel ty (tp pl : bytes) k,
    Forall fits_header packets -> fits_header (ty, tp, pl) ->
    no_recv_failure sch ->
    (length packets < fuel)%nat ->
    (k < length (send_packet_tcp ty tp pl))%nat ->
    receive_loop fuel
      {| schedule := sch;
         incoming := packets_on_wire packets ++ firstn k (send_packet_tcp ty tp pl) |}
    = Some (flat_map (fun p => on_packet (fst (fst p)) (snd (fst p)) (snd p)) packets
            ++ [ServerClosed])
    /\ (forall topic payload : bytes,
          on_packet MSG topic payload = [Received topic payload (b64_decode payload)])
    /\ (forall topic text : bytes,
          on_packet MSG topic (b64_encode text)
          = [Received topic (b64_encode text) (Some text)])
    /\ (forall topic payload : bytes, on_packet ACK topic payload = [UnsolicitedAck])
    /\ (forall type (topic payload : bytes),
          type <> MSG -> type <> ACK -> on_packet type topic payload = []).
Proof.
  intros packets sch fuel ty tp pl k Hfit [Hty [Ht Hp]] Hno Hfuel Hk.
  cbn [fst snd] in Hty, Ht, Hp. split; [|split; [|split; [|split]]].
  - apply receive_loop_packets; try assumption.
    intros sch0. apply recv_packet_tcp_truncated; assumption.
  - reflexivity.
  - intros topic text. unfold on_packet. cbn [Z.eqb MSG Pos.eqb].
    rewrite b64_decode_encode. reflexivity.
  - reflexivity.
  - intros type topic payload H1 H2. unfold on_packet.
    destruct (Z.eqb_spec type MSG); [contradiction|].
    destruct (Z.eqb_spec type ACK); [contradiction|reflexivity].
Qed.

Lemma X18_subscriber_receives_in_order_witness :
  receive_loop 3
    {| schedule := [Chunk 4; RecvInterrupted; Chunk 0];
       incoming :=
         packets_on_wire [(MSG, lit "weather", b64_encode (lit "sunny"));
                          (ACK, lit "weather", [])]
         ++ firstn 15 (send_packet_tcp MSG (lit "weather") (lit "c3Vubnk=")) |}
  = Some [Received (lit "weather") (lit "c3Vubnk=") (Some (lit "sunny"));
          UnsolicitedAck; ServerClosed].
Proof.
  rewrite (proj1 (X18_subscriber_receives_in_order
                    [(MSG, lit "weather", b64_encode (lit "sunny"));
                     (ACK, lit "weather", [])]
                    [Chunk 4; RecvInterrupted; Chunk 0] 3
                    MSG (lit "weather") (lit "c3Vubnk=") 15
                    ltac:(repeat constructor; vm_compute; congruence)
                    ltac:(repeat split; vm_compute; congruence)
                    ltac:(repeat constructor; discriminate)
                    ltac:(vm_compute; lia)
                    ltac:(vm_compute; lia))).
  reflexivity.
Defined.

(** ** The echo variant: the messages between client.c and server.c *)

Import Wire.

Lemma strlen_from_app (p tail : block) : forall k n,
  strlen_from p k = Some n -> strlen_from (p ++ tail) k = Some n.
Proof.
  induction p as [|x p IH]; intros k n H; [discriminate H|].
  destruct x as [c|]; [|discriminate H].
  cbn [app strlen_from] in H |- *.
  destruct (Ascii.eqb c NUL); [exact H|apply IH, H].
Qed.

Lemma load_app_l (p tail : block) i c :
  load p i = Some c -> load (p ++ tail) i = Some c.
Proof.
  unfold load. destruct (i <? 0); [discriminate|].
  destruct (nth_error p (Z.to_nat i)) as [x|] eqn:E; [|discriminate].
  intros H. rewrite nth_error_app1.
  - rewrite E. exact H.
  - apply nth_error_Some. rewrite E. discriminate.
Qed.

Ltac load_step H :=
  match type of H with
  | bind (load ?p ?i) _ = Some _ =>
      let L := fresh "L" in
      destruct (load p i) eqn:L; [|discriminate H];
      rewrite (load_app_l _ _ _ _ L); rewrite bind_Some in H |- *
  | bind ?e _ = Some _ =>
      destruct e; [|discriminate H]; rewrite bind_Some in H |- *
  end.

(** The loop of [base64_decode] reads nothing but the cells it is defined
    on: bytes that follow in memory do not change what it does. *)
Lemma decode_loop_app_tail (p tail : block) fuel : forall input_len output_len i output r,
  decode_loop fuel p input_len output_len i output = Some r ->
  decode_loop fuel (p ++ tail) input_len output_len i output = Some r.
Proof.
  induction fuel as [|fuel IH]; intros input_len output_len i output r H.
  - exact H.
  - cbn [decode_loop] in H |- *.
    destruct (i <? input_len); [|exact H].
    do 9 load_step H.
    apply IH, H.
Qed.

Lemma base64_decode_app (p tail out : block) :
  base64_decode p = Some out -> base64_decode (p ++ tail) = Some out.
Proof.
  unfold base64_decode, strlen. intros H.
  destruct (strlen_from p 0) as [n|] eqn:En; [|discriminate H].
  rewrite (strlen_from_app p tail 0 n En). rewrite bind_Some in H |- *.
  do 2 load_step H.
  match type of H with
  | bind (decode_loop ?f _ ?a ?b ?c ?d) _ = Some _ =>
      destruct (decode_loop f p a b c d) as [o|] eqn:Ed; [|discriminate H];
      rewrite (decode_loop_app_tail p tail f a b c d o Ed)
  end.
  exact H.
Qed.

Lemma strncpy_c_string (n : nat) : forall s : bytes,
  ~ In NUL s ->
  strncpy n (c_string s) =
  if (length s <? n)%nat
  then Some (c_string s ++ repeat (Some NUL) (n - length s - 1))
  else Some (map Some (firstn n s)).
Proof.
  induction n as [|n IH]; intros s Hn.
  - reflexivity.
  - destruct s as [|c s].
    + cbn [c_string map app strncpy length Nat.ltb Nat.leb].
      rewrite Ascii.eqb_refl. cbn [Nat.sub repeat app].
      rewrite Nat.sub_0_r. reflexivity.
    + change (c_string (c :: s)) with (Some c :: c_string s).
      cbn [strncpy].
      destruct (Ascii.eqb_spec c NUL) as [E|E];
        [exfalso; apply Hn; left; exact E|].
      rewrite IH by (intros H; apply Hn; right; exact H).
      change (length (c :: s) <? S n)%nat with (length s <? n)%nat.
      destruct (length s <? n)%nat; reflexivity.
Qed.

Lemma read_string_c_string (s : bytes) (tail : block) :
  ~ In NUL s -> read_string (c_string s ++ tail) = Some s.
Proof.
  induction s as [|c s IH]; intros Hn.
  - reflexivity.
  - change (c_string (c :: s) ++ tail) with (Some c :: (c_string s ++ tail)).
    cbn [read_string].
    destruct (Ascii.eqb_spec c NUL) as [E|E];
      [exfalso; apply Hn; left; exact E|].
    rewrite IH by (intros H; apply Hn; right; exact H). reflexivity.
Qed.

Lemma read_string_unterminated (s : bytes) :
  ~ In NUL s -> read_string (map Some s) = None.
Proof.
  induction s as [|c s IH]; intros Hn.
  - reflexivity.
  - cbn [map read_string].
    destruct (Ascii.eqb_spec c NUL) as [E|E];
      [exfalso; apply Hn; left; exact E|].
    rewrite IH by (intros H; apply Hn; right; exact H). reflexivity.
Qed.

Lemma strlen_unterminated (s : bytes) :
  ~ In NUL s -> strlen (map Some s) = None.
Proof.
  unfold strlen. generalize 0.
  induction s as [|c s IH]; intros k Hn.
  - reflexivity.
  - cbn [map strlen_from].
    destruct (Ascii.eqb_spec c NUL) as [E|E];
      [exfalso; apply Hn; left; exact E|].
    apply IH. intros H. apply Hn. right. exact H.
Qed.

Lemma In_firstn (n : nat) (c : ascii) (s : bytes) : In c (firstn n s) -> In c s.
Proof.
  revert s. induction n as [|n IH]; intros [|x s] H; try contradiction.
  cbn [firstn] in H. destruct H as [H|H]; [left; exact H|right; apply IH, H].
Qed.

(** What [send_message] puts into [msg.content] for a line of [s]. *)
Lemma send_message_c_string (s : bytes) :
  ~ In NUL s -> Z.of_nat (length s) < 2 ^ 60 ->
  send_message (c_string s) =
  Some {| type := TYPE_DATA;
          content :=
            if (length (b64_encode s) <? MSG_LEN)%nat
            then c_string (b64_encode s)
                 ++ repeat (Some NUL) (MSG_LEN - length (b64_encode s) - 1)
            else map Some (firstn MSG_LEN (b64_encode s)) |}.
Proof.
  intros Hn Hb. unfold send_message.
  rewrite (base64_encode_spec s Hn Hb).
  rewrite strncpy_c_string by apply NUL_not_in_b64_encode.
  destruct (length (b64_encode s) <? MSG_LEN)%nat; reflexivity.
Qed.

Lemma load_inside_nonneg (before p : block) i :
  0 <= i -> load_inside before p i = load p i.
Proof.
  intros Hi. unfold load_inside. destruct (Z.ltb_spec i 0); [lia|reflexivity].
Qed.

Lemma load_inside_nil (p : block) i : load_inside [] p i = load p i.
Proof.
  unfold load_inside, load. destruct (Z.ltb_spec i 0); [|reflexivity].
  destruct (- i - 1 <? 0); [reflexivity|].
  destruct (Z.to_nat (- i - 1)); reflexivity.
Qed.

(** On a pointer with nothing before it [base64_decode_inside] is
    [base64_decode]. *)
Lemma base64_decode_inside_nil (input : block) :
  base64_decode_inside [] input = base64_decode input.
Proof.
  unfold base64_decode_inside, base64_decode.
  destruct (strlen input) as [n|]; [|reflexivity].
  rewrite !bind_Some, !load_inside_nil. reflexivity.
Qed.

(** So it is on a string of two characters or more, whatever lies before
    the pointer. *)
Lemma base64_decode_inside_long (before input : block) n :
  strlen input = Some n -> 2 <= n ->
  base64_decode_inside before input = base64_decode input.
Proof.
  intros Hs Hn. unfold base64_decode_inside, base64_decode.
  rewrite Hs, !bind_Some. rewrite !load_inside_nonneg by lia. reflexivity.
Qed.

Lemma strlen_c_string_app (s : bytes) (tail : block) :
  ~ In NUL s -> strlen (c_string s ++ tail) = Some (Z.of_nat (length s)).
Proof.
  intros Hn. apply strlen_from_app. apply strlen_c_string, Hn.
Qed.

(** What the handler does with a structure whose [content] holds the
    encoding of [s]: of a line that is not empty, and of the empty line in
    a structure of type [TYPE_DATA], where the two bytes before [content]
    are the high bytes of [msg.type]. *)
Lemma handle_data_encoded (s : bytes) (tail : block) ty :
  s <> [] -> ~ In NUL s -> Z.of_nat (length s) < 2 ^ 60 ->
  handle_data {| type := ty; content := c_string (b64_encode s) ++ tail |}
  = Some (echo_of s).
Proof.
  intros Hne Hn Hb. unfold handle_data. cbn [content].
  rewrite read_string_c_string by apply NUL_not_in_b64_encode.
  rewrite (base64_decode_inside_long _ _ (Z.of_nat (length (b64_encode s)))).
  - rewrite (base64_decode_app _ tail _ (base64_decode_spec s Hne Hb)).
    rewrite <- (app_nil_r (c_string s)).
    rewrite read_string_c_string by assumption. reflexivity.
  - apply strlen_c_string_app, NUL_not_in_b64_encode.
  - rewrite b64_encode_length.
    assert (0 < Z.of_nat (length s)) by (destruct s; [congruence|cbn [length]; lia]).
    div_lia.
Qed.

Lemma handle_data_empty (tail : block) :
  handle_data {| type := TYPE_DATA; content := c_string [] ++ tail |}
  = Some (echo_of []).
Proof. reflexivity. Qed.

Lemma b64_encode_fits (s : bytes) :
  (length s <= 765)%nat <-> (length (b64_encode s) < MSG_LEN)%nat.
Proof.
  pose proof (b64_encode_length s) as Hl. unfold MSG_LEN.
  split; intros H.
  - apply Nat2Z.inj_lt. rewrite Hl.
    assert (Z.of_nat (length s) <= 765) by lia. div_lia.
  - apply Nat2Z.inj_lt in H. rewrite Hl in H.
    apply Nat2Z.inj_le. div_lia.
Qed.

Lemma sendable_message (s : bytes) :
  sendable s ->
  send_message (c_string s) =
  Some {| type := TYPE_DATA;
          content := c_string (b64_encode s)
                     ++ repeat (Some NUL) (MSG_LEN - length (b64_encode s) - 1) |}.
Proof.
  intros [Hn Hlen].
  rewrite send_message_c_string by (assumption || lia).
  apply b64_encode_fits in Hlen. apply Nat.ltb_lt in Hlen. rewrite Hlen.
  reflexivity.
Qed.

Lemma sendable_handled (s : bytes) msg :
  sendable s -> send_message (c_string s) = Some msg ->
  type msg = TYPE_DATA /\ handle_data msg = Some (echo_of s).
Proof.
  intros Hs E. rewrite (sendable_message s Hs) in E. injection E as <-.
  destruct Hs as [Hn Hlen]. split; [reflexivity|].
  destruct s as [|c s].
  - apply handle_data_empty.
  - apply handle_data_encoded; (assumption || discriminate || lia).
Qed.

Lemma handle_tcp_client_lines (tail : list received) (after : list event) :
  handle_tcp_client tail = Some after ->
  forall ss msgs,
    Forall sendable ss ->
    Forall2 (fun s m => send_message (c_string s) = Some m) ss msgs ->
    handle_tcp_client (map Data msgs ++ tail) = Some (flat_map echo_of ss ++ after).
Proof.
  intros Htail ss. induction ss as [|s ss IH]; intros msgs Hss H2.
  - inversion H2; subst. exact Htail.
  - inversion H2 as [|? m ? msgs' Hm H2']; subst.
    inversion Hss as [|? ? Hs Hss']; subst.
    destruct (sendable_handled s m Hs Hm) as [Hty Hd].
    cbn [map app handle_tcp_client]. rewrite Hty. cbn [Z.eqb TYPE_DATA Pos.eqb].
    rewrite Hd, (IH msgs' Hss' H2').
    cbn [flat_map]. rewrite app_assoc. reflexivity.
Qed.

(** X19. A line from the client to the server: for a line [s] without NUL
    of at most 765 bytes, the empty line included, [send_message] sends the
    structure of type [TYPE_DATA] whose [content] holds the encoding of
    [s], its NUL, and NUL in every byte up to the end of the array.  When
    a call of [recv] or [recvfrom] of the server fills [msg] with this
    structure, the handler, over TCP and over UDP, prints the encoding,
    prints [s] itself and sends the acknowledgement, and [receive_ack]
    prints the text of the acknowledgement. *)
Theorem X19_echo_line_roundtrip : forall s : bytes,
  sendable s ->
  let msg :=
    {| type := TYPE_DATA;
       content := c_string (b64_encode s)
                  ++ repeat (Some NUL) (MSG_LEN - length (b64_encode s) - 1) |} in
  send_message (c_string s) = Some msg
  /\ length (content msg) = MSG_LEN
  /\ read_string (content msg) = Some (b64_encode s)
  /\ handle_data msg = Some (echo_of s)
  /\ handle_udp_message (Data msg) = Some (echo_of s)
  /\ receive_ack ack_message = Some [lit "Message received successfully"].
Proof.
  intros s Hs msg. subst msg.
  destruct (sendable_handled s _ Hs (sendable_message s Hs)) as [Hty Hd].
  split; [apply sendable_message, Hs|].
  destruct Hs as [Hn Hlen]. apply b64_encode_fits in Hlen.
  cbn [type content]. split.
  { unfold c_string. rewrite !length_app, length_map, repeat_length.
    cbn [length]. lia. }
  split; [apply read_string_c_string, NUL_not_in_b64_encode|].
  split; [exact Hd|]. split; [|reflexivity].
  cbn [handle_udp_message type]. exact Hd.
Qed.

Lemma X19_echo_line_roundtrip_witness :
  let msg :=
    {| type := TYPE_DATA;
       content := c_string (b64_encode (lit "sunny"))
                  ++ repeat (Some NUL)
                       (MSG_LEN - length (b64_encode (lit "sunny")) - 1) |} in
  send_message (c_string (lit "sunny")) = Some msg
  /\ length (content msg) = MSG_LEN
  /\ read_string (content msg) = Some (b64_encode (lit "sunny"))
  /\ handle_data msg = Some (echo_of (lit "sunny"))
  /\ handle_udp_message (Data msg) = Some (echo_of (lit "sunny"))
  /\ receive_ack ack_message = Some [lit "Message received successfully"].
Proof.
  apply (X19_echo_line_roundtrip (lit "sunny")).
  split; [|simpl; lia].
  simpl. intros [H|[H|[H|[H|[H|H]]]]]; try discriminate H. exact H.
Defined.

(** X20. A line that is too long: for a line without NUL of 766 bytes or
    more, the encoding has [MSG_LEN] characters or more, [strncpy] fills
    [content] with its first [MSG_LEN] characters and writes no NUL, and
    when [recv] fills [msg] with the structure that [send_message] sends,
    the handler of the server reads [msg.content] as a string beyond the
    end of the array, which is the end of the structure.  [main] reads
    lines of up to 1023 bytes. *)
Theorem X20_echo_long_line_unterminated : forall (s : bytes) (rest : list received),
  ~ In NUL s -> (766 <= length s)%nat -> Z.of_nat (length s) < 2 ^ 60 ->
  let msg :=
    {| type := TYPE_DATA; content := map Some (firstn MSG_LEN (b64_encode s)) |} in
  send_message (c_string s) = Some msg
  /\ length (content msg) = MSG_LEN
  /\ ~ In (Some NUL) (content msg)
  /\ strlen (content msg) = None
  /\ handle_data msg = None
  /\ handle_tcp_client (Data msg :: rest) = None
  /\ handle_udp_message (Data msg) = None.
Proof.
  intros s rest Hn Hlen Hb msg. subst msg.
  assert (Hfit : (length (b64_encode s) <? MSG_LEN)%nat = false).
  { apply Nat.ltb_ge. destruct (Nat.lt_ge_cases (length (b64_encode s)) MSG_LEN)
      as [H|H]; [|exact H].
    apply b64_encode_fits in H. lia. }
  assert (Hnul : ~ In NUL (firstn MSG_LEN (b64_encode s))).
  { intros H. apply In_firstn in H. exact (NUL_not_in_b64_encode s H). }
  assert (Hd : handle_data
                 {| type := TYPE_DATA;
                    content := map Some (firstn MSG_LEN (b64_encode s)) |} = None).
  { unfold handle_data. cbn [content].
    rewrite read_string_unterminated by exact Hnul. reflexivity. }
  cbn [content type]. split.
  { rewrite send_message_c_string by assumption. rewrite Hfit. reflexivity. }
  split.
  { rewrite length_map, length_firstn. apply Nat.ltb_ge in Hfit. lia. }
  split.
  { intros H. apply in_map_iff in H. destruct H as [c [Hc Hin]].
    injection Hc as ->. exact (Hnul Hin). }
  split; [apply strlen_unterminated, Hnul|].
  split; [exact Hd|]. split.
  - cbn [handle_tcp_client type]. cbn [Z.eqb TYPE_DATA Pos.eqb].
    rewrite Hd. reflexivity.
  - cbn [handle_udp_message type]. exact Hd.
Qed.

Lemma X20_echo_long_line_unterminated_witness :
  let s := repeat "a"%char 766 in
  let msg :=
    {| type := TYPE_DATA; content := map Some (firstn MSG_LEN (b64_encode s)) |} in
  send_message (c_string s) = Some msg
  /\ length (content msg) = MSG_LEN
  /\ ~ In (Some NUL) (content msg)
  /\ strlen (content msg) = None
  /\ handle_data msg = None
  /\ handle_tcp_client (Data msg :: []) = None
  /\ handle_udp_message (Data msg) = None.
Proof.
  apply (X20_echo_long_line_unterminated (repeat "a"%char 766) []).
  - intros H. apply repeat_spec in H. discriminate H.
  - rewrite repeat_length. lia.
  - rewrite repeat_length. lia.
Defined.

(** X21. A session over TCP in which every call of [recv] fills [msg] with
    one whole structure (one call of [recv] may also return a part of a
    structure, which the handler then takes for a whole one; that is not
    covered here).  When the structures are those that [send_message]
    makes for a sequence of lines, each without NUL and of at most 765
    bytes, the handler prints for every line its encoding and the line
    itself and sends one acknowledgement, in the order of the lines; it
    then closes the socket when a structure of type [TYPE_TERM] arrives or
    when [recv] reports the end of the connection, and reads nothing that
    follows. *)
Theorem X21_echo_session : forall (ss : list bytes) (msgs : list Message)
    (rest : list received),
  Forall sendable ss ->
  Forall2 (fun s m => send_message (c_string s) = Some m) ss msgs ->
  handle_tcp_client (map Data msgs ++ Data term_message :: rest)
    = Some (flat_map echo_of ss ++ [Closed])
  /\ handle_tcp_client (map Data msgs ++ NoData :: rest)
     = Some (flat_map echo_of ss ++ [Closed])
  /\ handle_tcp_client (map Data msgs) = Some (flat_map echo_of ss).
Proof.
  intros ss msgs rest Hss H2. split; [|split].
  - apply handle_tcp_client_lines; try assumption. reflexivity.
  - apply handle_tcp_client_lines; try assumption. reflexivity.
  - rewrite <- (app_nil_r (map Data msgs)), <- (app_nil_r (flat_map echo_of ss)).
    apply handle_tcp_client_lines; try assumption. reflexivity.
Qed.

Lemma X21_echo_session_witness :
  let message := fun s =>
    {| type := TYPE_DATA;
       content := c_string (b64_encode s)
                  ++ repeat (Some NUL) (MSG_LEN - length (b64_encode s) - 1) |} in
  handle_tcp_client
    (map Data [message (lit "sunny"); message []; message (lit "rain")]
     ++ Data term_message :: [Data (message (lit "snow"))])
  = Some (flat_map echo_of [lit "sunny"; []; lit "rain"] ++ [Closed]).
Proof.
  intros message.
  apply (proj1 (X21_echo_session [lit "sunny"; []; lit "rain"]
                  [message (lit "sunny"); message []; message (lit "rain")]
                  [Data (message (lit "snow"))]
                  ltac:(repeat constructor; simpl; intuition discriminate)
                  ltac:(repeat constructor; vm_compute; reflexivity))).
Defined.







(** ** The echo variant: texts that are not encodings *)

Lemma index_of_None c (l : bytes) : forall k, ~ In c l -> index_of c l k = None.
Proof.
  induction l as [|x l IH]; intros k Hn; [reflexivity|].
  cbn [index_of]. destruct (Ascii.eqb_spec x c) as [E|E].
  - exfalso. apply Hn. left. exact E.
  - apply IH. intros H. apply Hn. right. exact H.
Qed.

Lemma strchr_offset_None c :
  ~ In c base64_chars -> c <> NUL -> strchr_offset c = None.
Proof.
  intros Hc Hn. unfold strchr_offset. rewrite index_of_None; [reflexivity|].
  intros H. apply in_app_or in H. destruct H as [H|[H|[]]]; [auto|congruence].
Qed.

Lemma padded_offset_None c :
  ~ In c base64_chars -> c <> NUL -> c <> PAD -> padded_offset c = None.
Proof.
  intros Hc Hn Hp. unfold padded_offset.
  destruct (Ascii.eqb_spec c PAD); [contradiction|].
  apply strchr_offset_None; assumption.
Qed.

Ltac skip_step :=
  match goal with
  | |- bind ?e _ = None => destruct e; [rewrite bind_Some|reflexivity]
  end.

(** The loop of [base64_decode] does not get past a character that
    [strchr] does not find. *)
Lemma decode_loop_stuck (p : block) input_len output_len k c :
  load p k = Some c -> strchr_offset c = None -> padded_offset c = None ->
  0 <= k < input_len -> input_len < 2 ^ 62 ->
  forall fuel i output,
    0 <= i <= k -> i mod 4 = 0 -> k - i < 4 * Z.of_nat fuel ->
    decode_loop fuel p input_len output_len i output = None.
Proof.
  intros Hload Hs Hp Hk Hb. induction fuel as [|fuel IH]; intros i output Hi Hm Hf.
  - lia.
  - cbn [decode_loop].
    destruct (Z.ltb_spec i input_len); [|lia].
    assert (Hcase : k = i \/ k = i + 1 \/ k = i + 2 \/ k = i + 3 \/ i + 4 <= k) by lia.
    destruct Hcase as [E|[E|[E|[E|E]]]].
    + subst k. rewrite Hload, bind_Some, Hs. reflexivity.
    + do 2 skip_step. rewrite <- E, Hload, bind_Some, Hs. reflexivity.
    + do 4 skip_step. rewrite <- E, Hload, bind_Some, Hp. reflexivity.
    + do 6 skip_step. rewrite <- E, Hload, bind_Some, Hp. reflexivity.
    + do 9 skip_step.
      rewrite to_size_t_small by lia.
      apply IH; [lia|div_lia|lia].
Qed.

Lemma base64_decode_stuck (s : bytes) (rest : block) c :
  ~ In NUL s -> Z.of_nat (length s) < 2 ^ 60 ->
  In c s -> ~ In c base64_chars -> c <> PAD ->
  base64_decode (c_string s ++ rest) = None.
Proof.
  intros Hn Hb Hin Hc Hp.
  assert (Hnul : c <> NUL) by (intros ->; contradiction).
  destruct (in_split c s Hin) as [pre [post Es]].
  unfold base64_decode, strlen, c_string. rewrite <- app_assoc.
  change ([Some NUL] ++ rest) with (Some NUL :: rest).
  rewrite strlen_from_c_string by assumption. rewrite bind_Some.
  do 2 skip_step.
  rewrite (decode_loop_stuck _ _ _ (Z.of_nat (length pre)) c); [reflexivity|..].
  - rewrite Es, map_app, <- app_assoc, load_app_0. reflexivity.
  - apply strchr_offset_None; assumption.
  - apply padded_offset_None; assumption.
  - rewrite Es, length_app. cbn [length]. lia.
  - lia.
  - lia.
  - reflexivity.
  - rewrite Z.add_0_l, Z2Nat.id by lia.
    rewrite Es, length_app. cbn [length]. lia.
Qed.

Lemma handle_data_stuck (s : bytes) (rest : block) ty c :
  ~ In NUL s -> Z.of_nat (length s) < 2 ^ 60 ->
  In c s -> ~ In c base64_chars -> c <> PAD ->
  handle_data {| type := ty; content := c_string s ++ rest |} = None.
Proof.
  intros Hn Hb Hin Hc Hp.
  assert (Hnul : c <> NUL) by (intros ->; contradiction).
  destruct (in_split c s Hin) as [pre [post Es]].
  unfold handle_data. cbn [content].
  rewrite read_string_c_string by assumption.
  assert (Hd : base64_decode_inside
                 (before_content {| type := ty; content := c_string s ++ rest |})
                 (c_string s ++ rest) = None).
  { unfold base64_decode_inside.
    rewrite strlen_c_string_app by assumption. rewrite bind_Some.
    do 2 skip_step.
    rewrite (decode_loop_stuck _ _ _ (Z.of_nat (length pre)) c); [reflexivity|..].
    - unfold c_string. rewrite Es, map_app, <- !app_assoc, load_app_0. reflexivity.
    - apply strchr_offset_None; assumption.
    - apply padded_offset_None; assumption.
    - rewrite Es, length_app. cbn [length]. lia.
    - lia.
    - lia.
    - reflexivity.
    - rewrite Z2Nat.id by lia.
      rewrite Es, length_app. cbn [length]. lia. }
  rewrite Hd. reflexivity.
Qed.

(** X23. No validation in [base64_decode]: on a string that holds a
    character that is neither in [base64_chars] nor ['='], [strchr]
    returns a null pointer and the subtraction of [base64_chars] from it is
    undefined, wherever the character stands, whatever the length of the
    string and whatever follows its NUL in memory; so the handler of the
    server has no defined behaviour on a structure whose [content] holds
    such a string. *)
Theorem X23_base64_decode_invalid_character :
  forall (s : bytes) (rest : block) (ty : Z) (c : ascii),
    ~ In NUL s -> Z.of_nat (length s) < 2 ^ 60 ->
    In c s -> ~ In c base64_chars -> c <> PAD ->
    base64_decode (c_string s ++ rest) = None
    /\ handle_data {| type := ty; content := c_string s ++ rest |} = None.
Proof.
  intros s rest ty c Hn Hb Hin Hc Hp. split.
  - apply (base64_decode_stuck s rest c); assumption.
  - apply (handle_data_stuck s rest ty c); assumption.
Qed.

Lemma X23_base64_decode_invalid_character_witness :
  base64_decode (c_string (lit "c3Vu*nk=") ++ [Some NUL; Some NUL]) = None
  /\ handle_data {| type := TYPE_DATA;
                    content := c_string (lit "c3Vu*nk=") ++ [Some NUL; Some NUL] |}
     = None.
Proof.
  apply (X23_base64_decode_invalid_character
           (lit "c3Vu*nk=") [Some NUL; Some NUL] TYPE_DATA "*"%char).
  - simpl. intuition discriminate.
  - reflexivity.
  - simpl. auto 10.
  - vm_compute. intuition discriminate.
  - discriminate.
Defined.
